(** * Map-projection kernels and geodesic series of Boost.Geometry

    A shallow embedding, over the real numbers, of

    - [proj/cass.hpp]  (Cassini, sphere and ellipsoid),
    - [proj/eck4.hpp]  (Eckert IV),
    - [proj/eqdc.hpp]  (Equidistant Conic),
    - [proj/qsc.hpp]   (Quadrilateralized Spherical Cube),
    - [util/series_expansion.hpp] (scale factors, coefficient tables and
      Clenshaw summation).

    A C++ [double] is read as a real number: every statement below is
    about the arithmetic the code spells out, evaluated exactly.  Where
    the code can raise [proj_exception] the embedding returns a [result];
    where a C++ local can be read before it was written the embedding
    keeps it as an [option]; where an operation of the C math library has
    no real value (square root of a negative, arc cosine outside
    [[-1, 1]], division by zero) the QSC inverse, whose guards are about
    exactly that, is written with the checked operations of [CMath], and
    so is the QSC forward map; an assignment outside a [boost::array] is
    a failed assertion, [None].

    Part I is the embedding, Part II settles the statements of the
    specification, Part III proves further properties of the code. *)

From Stdlib Require Import Reals Lra Lia ZArith List Bool String.
From Stdlib Require Import Machin.
Import ListNotations.

Open Scope R_scope.

(** * Part I: the embedding *)

(** ** The C math library, on reals *)

Module CMath.

(** The comparisons of C, as booleans. *)
Definition Rltb (x y : R) : bool := if Rlt_dec x y then true else false.
Definition Rleb (x y : R) : bool := if Rle_dec x y then true else false.
Definition Rgtb (x y : R) : bool := Rltb y x.
Definition Rgeb (x y : R) : bool := Rleb y x.
Definition Reqb (x y : R) : bool := if Req_dec_T x y then true else false.
Definition Rneb (x y : R) : bool := negb (Reqb x y).

Notation "x <? y" := (Rltb x y) (at level 70, no associativity) : R_scope.
Notation "x <=? y" := (Rleb x y) (at level 70, no associativity) : R_scope.
Notation "x >? y" := (Rgtb x y) (at level 70, no associativity) : R_scope.
Notation "x >=? y" := (Rgeb x y) (at level 70, no associativity) : R_scope.
Notation "x =? y" := (Reqb x y) (at level 70, no associativity) : R_scope.
Notation "x <>? y" := (Rneb x y) (at level 70, no associativity) : R_scope.

Definition fabs (x : R) : R := Rabs x.

Definition hypot (x y : R) : R := sqrt (x * x + y * y).

(** [atan2 y x]: the angle of the point [(x, y)], in (-PI, PI]. *)
Definition atan2 (y x : R) : R :=
  if x >? 0 then atan (y / x)
  else if x <? 0 then
    (if y >=? 0 then atan (y / x) + PI else atan (y / x) - PI)
  else if y >? 0 then PI / 2
  else if y <? 0 then - (PI / 2)
  else 0.

(** Modelled from the spec: [geometry::math::half_pi], [pi] and [two_pi]
    of util/math.hpp, which is not among the sources. *)
Definition half_pi : R := PI / 2.
Definition pi : R := PI.
Definition two_pi : R := 2 * PI.

(** Modelled from the spec: [detail::FORTPI<double>()] of
    impl/projects.hpp, which is not among the sources; the quarter of pi
    behind the 45 and 135 degree thresholds. *)
Definition FORTPI : R := PI / 4.

(** Operations without a real value outside their domain yield [None]
    (the NaN of the C library).  The tangent stays total, as it is in the
    C library, where no [double] is an odd multiple of [pi/2]. *)
Definition sqrt_c (x : R) : option R :=
  if x >=? 0 then Some (sqrt x) else None.

Definition acos_c (x : R) : option R :=
  if (-1 <=? x) && (x <=? 1) then Some (acos x) else None.

Definition div_c (x y : R) : option R :=
  if y =? 0 then None else Some (x / y).

End CMath.
Import CMath.

Definition obind {A B : Type} (o : option A) (k : A -> option B) : option B :=
  match o with
  | Some a => k a
  | None => None
  end.

Notation "'let?' x ':=' o 'in' k" := (obind o (fun x => k))
  (at level 10, x pattern, o at level 100, k at level 200).

(** ** Construction results and the shared parameter record *)

(** A call either yields its value or throws [proj_exception(code)]. *)
Inductive result (A : Type) : Type :=
| Ok (v : A)
| proj_exception (code : Z).
Arguments Ok {A} v.
Arguments proj_exception {A} code.

Definition bind {A B : Type} (r : result A) (k : A -> result B) : result B :=
  match r with
  | Ok v => k v
  | proj_exception code => proj_exception code
  end.

Notation "'let!' x ':=' r 'in' k" := (bind r (fun x => k))
  (at level 10, x pattern, r at level 100, k at level 200).

Module Projects.

(** Modelled from the spec: the ellipsoid/parameter record [parameters]
    of impl/projects.hpp, which is not among the sources, with the fields
    that the kernels read.  [params] holds the named extra parameters,
    already in radians. *)
Record parameters : Type := mk_parameters {
  a : R;
  es : R;
  phi0 : R;
  lam0 : R;
  params : string -> R
}.

(** Modelled from the spec: [pj_param(par.params, "r<name>").f] of
    impl/pj_param.hpp, which is not among the sources; it looks a named
    parameter up and yields its value in radians. *)
Definition pj_param (p : string -> R) (name : string) : R := p name.

(** [double en[EN_SIZE]]: the meridian-arc series coefficients
    ([EN_SIZE] is declared in impl/pj_mlfn.hpp, not among the sources). *)
Definition en_t : Type := list R.

(** The meridian-arc helpers of impl/pj_mlfn.hpp and impl/pj_msfn.hpp
    are not among the sources: the kernels are embedded over any
    implementation of them. [pj_enfn] yields [None] where the C++ one
    returns false. *)
Class MeridianArc : Type := {
  pj_enfn : R -> option en_t;
  pj_mlfn : R -> R -> R -> en_t -> R;
  pj_inv_mlfn : R -> R -> en_t -> R;
  pj_msfn : R -> R -> R -> R
}.

(** Modelled from the spec: [aasin] of impl/aasincos.hpp, which is not
    among the sources.  It is the arc sine of the Eckert IV inverse; an
    argument that overshoots [[-1, 1]] by rounding (at most [ONE_TOL]) is
    clamped to the pole, a larger one is rejected with error -19. *)
Definition ONE_TOL : R := 1.00000000000001.

Definition aasin (v : R) : result R :=
  let av := fabs v in
  if av >=? 1 then
    if av >? ONE_TOL then proj_exception (-19)
    else Ok (if v <? 0 then - half_pi else half_pi)
  else Ok (asin v).

End Projects.
Import Projects.

(** ** Cassini (proj/cass.hpp) *)

Module Cass.
Section Kernel.
Context {MA : MeridianArc}.

Definition EPS10 : R := 1e-10.
Definition C1 : R := 0.16666666666666666666.
Definition C2 : R := 0.00833333333333333333.
Definition C3 : R := 0.04166666666666666666.
Definition C4 : R := 0.33333333333333333333.
Definition C5 : R := 0.06666666666666666666.

Record par_cass : Type := mk_par_cass {
  m0 : R;
  en : en_t
}.

(** [base_cass_ellipsoid::fwd] *)
Definition e_fwd (par : parameters) (pp : par_cass) (lp_lon lp_lat : R) : R * R :=
  let n := sin lp_lat in
  let c := cos lp_lat in
  let xy_y := pj_mlfn lp_lat n c (en pp) in
  let n := 1 / sqrt (1 - es par * n * n) in
  let tn := tan lp_lat in
  let t := tn * tn in
  let a1 := lp_lon * c in
  let c := c * (es par * c / (1 - es par)) in
  let a2 := a1 * a1 in
  let xy_x := n * a1 * (1 - a2 * t * (C1 - (8 - t + 8 * c) * a2 * C2)) in
  let xy_y := xy_y - (m0 pp - n * tn * a2 * (0.5 + (5 - t + 6 * c) * a2 * C3)) in
  (xy_x, xy_y).

(** [base_cass_ellipsoid::inv] *)
Definition e_inv (par : parameters) (pp : par_cass) (xy_x xy_y : R) : R * R :=
  let ph1 := pj_inv_mlfn (m0 pp + xy_y) (es par) (en pp) in
  let tn := tan ph1 in
  let t := tn * tn in
  let n := sin ph1 in
  let r := 1 / (1 - es par * n * n) in
  let n := sqrt r in
  let r := r * ((1 - es par) * n) in
  let dd := xy_x / n in
  let d2 := dd * dd in
  let lp_lat := ph1 - (n * tn / r) * d2 * (0.5 - (1 + 3 * t) * d2 * C3) in
  let lp_lon := dd * (1 + t * d2 * (- C4 + (1 + 3 * t) * d2 * C5)) / cos ph1 in
  (lp_lon, lp_lat).

(** [base_cass_spheroid::fwd] *)
Definition s_fwd (par : parameters) (lp_lon lp_lat : R) : R * R :=
  let xy_x := asin (cos lp_lat * sin lp_lon) in
  let xy_y := atan2 (tan lp_lat) (cos lp_lon) - phi0 par in
  (xy_x, xy_y).

(** [base_cass_spheroid::inv] *)
Definition s_inv (par : parameters) (xy_x xy_y : R) : R * R :=
  let dd := xy_y + phi0 par in
  let lp_lat := asin (sin dd * cos xy_x) in
  let lp_lon := atan2 (tan xy_x) (cos dd) in
  (lp_lon, lp_lat).

(** [setup_cass]: fills [proj_parm] on an ellipsoid, leaves it untouched
    on a sphere. *)
Definition setup_cass (par : parameters) (proj_parm : par_cass) : result par_cass :=
  if es par <>? 0 then
    match pj_enfn (es par) with
    | None => proj_exception 0
    | Some en' =>
        Ok {| en := en';
              m0 := pj_mlfn (phi0 par) (sin (phi0 par)) (cos (phi0 par)) en' |}
    end
  else Ok proj_parm.

End Kernel.
End Cass.

(** ** Eckert IV (proj/eck4.hpp) *)

Module Eck4.

Definition C_x : R := 0.42223820031577120149.
Definition C_y : R := 1.32650042817700232218.
Definition RC_y : R := 0.75386330736002178205.
Definition C_p : R := 3.57079632679489661922.
Definition RC_p : R := 0.28004957675577868795.
Definition EPS : R := 1e-7.
Definition NITER : nat := 6.

(** One pass of the body of the [for] loop: the Newton correction [V] at
    [lp_lat] and the corrected angle. *)
Definition newton_V (p lp_lat : R) : R :=
  let c := cos lp_lat in
  let s := sin lp_lat in
  (lp_lat + s * (c + 2) - p) / (1 + c * (c + 2) - s * s).

(** [for (i = NITER; i; --i) { ...; if (fabs(V) < EPS) break; }]: yields
    the final [i] and [lp_lat]. A [break] leaves [i] as it is. *)
Fixpoint newton (i : nat) (p lp_lat : R) : nat * R :=
  match i with
  | O => (O, lp_lat)
  | S i' =>
      let V := newton_V p lp_lat in
      let lp_lat := lp_lat - V in
      if fabs V <? EPS then (i, lp_lat)
      else newton i' p lp_lat
  end.

(** [base_eck4_spheroid::fwd] *)
Definition s_fwd (lp_lon lp_lat : R) : R * R :=
  let p := C_p * sin lp_lat in
  let V := lp_lat * lp_lat in
  let lp_lat := lp_lat * (0.895168 + V * (0.0218849 + V * 0.00826809)) in
  let '(i, lp_lat) := newton NITER p lp_lat in
  match i with
  | O => (C_x * lp_lon, if lp_lat <? 0 then - C_y else C_y)
  | S _ => (C_x * lp_lon * (1 + cos lp_lat), C_y * sin lp_lat)
  end.

(** [base_eck4_spheroid::inv] *)
Definition s_inv (xy_x xy_y : R) : result (R * R) :=
  let! lp_lat := aasin (xy_y / C_y) in
  let c := cos lp_lat in
  let lp_lon := xy_x / (C_x * (1 + c)) in
  let! lp_lat := aasin ((lp_lat + sin lp_lat * (c + 2)) / C_p) in
  Ok (lp_lon, lp_lat).

(** [setup_eck4] *)
Definition setup_eck4 (par : parameters) : parameters :=
  {| a := a par; es := 0; phi0 := phi0 par; lam0 := lam0 par;
     params := params par |}.

End Eck4.

(** ** Equidistant Conic (proj/eqdc.hpp) *)

Module Eqdc.
Section Kernel.
Context {MA : MeridianArc}.

Definition EPS10 : R := 1e-10.

Record par_eqdc : Type := mk_par_eqdc {
  phi1 : R;
  phi2 : R;
  n : R;
  rho0 : R;
  c : R;
  en : en_t;
  ellips : bool
}.

(** [base_eqdc_ellipsoid::fwd] *)
Definition fwd (pp : par_eqdc) (lp_lon lp_lat : R) : R * R :=
  let rho :=
    c pp - (if ellips pp
            then pj_mlfn lp_lat (sin lp_lat) (cos lp_lat) (en pp)
            else lp_lat) in
  let lp_lon := lp_lon * n pp in
  let xy_x := rho * sin lp_lon in
  let xy_y := rho0 pp - rho * cos lp_lon in
  (xy_x, xy_y).

(** [base_eqdc_ellipsoid::inv] *)
Definition inv (par : parameters) (pp : par_eqdc) (xy_x xy_y : R) : R * R :=
  let xy_y := rho0 pp - xy_y in
  let rho := hypot xy_x xy_y in
  if rho <>? 0 then
    let '(rho, xy_x, xy_y) :=
      if n pp <? 0 then (- rho, - xy_x, - xy_y)
      else (rho, xy_x, xy_y) in
    let lp_lat := c pp - rho in
    let lp_lat :=
      if ellips pp then pj_inv_mlfn lp_lat (es par) (en pp) else lp_lat in
    let lp_lon := atan2 xy_x xy_y / n pp in
    (lp_lon, lp_lat)
  else
    (0, if n pp >? 0 then half_pi else - half_pi).

(** [setup_eqdc] *)
Definition setup_eqdc (par : parameters) : result par_eqdc :=
  let phi1 := pj_param (params par) "rlat_1" in
  let phi2 := pj_param (params par) "rlat_2" in
  if fabs (phi1 + phi2) <? EPS10 then proj_exception (-21)
  else
    match pj_enfn (es par) with
    | None => proj_exception 0
    | Some en =>
        let sinphi := sin phi1 in
        let n := sinphi in
        let cosphi := cos phi1 in
        let secant := fabs (phi1 - phi2) >=? EPS10 in
        let ellips := es par >? 0 in
        if ellips then
          let m1 := pj_msfn sinphi cosphi (es par) in
          let ml1 := pj_mlfn phi1 sinphi cosphi en in
          let n :=
            if secant then
              let sinphi := sin phi2 in
              let cosphi := cos phi2 in
              (m1 - pj_msfn sinphi cosphi (es par)) /
              (pj_mlfn phi2 sinphi cosphi en - ml1)
            else n in
          let c := ml1 + m1 / n in
          let rho0 :=
            c - pj_mlfn (phi0 par) (sin (phi0 par)) (cos (phi0 par)) en in
          Ok {| phi1 := phi1; phi2 := phi2; n := n; rho0 := rho0; c := c;
                en := en; ellips := true |}
        else
          let n :=
            if secant then (cosphi - cos phi2) / (phi2 - phi1) else n in
          let c := phi1 + cos phi1 / n in
          let rho0 := c - phi0 par in
          Ok {| phi1 := phi1; phi2 := phi2; n := n; rho0 := rho0; c := c;
                en := en; ellips := false |}
    end.

End Kernel.
End Eqdc.

(** ** Equidistant Conic: the quantities its statements speak of *)

Module EqdcTerms.
Section Terms.
Context {MA : MeridianArc}.
Import Eqdc.

(** The meridian distance the kernel measures the radius of a parallel
    with: [pj_mlfn] on the ellipsoid, the latitude itself on the
    sphere (the conditional of [fwd] and of [setup_eqdc]). *)
Definition arc (pp : par_eqdc) (lat : R) : R :=
  if ellips pp then pj_mlfn lat (sin lat) (cos lat) (en pp) else lat.

(** The radius of a parallel on the globe: [pj_msfn] on the ellipsoid,
    the cosine of the latitude on the sphere. *)
Definition parallel_radius (par : parameters) (pp : par_eqdc) (phi : R) : R :=
  if ellips pp then pj_msfn (sin phi) (cos phi) (es par) else cos phi.

End Terms.
End EqdcTerms.


(** ** Quadrilateralized Spherical Cube (proj/qsc.hpp) *)

Module Qsc.

Definition EPS10 : R := 1e-10.

(** The six cube faces. *)
Inductive face_t : Type :=
| FACE_FRONT | FACE_RIGHT | FACE_BACK | FACE_LEFT | FACE_TOP | FACE_BOTTOM.

(** The four areas on a cube face. *)
Inductive area_t : Type :=
| AREA_0 | AREA_1 | AREA_2 | AREA_3.

Record par_qsc : Type := mk_par_qsc {
  face : face_t;
  a_squared : R;
  b : R;
  one_minus_f : R;
  one_minus_f_squared : R
}.

(** [qsc_shift_lon_origin] *)
Definition qsc_shift_lon_origin (lon offset : R) : R :=
  let slon := lon + offset in
  if slon <? - pi then slon + two_pi
  else if slon >? pi then slon - two_pi
  else slon.

(** [setup_qsc]: the face from the centre of projection; the constants
    of the ellipsoid-to-sphere shift only when [par.es] is not zero. *)
Definition setup_qsc (par : parameters) (proj_parm : par_qsc) : par_qsc :=
  let face :=
    if phi0 par >=? half_pi - FORTPI / 2 then FACE_TOP
    else if phi0 par <=? - (half_pi - FORTPI / 2) then FACE_BOTTOM
    else if fabs (lam0 par) <=? FORTPI then FACE_FRONT
    else if fabs (lam0 par) <=? half_pi + FORTPI then
      (if lam0 par >? 0 then FACE_RIGHT else FACE_LEFT)
    else FACE_BACK in
  if es par <>? 0 then
    let a_squared := a par * a par in
    let b := a par * sqrt (1 - es par) in
    let one_minus_f := 1 - (a par - b) / a par in
    let one_minus_f_squared := one_minus_f * one_minus_f in
    {| face := face; a_squared := a_squared; b := b;
       one_minus_f := one_minus_f;
       one_minus_f_squared := one_minus_f_squared |}
  else
    {| face := face; a_squared := a_squared proj_parm; b := b proj_parm;
       one_minus_f := one_minus_f proj_parm;
       one_minus_f_squared := one_minus_f_squared proj_parm |}.

(** The area of [(x, y)] and the angle [mu] turned into the area of
    definition: the first [if] chain of [base_qsc_ellipsoid::inv]. *)
Definition inv_area (xy_x xy_y mu : R) : area_t * R :=
  if (xy_x >=? 0) && (xy_x >=? fabs xy_y) then (AREA_0, mu)
  else if (xy_y >=? 0) && (xy_y >=? fabs xy_x) then (AREA_1, mu - half_pi)
  else if (xy_x <? 0) && (- xy_x >=? fabs xy_y) then
    (AREA_2, if mu <? 0 then mu + pi else mu - pi)
  else (AREA_3, mu + half_pi).

(** The clamp of [cosphi] into [[-1, 1]]. *)
Definition clamp_cosphi (cosphi : R) : R :=
  if cosphi <? -1 then -1
  else if cosphi >? 1 then 1
  else cosphi.

(** Longitude on the top face, per area. *)
Definition inv_top_lon (area : area_t) (theta : R) : R :=
  match area with
  | AREA_0 => theta + half_pi
  | AREA_1 => if theta <? 0 then theta + pi else theta - pi
  | AREA_2 => theta - half_pi
  | AREA_3 => theta
  end.

(** Longitude on the bottom face, per area. *)
Definition inv_bottom_lon (area : area_t) (theta : R) : R :=
  match area with
  | AREA_0 => - theta + half_pi
  | AREA_1 => - theta
  | AREA_2 => - theta - half_pi
  | AREA_3 => if theta <? 0 then - theta - pi else - theta + pi
  end.

(** Unit-sphere components [(q, r, s)] from [cosphi] and [theta], with
    the guards on the accumulated squared magnitude [t]. *)
Definition inv_unit_sphere (cosphi theta : R) : option (R * R * R) :=
  let q := cosphi in
  let t := q * q in
  let? s :=
    if t >=? 1 then Some 0
    else (let? w := sqrt_c (1 - t) in Some (w * sin theta)) in
  let t := t + s * s in
  let? r := if t >=? 1 then Some 0 else sqrt_c (1 - t) in
  Some (q, r, s).

(** Rotate [(q, r, s)] into the area. *)
Definition rotate_area (area : area_t) (qrs : R * R * R) : R * R * R :=
  let '(q, r, s) := qrs in
  match area with
  | AREA_0 => (q, r, s)
  | AREA_1 => (q, - s, r)
  | AREA_2 => (q, - r, - s)
  | AREA_3 => (q, s, - r)
  end.

(** Rotate [(q, r, s)] into the cube face. *)
Definition rotate_face (f : face_t) (qrs : R * R * R) : R * R * R :=
  let '(q, r, s) := qrs in
  match f with
  | FACE_RIGHT => (- r, q, s)
  | FACE_BACK => (- q, - r, s)
  | FACE_LEFT => (r, - q, s)
  | _ => (q, r, s)
  end.

(** The shift from the sphere back to the ellipsoid, at the end of the
    inverse. *)
Definition inv_ellipsoid_shift (par : parameters) (pp : par_qsc) (lp_lat : R)
  : option R :=
  let invert_sign := lp_lat <? 0 in
  let tanphi := tan lp_lat in
  let? w := sqrt_c (tanphi * tanphi + one_minus_f_squared pp) in
  let? xa := div_c (b pp) w in
  let? v := sqrt_c (a par * a par - xa * xa) in
  let? u := div_c v (one_minus_f pp * xa) in
  let lp_lat := atan u in
  Some (if invert_sign then - lp_lat else lp_lat).

(** [base_qsc_ellipsoid::inv] *)
Definition inv (par : parameters) (pp : par_qsc) (xy_x xy_y : R)
  : option (R * R) :=
  let? h := sqrt_c (xy_x * xy_x + xy_y * xy_y) in
  let nu := atan h in
  let mu := atan2 xy_y xy_x in
  let '(area, mu) := inv_area xy_x xy_y mu in
  let t := (pi / 12) * tan mu in
  let? sqrt2 := sqrt_c 2 in
  let? inv_sqrt2 := div_c 1 sqrt2 in
  let? tantheta := div_c (sin t) (cos t - inv_sqrt2) in
  let theta := atan tantheta in
  let cosmu := cos mu in
  let tannu := tan nu in
  let? sec_theta := div_c 1 (cos theta) in
  let cosphi :=
    1 - cosmu * cosmu * tannu * tannu * (1 - cos (atan sec_theta)) in
  let cosphi := clamp_cosphi cosphi in
  let? (lp_lon, lp_lat) :=
    match face pp with
    | FACE_TOP =>
        let? phi := acos_c cosphi in
        Some (inv_top_lon area theta, half_pi - phi)
    | FACE_BOTTOM =>
        let? phi := acos_c cosphi in
        Some (inv_bottom_lon area theta, phi - half_pi)
    | f =>
        let? qrs := inv_unit_sphere cosphi theta in
        let '(q, r, s) := rotate_face f (rotate_area area qrs) in
        let? w := acos_c (- s) in
        let lp_lat := w - half_pi in
        let lp_lon := atan2 r q in
        let lp_lon :=
          match f with
          | FACE_RIGHT => qsc_shift_lon_origin lp_lon (- half_pi)
          | FACE_BACK => qsc_shift_lon_origin lp_lon (- pi)
          | FACE_LEFT => qsc_shift_lon_origin lp_lon half_pi
          | _ => lp_lon
          end in
        Some (lp_lon, lp_lat)
    end in
  if es par <>? 0 then
    let? lp_lat := inv_ellipsoid_shift par pp lp_lat in
    Some (lp_lon, lp_lat)
  else Some (lp_lon, lp_lat).

End Qsc.

(** ** QSC, the forward map (proj/qsc.hpp) *)

Module QscFwd.
Import Qsc.

(** [qsc_fwd_equat_face_theta]: the angle [theta] turned into the area
    of definition, and the area (the [int *area] of the C++ helper). *)
Definition qsc_fwd_equat_face_theta (phi y x : R) : R * area_t :=
  if phi <? EPS10 then (0, AREA_0)
  else
    let theta := atan2 y x in
    if fabs theta <=? FORTPI then (theta, AREA_0)
    else if (theta >? FORTPI) && (theta <=? half_pi + FORTPI) then
      (theta - half_pi, AREA_1)
    else if (theta >? half_pi + FORTPI) || (theta <=? - (half_pi + FORTPI)) then
      ((if theta >=? 0 then theta - pi else theta + pi), AREA_2)
    else (theta + half_pi, AREA_3).

(** The area and [theta] on the top face, from the longitude. *)
Definition fwd_top_theta (lon : R) : R * area_t :=
  if (lon >=? FORTPI) && (lon <=? half_pi + FORTPI) then
    (lon - half_pi, AREA_0)
  else if (lon >? half_pi + FORTPI) || (lon <=? - (half_pi + FORTPI)) then
    ((if lon >? 0 then lon - pi else lon + pi), AREA_1)
  else if (lon >? - (half_pi + FORTPI)) && (lon <=? - FORTPI) then
    (lon + half_pi, AREA_2)
  else (lon, AREA_3).

(** The area and [theta] on the bottom face, from the longitude. *)
Definition fwd_bottom_theta (lon : R) : R * area_t :=
  if (lon >=? FORTPI) && (lon <=? half_pi + FORTPI) then
    (- lon + half_pi, AREA_0)
  else if (lon <? FORTPI) && (lon >=? - FORTPI) then
    (- lon, AREA_1)
  else if (lon <? - FORTPI) && (lon >=? - (half_pi + FORTPI)) then
    (- lon - half_pi, AREA_2)
  else ((if lon >? 0 then - lon + pi else - lon - pi), AREA_3).

(** The unit-sphere components [(q, r, s)] on an equatorial face, after
    the shift of the longitude origin. *)
Definition fwd_unit_sphere (f : face_t) (lon lat : R) : R * R * R :=
  let lon :=
    match f with
    | FACE_RIGHT => qsc_shift_lon_origin lon half_pi
    | FACE_BACK => qsc_shift_lon_origin lon pi
    | FACE_LEFT => qsc_shift_lon_origin lon (- half_pi)
    | _ => lon
    end in
  let sinlat := sin lat in
  let coslat := cos lat in
  let sinlon := sin lon in
  let coslon := cos lon in
  (coslat * coslon, coslat * sinlon, sinlat).

(** [phi], [theta] and the area, per face. *)
Definition fwd_phi_theta (f : face_t) (lon lat : R) : option (R * (R * area_t)) :=
  match f with
  | FACE_TOP => Some (half_pi - lat, fwd_top_theta lon)
  | FACE_BOTTOM => Some (half_pi + lat, fwd_bottom_theta lon)
  | _ =>
      let '(q, r, s) := fwd_unit_sphere f lon lat in
      match f with
      | FACE_FRONT =>
          let? phi := acos_c q in
          Some (phi, qsc_fwd_equat_face_theta phi s r)
      | FACE_RIGHT =>
          let? phi := acos_c r in
          Some (phi, qsc_fwd_equat_face_theta phi s (- q))
      | FACE_BACK =>
          let? phi := acos_c (- q) in
          Some (phi, qsc_fwd_equat_face_theta phi s (- r))
      | _ =>
          let? phi := acos_c (- r) in
          Some (phi, qsc_fwd_equat_face_theta phi s q)
      end
  end.

(** [mu] turned back from the area of definition into the area. *)
Definition fwd_rotate_mu (area : area_t) (mu : R) : R :=
  match area with
  | AREA_0 => mu
  | AREA_1 => mu + half_pi
  | AREA_2 => mu + pi
  | AREA_3 => mu + (half_pi + pi)
  end.

(** [mu] and [t] for the area of definition, the result turned into
    the real area: the second half of [base_qsc_ellipsoid::fwd]. *)
Definition fwd_area_of_definition (phi theta : R) (area : area_t)
  : option (R * R) :=
  let? alpha := acos_c (sin theta * cos FORTPI) in
  let mu := atan (12 / pi * (theta + alpha - half_pi)) in
  let? sec_theta := div_c 1 (cos theta) in
  let? u := div_c (1 - cos phi) (cos mu * cos mu) in
  let? v := div_c u (1 - cos (atan sec_theta)) in
  let? t := sqrt_c v in
  let mu := fwd_rotate_mu area mu in
  Some (t * cos mu, t * sin mu).

(** The geocentric latitude the forward map works with: the shift from
    the ellipsoid to the sphere, at the start of
    [base_qsc_ellipsoid::fwd]. *)
Definition fwd_geocentric_lat (par : parameters) (pp : par_qsc) (lp_lat : R)
  : R :=
  if es par <>? 0 then atan (one_minus_f_squared pp * tan lp_lat)
  else lp_lat.

(** [base_qsc_ellipsoid::fwd] *)
Definition fwd (par : parameters) (pp : par_qsc) (lp_lon lp_lat : R)
  : option (R * R) :=
  let lat := fwd_geocentric_lat par pp lp_lat in
  let lon := lp_lon in
  let? (phi, (theta, area)) := fwd_phi_theta (face pp) lon lat in
  fwd_area_of_definition phi theta area.

End QscFwd.


(** ** Series expansions (util/series_expansion.hpp) *)

Module SeriesExpansion.

Definition sqr (x : R) : R := x * x.

(** [evaluate_A1<SeriesOrder>]: the [switch] has no [default], so for
    [SeriesOrder / 2 > 4] the local [t] is read without having been
    written; [None] stands for that. *)
Definition evaluate_A1 (SeriesOrder : nat) (eps : R) : option R :=
  let eps2 := sqr eps in
  let t : option R :=
    match (SeriesOrder / 2)%nat with
    | 0%nat => Some 0
    | 1%nat => Some (eps2 / 4)
    | 2%nat => Some (eps2 * (eps2 + 16) / 64)
    | 3%nat => Some (eps2 * (eps2 * (eps2 + 4) + 64) / 256)
    | 4%nat =>
        Some (eps2 * (eps2 * (eps2 * (25 * eps2 + 64) + 256) + 4096) / 16384)
    | _ => None
    end in
  let? t := t in Some ((t + eps) / (1 - eps)).

(** [evaluate_A2<SeriesOrder>]: here the last case is the [default]. *)
Definition evaluate_A2 (SeriesOrder : nat) (eps : R) : option R :=
  let eps2 := sqr eps in
  let t : option R :=
    match (SeriesOrder / 2)%nat with
    | 0%nat => Some 0
    | 1%nat => Some (- 3 * eps2 / 4)
    | 2%nat => Some ((- 7 * eps2 - 48) * eps2 / 64)
    | 3%nat => Some (eps2 * ((- 11 * eps2 - 28) * eps2 - 192) / 256)
    | _ =>
        Some (eps2 * (eps2 * ((- 375 * eps2 - 704) * eps2 - 1792) - 12288)
              / 16384)
    end in
  let? t := t in Some ((t - eps) / (1 + eps)).

(** [coeffs[i]] of a [boost::array]. *)
Definition at_ (coeffs : list R) (i : nat) : R := nth i coeffs 0.

(** [while (n--) { k1 = ...; k0 = ...; }] of [sin_cos_series]: the loop
    state is [(index, k0, k1)]. *)
Fixpoint clenshaw_loop (n : nat) (ar : R) (coeffs : list R)
    (index : nat) (k0 k1 : R) : nat * R * R :=
  match n with
  | O => (index, k0, k1)
  | S n' =>
      let index := pred index in
      let k1 := ar * k0 - k1 + at_ coeffs index in
      let index := pred index in
      let k0 := ar * k1 - k0 + at_ coeffs index in
      clenshaw_loop n' ar coeffs index k0 k1
  end.

(** [sin_cos_series]; [Coeffs::static_size] is the length of [coeffs]. *)
Definition sin_cos_series (sinx cosx : R) (coeffs : list R) : R :=
  let n := (List.length coeffs - 1)%nat in
  let index := 0%nat in
  let index := (index + (n + 1))%nat in
  let ar := 2 * (cosx - sinx) * (cosx + sinx) in
  let '(index, k0) :=
    if Nat.odd n then (pred index, at_ coeffs (pred index))
    else (index, 0) in
  let k1 := 0 in
  let n := (n / 2)%nat in
  let '(_, k0, _) := clenshaw_loop n ar coeffs index k0 k1 in
  2 * sinx * cosx * k0.

(** The sum that [sin_cos_series] is documented to evaluate, term by
    term: [sum(c[i] * sin(2*i*x), i, 1, n)]. *)
Fixpoint direct_sum (x : R) (coeffs : list R) (n : nat) : R :=
  match n with
  | O => 0
  | S n' => direct_sum x coeffs n' + at_ coeffs n * sin (2 * INR n * x)
  end.

End SeriesExpansion.

(** ** The coefficient tables (util/series_expansion.hpp) *)

Module SeriesCoeffs.
Import SeriesExpansion.

(** [c[i] = v] on a [boost::array]: outside the array the access is a
    failed assertion ([None]). *)
Fixpoint store (c : list R) (i : nat) (v : R) : option (list R) :=
  match c, i with
  | [], _ => None
  | _ :: c', O => Some (v :: c')
  | x :: c', S i' => let? c'' := store c' i' v in Some (x :: c'')
  end.

(** The range [[begin() + offset, begin() + offset + m)] of an array;
    [None] when it runs past the end. *)
Definition slice (c : list R) (offset m : nat) : option (list R) :=
  if (offset + m <=? List.length c)%nat then Some (firstn m (skipn offset c))
  else None.

(** [evaluate_coeffs_A3]: [Coeffs::static_size] is the length of [c]. *)
Definition evaluate_coeffs_A3 (c : list R) (n : R) : option (list R) :=
  match Z.of_nat (List.length c) with
  | 0%Z => Some c
  | 1%Z =>
      let? c := store c 0 1 in
      Some c
  | 2%Z =>
      let? c := store c 0 1 in
      let? c := store c 1 (- 1 / 2) in
      Some c
  | 3%Z =>
      let? c := store c 0 1 in
      let? c := store c 1 ((n - 1) / 2) in
      let? c := store c 2 (- 1 / 4) in
      Some c
  | 4%Z =>
      let? c := store c 0 1 in
      let? c := store c 1 ((n - 1) / 2) in
      let? c := store c 2 ((- n - 2) / 8) in
      let? c := store c 3 (- 1 / 16) in
      Some c
  | 5%Z =>
      let? c := store c 0 1 in
      let? c := store c 1 ((n - 1) / 2) in
      let? c := store c 2 ((n * (3 * n - 1) - 2) / 8) in
      let? c := store c 3 ((- 3 * n - 1) / 16) in
      let? c := store c 4 (- 3 / 64) in
      Some c
  | 6%Z =>
      let? c := store c 0 1 in
      let? c := store c 1 ((n - 1) / 2) in
      let? c := store c 2 ((n * (3 * n - 1) - 2) / 8) in
      let? c := store c 3 (((- n - 3) * n - 1) / 16) in
      let? c := store c 4 ((- 2 * n - 3) / 64) in
      let? c := store c 5 (- 3 / 128) in
      Some c
  | 7%Z =>
      let? c := store c 0 1 in
      let? c := store c 1 ((n - 1) / 2) in
      let? c := store c 2 ((n * (3 * n - 1) - 2) / 8) in
      let? c := store c 3 ((n * (n * (5 * n - 1) - 3) - 1) / 16) in
      let? c := store c 4 (((- 10 * n - 2) * n - 3) / 64) in
      let? c := store c 5 ((- 5 * n - 3) / 128) in
      let? c := store c 6 (- 5 / 256) in
      Some c
  | _ =>
      let? c := store c 0 1 in
      let? c := store c 1 ((n - 1) / 2) in
      let? c := store c 2 ((n * (3 * n - 1) - 2) / 8) in
      let? c := store c 3 ((n * (n * (5 * n - 1) - 3) - 1) / 16) in
      let? c := store c 4 ((n * ((- 5 * n - 20) * n - 4) - 6) / 128) in
      let? c := store c 5 (((- 5 * n - 10) * n - 6) / 256) in
      let? c := store c 6 ((- 15 * n - 20) / 1024) in
      let? c := store c 7 (- 25 / 2048) in
      Some c
  end.

(** [evaluate_coeffs_C1] *)
Definition evaluate_coeffs_C1 (c : list R) (eps : R) : option (list R) :=
  let eps2 := sqr eps in
  let d := eps in
  match (Z.of_nat (List.length c) - 1)%Z with
  | 0%Z => Some c
  | 1%Z =>
      let? c := store c 1 (- d / 2) in
      Some c
  | 2%Z =>
      let? c := store c 1 (- d / 2) in
      let d := d * eps in
      let? c := store c 2 (- d / 16) in
      Some c
  | 3%Z =>
      let? c := store c 1 (d * (3 * eps2 - 8) / 16) in
      let d := d * eps in
      let? c := store c 2 (- d / 16) in
      let d := d * eps in
      let? c := store c 3 (- d / 48) in
      Some c
  | 4%Z =>
      let? c := store c 1 (d * (3 * eps2 - 8) / 16) in
      let d := d * eps in
      let? c := store c 2 (d * (eps2 - 2) / 32) in
      let d := d * eps in
      let? c := store c 3 (- d / 48) in
      let d := d * eps in
      let? c := store c 4 (- 5 * d / 512) in
      Some c
  | 5%Z =>
      let? c := store c 1 (d * ((6 - eps2) * eps2 - 16) / 32) in
      let d := d * eps in
      let? c := store c 2 (d * (eps2 - 2) / 32) in
      let d := d * eps in
      let? c := store c 3 (d * (9 * eps2 - 16) / 768) in
      let d := d * eps in
      let? c := store c 4 (- 5 * d / 512) in
      let d := d * eps in
      let? c := store c 5 (- 7 * d / 1280) in
      Some c
  | 6%Z =>
      let? c := store c 1 (d * ((6 - eps2) * eps2 - 16) / 32) in
      let d := d * eps in
      let? c := store c 2 (d * ((64 - 9 * eps2) * eps2 - 128) / 2048) in
      let d := d * eps in
      let? c := store c 3 (d * (9 * eps2 - 16) / 768) in
      let d := d * eps in
      let? c := store c 4 (d * (3 * eps2 - 5) / 512) in
      let d := d * eps in
      let? c := store c 5 (- 7 * d / 1280) in
      let d := d * eps in
      let? c := store c 6 (- 7 * d / 2048) in
      Some c
  | 7%Z =>
      let? c := store c 1 (d * (eps2 * (eps2 * (19 * eps2 - 64) + 384) - 1024) / 2048) in
      let d := d * eps in
      let? c := store c 2 (d * ((64 - 9 * eps2) * eps2 - 128) / 2048) in
      let d := d * eps in
      let? c := store c 3 (d * ((72 - 9 * eps2) * eps2 - 128) / 6144) in
      let d := d * eps in
      let? c := store c 4 (d * (3 * eps2 - 5) / 512) in
      let d := d * eps in
      let? c := store c 5 (d * (35 * eps2 - 56) / 10240) in
      let d := d * eps in
      let? c := store c 6 (- 7 * d / 2048) in
      let d := d * eps in
      let? c := store c 7 (- 33 * d / 14336) in
      Some c
  | _ =>
      let? c := store c 1 (d * (eps2 * (eps2 * (19 * eps2 - 64) + 384) - 1024) / 2048) in
      let d := d * eps in
      let? c := store c 2 (d * (eps2 * (eps2 * (7 * eps2 - 18) + 128) - 256) / 4096) in
      let d := d * eps in
      let? c := store c 3 (d * ((72 - 9 * eps2) * eps2 - 128) / 6144) in
      let d := d * eps in
      let? c := store c 4 (d * ((96 - 11 * eps2) * eps2 - 160) / 16384) in
      let d := d * eps in
      let? c := store c 5 (d * (35 * eps2 - 56) / 10240) in
      let d := d * eps in
      let? c := store c 6 (d * (9 * eps2 - 14) / 4096) in
      let d := d * eps in
      let? c := store c 7 (- 33 * d / 14336) in
      let d := d * eps in
      let? c := store c 8 (- 429 * d / 262144) in
      Some c
  end.

(** [evaluate_coeffs_C1p] *)
Definition evaluate_coeffs_C1p (c : list R) (eps : R) : option (list R) :=
  let eps2 := sqr eps in
  let d := eps in
  match (Z.of_nat (List.length c) - 1)%Z with
  | 0%Z => Some c
  | 1%Z =>
      let? c := store c 1 (d / 2) in
      Some c
  | 2%Z =>
      let? c := store c 1 (d / 2) in
      let d := d * eps in
      let? c := store c 2 (5 * d / 16) in
      Some c
  | 3%Z =>
      let? c := store c 1 (d * (16 - 9 * eps2) / 32) in
      let d := d * eps in
      let? c := store c 2 (5 * d / 16) in
      let d := d * eps in
      let? c := store c 3 (29 * d / 96) in
      Some c
  | 4%Z =>
      let? c := store c 1 (d * (16 - 9 * eps2) / 32) in
      let d := d * eps in
      let? c := store c 2 (d * (30 - 37 * eps2) / 96) in
      let d := d * eps in
      let? c := store c 3 (29 * d / 96) in
      let d := d * eps in
      let? c := store c 4 (539 * d / 1536) in
      Some c
  | 5%Z =>
      let? c := store c 1 (d * (eps2 * (205 * eps2 - 432) + 768) / 1536) in
      let d := d * eps in
      let? c := store c 2 (d * (30 - 37 * eps2) / 96) in
      let d := d * eps in
      let? c := store c 3 (d * (116 - 225 * eps2) / 384) in
      let d := d * eps in
      let? c := store c 4 (539 * d / 1536) in
      let d := d * eps in
      let? c := store c 5 (3467 * d / 7680) in
      Some c
  | 6%Z =>
      let? c := store c 1 (d * (eps2 * (205 * eps2 - 432) + 768) / 1536) in
      let d := d * eps in
      let? c := store c 2 (d * (eps2 * (4005 * eps2 - 4736) + 3840) / 12288) in
      let d := d * eps in
      let? c := store c 3 (d * (116 - 225 * eps2) / 384) in
      let d := d * eps in
      let? c := store c 4 (d * (2695 - 7173 * eps2) / 7680) in
      let d := d * eps in
      let? c := store c 5 (3467 * d / 7680) in
      let d := d * eps in
      let? c := store c 6 (38081 * d / 61440) in
      Some c
  | 7%Z =>
      let? c := store c 1 (d * (eps2 * ((9840 - 4879 * eps2) * eps2 - 20736) + 36864) / 73728) in
      let d := d * eps in
      let? c := store c 2 (d * (eps2 * (4005 * eps2 - 4736) + 3840) / 12288) in
      let d := d * eps in
      let? c := store c 3 (d * (eps2 * (8703 * eps2 - 7200) + 3712) / 12288) in
      let d := d * eps in
      let? c := store c 4 (d * (2695 - 7173 * eps2) / 7680) in
      let d := d * eps in
      let? c := store c 5 (d * (41604 - 141115 * eps2) / 92160) in
      let d := d * eps in
      let? c := store c 6 (38081 * d / 61440) in
      let d := d * eps in
      let? c := store c 7 (459485 * d / 516096) in
      Some c
  | _ =>
      let? c := store c 1 (d * (eps2 * ((9840 - 4879 * eps2) * eps2 - 20736) + 36864) / 73728) in
      let d := d * eps in
      let? c := store c 2 (d * (eps2 * ((120150 - 86171 * eps2) * eps2 - 142080) + 115200) / 368640) in
      let d := d * eps in
      let? c := store c 3 (d * (eps2 * (8703 * eps2 - 7200) + 3712) / 12288) in
      let d := d * eps in
      let? c := store c 4 (d * (eps2 * (1082857 * eps2 - 688608) + 258720) / 737280) in
      let d := d * eps in
      let? c := store c 5 (d * (41604 - 141115 * eps2) / 92160) in
      let d := d * eps in
      let? c := store c 6 (d * (533134 - 2200311 * eps2) / 860160) in
      let d := d * eps in
      let? c := store c 7 (459485 * d / 516096) in
      let d := d * eps in
      let? c := store c 8 (109167851 * d / 82575360) in
      Some c
  end.

(** [evaluate_coeffs_C2] *)
Definition evaluate_coeffs_C2 (c : list R) (eps : R) : option (list R) :=
  let eps2 := sqr eps in
  let d := eps in
  match (Z.of_nat (List.length c) - 1)%Z with
  | 0%Z => Some c
  | 1%Z =>
      let? c := store c 1 (d / 2) in
      Some c
  | 2%Z =>
      let? c := store c 1 (d / 2) in
      let d := d * eps in
      let? c := store c 2 (3 * d / 16) in
      Some c
  | 3%Z =>
      let? c := store c 1 (d * (eps2 + 8) / 16) in
      let d := d * eps in
      let? c := store c 2 (3 * d / 16) in
      let d := d * eps in
      let? c := store c 3 (5 * d / 48) in
      Some c
  | 4%Z =>
      let? c := store c 1 (d * (eps2 + 8) / 16) in
      let d := d * eps in
      let? c := store c 2 (d * (eps2 + 6) / 32) in
      let d := d * eps in
      let? c := store c 3 (5 * d / 48) in
      let d := d * eps in
      let? c := store c 4 (35 * d / 512) in
      Some c
  | 5%Z =>
      let? c := store c 1 (d * (eps2 * (eps2 + 2) + 16) / 32) in
      let d := d * eps in
      let? c := store c 2 (d * (eps2 + 6) / 32) in
      let d := d * eps in
      let? c := store c 3 (d * (15 * eps2 + 80) / 768) in
      let d := d * eps in
      let? c := store c 4 (35 * d / 512) in
      let d := d * eps in
      let? c := store c 5 (63 * d / 1280) in
      Some c
  | 6%Z =>
      let? c := store c 1 (d * (eps2 * (eps2 + 2) + 16) / 32) in
      let d := d * eps in
      let? c := store c 2 (d * (eps2 * (35 * eps2 + 64) + 384) / 2048) in
      let d := d * eps in
      let? c := store c 3 (d * (15 * eps2 + 80) / 768) in
      let d := d * eps in
      let? c := store c 4 (d * (7 * eps2 + 35) / 512) in
      let d := d * eps in
      let? c := store c 5 (63 * d / 1280) in
      let d := d * eps in
      let? c := store c 6 (77 * d / 2048) in
      Some c
  | 7%Z =>
      let? c := store c 1 (d * (eps2 * (eps2 * (41 * eps2 + 64) + 128) + 1024) / 2048) in
      let d := d * eps in
      let? c := store c 2 (d * (eps2 * (35 * eps2 + 64) + 384) / 2048) in
      let d := d * eps in
      let? c := store c 3 (d * (eps2 * (69 * eps2 + 120) + 640) / 6144) in
      let d := d * eps in
      let? c := store c 4 (d * (7 * eps2 + 35) / 512) in
      let d := d * eps in
      let? c := store c 5 (d * (105 * eps2 + 504) / 10240) in
      let d := d * eps in
      let? c := store c 6 (77 * d / 2048) in
      let d := d * eps in
      let? c := store c 7 (429 * d / 14336) in
      Some c
  | _ =>
      let? c := store c 1 (d * (eps2 * (eps2 * (41 * eps2 + 64) + 128) + 1024) / 2048) in
      let d := d * eps in
      let? c := store c 2 (d * (eps2 * (eps2 * (47 * eps2 + 70) + 128) + 768) / 4096) in
      let d := d * eps in
      let? c := store c 3 (d * (eps2 * (69 * eps2 + 120) + 640) / 6144) in
      let d := d * eps in
      let? c := store c 4 (d * (eps2 * (133 * eps2 + 224) + 1120) / 16384) in
      let d := d * eps in
      let? c := store c 5 (d * (105 * eps2 + 504) / 10240) in
      let d := d * eps in
      let? c := store c 6 (d * (33 * eps2 + 154) / 4096) in
      let d := d * eps in
      let? c := store c 7 (429 * d / 14336) in
      let d := d * eps in
      let? c := store c 8 (6435 * d / 262144) in
      Some c
  end.

(** [evaluate_coeffs_C3x<SeriesOrder>]: the assertion on the size of
    the array comes first. *)
Definition evaluate_coeffs_C3x (SeriesOrder : nat) (c : list R) (n : R)
  : option (list R) :=
  let coeff_size := List.length c in
  let expected_size := (SeriesOrder * (SeriesOrder - 1) / 2)%nat in
  if negb (coeff_size =? expected_size)%nat then None else
  let n2 := sqr n in
  match SeriesOrder with
  | 0%nat => Some c
  | 1%nat => Some c
  | 2%nat =>
      let? c := store c 0 ((1 - n) / 4) in
      Some c
  | 3%nat =>
      let? c := store c 0 ((1 - n) / 4) in
      let? c := store c 1 ((1 - n2) / 8) in
      let? c := store c 2 (((n - 3) * n + 2) / 32) in
      Some c
  | 4%nat =>
      let? c := store c 0 ((1 - n) / 4) in
      let? c := store c 1 ((1 - n2) / 8) in
      let? c := store c 2 ((n * ((- 5 * n - 1) * n + 3) + 3) / 64) in
      let? c := store c 3 (((n - 3) * n + 2) / 32) in
      let? c := store c 4 ((n * (n * (2 * n - 3) - 2) + 3) / 64) in
      let? c := store c 5 ((n * ((5 - n) * n - 9) + 5) / 192) in
      Some c
  | 5%nat =>
      let? c := store c 0 ((1 - n) / 4) in
      let? c := store c 1 ((1 - n2) / 8) in
      let? c := store c 2 ((n * ((- 5 * n - 1) * n + 3) + 3) / 64) in
      let? c := store c 3 ((n * ((2 - 2 * n) * n + 2) + 5) / 128) in
      let? c := store c 4 (((n - 3) * n + 2) / 32) in
      let? c := store c 5 ((n * (n * (2 * n - 3) - 2) + 3) / 64) in
      let? c := store c 6 ((n * ((- 6 * n - 9) * n + 2) + 6) / 256) in
      let? c := store c 7 ((n * ((5 - n) * n - 9) + 5) / 192) in
      let? c := store c 8 ((n * (n * (10 * n - 6) - 10) + 9) / 384) in
      let? c := store c 9 ((n * ((20 - 7 * n) * n - 28) + 14) / 1024) in
      Some c
  | 6%nat =>
      let? c := store c 0 ((1 - n) / 4) in
      let? c := store c 1 ((1 - n2) / 8) in
      let? c := store c 2 ((n * ((- 5 * n - 1) * n + 3) + 3) / 64) in
      let? c := store c 3 ((n * ((2 - 2 * n) * n + 2) + 5) / 128) in
      let? c := store c 4 ((n * (3 * n + 11) + 12) / 512) in
      let? c := store c 5 (((n - 3) * n + 2) / 32) in
      let? c := store c 6 ((n * (n * (2 * n - 3) - 2) + 3) / 64) in
      let? c := store c 7 ((n * ((- 6 * n - 9) * n + 2) + 6) / 256) in
      let? c := store c 8 (((1 - 2 * n) * n + 5) / 256) in
      let? c := store c 9 ((n * ((5 - n) * n - 9) + 5) / 192) in
      let? c := store c 10 ((n * (n * (10 * n - 6) - 10) + 9) / 384) in
      let? c := store c 11 (((- 77 * n - 8) * n + 42) / 3072) in
      let? c := store c 12 ((n * ((20 - 7 * n) * n - 28) + 14) / 1024) in
      let? c := store c 13 (((- 7 * n - 40) * n + 28) / 2048) in
      let? c := store c 14 ((n * (75 * n - 90) + 42) / 5120) in
      Some c
  | 7%nat =>
      let? c := store c 0 ((1 - n) / 4) in
      let? c := store c 1 ((1 - n2) / 8) in
      let? c := store c 2 ((n * ((- 5 * n - 1) * n + 3) + 3) / 64) in
      let? c := store c 3 ((n * ((2 - 2 * n) * n + 2) + 5) / 128) in
      let? c := store c 4 ((n * (3 * n + 11) + 12) / 512) in
      let? c := store c 5 ((10 * n + 21) / 1024) in
      let? c := store c 6 (((n - 3) * n + 2) / 32) in
      let? c := store c 7 ((n * (n * (2 * n - 3) - 2) + 3) / 64) in
      let? c := store c 8 ((n * ((- 6 * n - 9) * n + 2) + 6) / 256) in
      let? c := store c 9 (((1 - 2 * n) * n + 5) / 256) in
      let? c := store c 10 ((69 * n + 108) / 8192) in
      let? c := store c 11 ((n * ((5 - n) * n - 9) + 5) / 192) in
      let? c := store c 12 ((n * (n * (10 * n - 6) - 10) + 9) / 384) in
      let? c := store c 13 (((- 77 * n - 8) * n + 42) / 3072) in
      let? c := store c 14 ((12 - n) / 1024) in
      let? c := store c 15 ((n * ((20 - 7 * n) * n - 28) + 14) / 1024) in
      let? c := store c 16 (((- 7 * n - 40) * n + 28) / 2048) in
      let? c := store c 17 ((72 - 43 * n) / 8192) in
      let? c := store c 18 ((n * (75 * n - 90) + 42) / 5120) in
      let? c := store c 19 ((9 - 15 * n) / 1024) in
      let? c := store c 20 ((44 - 99 * n) / 8192) in
      Some c
  | _ =>
      let? c := store c 0 ((1 - n) / 4) in
      let? c := store c 1 ((1 - n2) / 8) in
      let? c := store c 2 ((n * ((- 5 * n - 1) * n + 3) + 3) / 64) in
      let? c := store c 3 ((n * ((2 - 2 * n) * n + 2) + 5) / 128) in
      let? c := store c 4 ((n * (3 * n + 11) + 12) / 512) in
      let? c := store c 5 ((10 * n + 21) / 1024) in
      let? c := store c 6 (243 / 16384) in
      let? c := store c 7 (((n - 3) * n + 2) / 32) in
      let? c := store c 8 ((n * (n * (2 * n - 3) - 2) + 3) / 64) in
      let? c := store c 9 ((n * ((- 6 * n - 9) * n + 2) + 6) / 256) in
      let? c := store c 10 (((1 - 2 * n) * n + 5) / 256) in
      let? c := store c 11 ((69 * n + 108) / 8192) in
      let? c := store c 12 (187 / 16384) in
      let? c := store c 13 ((n * ((5 - n) * n - 9) + 5) / 192) in
      let? c := store c 14 ((n * (n * (10 * n - 6) - 10) + 9) / 384) in
      let? c := store c 15 (((- 77 * n - 8) * n + 42) / 3072) in
      let? c := store c 16 ((12 - n) / 1024) in
      let? c := store c 17 (139 / 16384) in
      let? c := store c 18 ((n * ((20 - 7 * n) * n - 28) + 14) / 1024) in
      let? c := store c 19 (((- 7 * n - 40) * n + 28) / 2048) in
      let? c := store c 20 ((72 - 43 * n) / 8192) in
      let? c := store c 21 (127 / 16384) in
      let? c := store c 22 ((n * (75 * n - 90) + 42) / 5120) in
      let? c := store c 23 ((9 - 15 * n) / 1024) in
      let? c := store c 24 (99 / 16384) in
      let? c := store c 25 ((44 - 99 * n) / 8192) in
      let? c := store c 26 (99 / 16384) in
      let? c := store c 27 (429 / 114688) in
      Some c
  end.

(** The [for] loop of [evaluate_coeffs_C3]: [remaining] counts the
    iterations left, [Coeffs1::static_size - i]; the state is
    [(coeffs1, mult, offset)].  [math::horner_evaluate] of util/math.hpp
    is not among the sources and is a parameter. *)
Fixpoint evaluate_coeffs_C3_loop (horner_evaluate : R -> list R -> R)
    (remaining i : nat) (mult : R) (offset : nat)
    (coeffs1 coeffs2 : list R) (eps : R) : option (list R * R * nat) :=
  match remaining with
  | O => Some (coeffs1, mult, offset)
  | S remaining' =>
      let m := (List.length coeffs1 - i)%nat in
      let mult := mult * eps in
      let? range := slice coeffs2 offset m in
      let? coeffs1 := store coeffs1 i (mult * horner_evaluate eps range) in
      let offset := (offset + m)%nat in
      evaluate_coeffs_C3_loop horner_evaluate remaining' (S i) mult offset
        coeffs1 coeffs2 eps
  end.

(** [evaluate_coeffs_C3]: the array [coeffs1] and the final [offset]. *)
Definition evaluate_coeffs_C3 (horner_evaluate : R -> list R -> R)
    (coeffs1 coeffs2 : list R) (eps : R) : option (list R * nat) :=
  let mult := 1 in
  let offset := 0%nat in
  let? (coeffs1, _, offset) :=
    evaluate_coeffs_C3_loop horner_evaluate (List.length coeffs1 - 1) 1
      mult offset coeffs1 coeffs2 eps in
  Some (coeffs1, offset).

(** Vocabulary of the statements about the tables: the sum
    [a_0 * x^(j+1) + a_1 * x^(j+2) + ...], and the triangular numbers
    [n + ... + 1]. *)
Fixpoint power_sum (a : list R) (x : R) (j : nat) : R :=
  match a with
  | [] => 0
  | a0 :: a' => a0 * x ^ S j + power_sum a' x (S j)
  end.

Fixpoint triangle (n : nat) : nat :=
  match n with
  | O => O
  | S n' => (S n' + triangle n')%nat
  end.

End SeriesCoeffs.


(** ** A concrete meridian arc, to run the kernels on

    On the unit sphere the meridian arc is the latitude itself; the
    parallel-radius function is the closed form of impl/pj_msfn.hpp. *)

Module Samples.

Definition unit_sphere_arc : MeridianArc :=
  {| pj_enfn := fun _ => Some [1; 0; 0; 0; 0];
     pj_mlfn := fun phi _ _ _ => phi;
     pj_inv_mlfn := fun arg _ _ => arg;
     pj_msfn := fun sinphi cosphi es =>
                  cosphi / sqrt (1 - es * sinphi * sinphi) |}.

(** A parameter record with both standard parallels at [lat_1] and
    [lat_2], on the unit sphere of squared eccentricity [es]. *)
Definition conic_par (es phi0 lat_1 lat_2 : R) : parameters :=
  {| a := 1; es := es; phi0 := phi0; lam0 := 0;
     params := fun name =>
       if String.eqb name "rlat_1" then lat_1
       else if String.eqb name "rlat_2" then lat_2
       else 0 |}.

End Samples.

(** ** Vocabulary of the specification *)

Module Spec.

(** An angle given in degrees, in radians. *)
Definition deg (d : R) : R := d * PI / 180.


(** The seed of the Eckert IV iteration, as [s_fwd] computes it. *)
Definition seed (lp_lat : R) : R :=
  let V := lp_lat * lp_lat in
  lp_lat * (0.895168 + V * (0.0218849 + V * 0.00826809)).

(** The auxiliary angle after [k] Newton steps taken without looking at
    the tolerance. *)
Fixpoint newton_iterate (k : nat) (p lp_lat : R) : R :=
  match k with
  | O => lp_lat
  | S k' => newton_iterate k' p (lp_lat - Eck4.newton_V p lp_lat)
  end.


End Spec.

(** * Part II: properties *)

Import Spec.

(** ** Reasoning about the comparisons and the C math library *)

Ltac cmp_unfold :=
  unfold Rneb, Rgtb, Rgeb, Reqb, Rltb, Rleb in *.

(** Split on every comparison in the goal. *)
Ltac cmp_cases :=
  cmp_unfold;
  repeat match goal with
    | |- context [Rlt_dec ?x ?y] => destruct (Rlt_dec x y)
    | |- context [Rle_dec ?x ?y] => destruct (Rle_dec x y)
    | |- context [Req_dec_T ?x ?y] => destruct (Req_dec_T x y)
    end;
  cbn [negb andb orb].

(** Split on every absolute value in the goal and the hypotheses. *)
Ltac abs_cases :=
  unfold fabs in *;
  repeat match goal with
    | |- context [Rabs ?x] => unfold Rabs; destruct (Rcase_abs x)
    | H : context [Rabs ?x] |- _ => unfold Rabs in H; destruct (Rcase_abs x)
    end.

Lemma Rltb_true x y : x < y -> (x <? y) = true.
Proof. intros; cmp_cases; [reflexivity | lra]. Qed.

Lemma Rltb_false x y : y <= x -> (x <? y) = false.
Proof. intros; cmp_cases; [lra | reflexivity]. Qed.

Lemma Rleb_true x y : x <= y -> (x <=? y) = true.
Proof. intros; cmp_cases; [reflexivity | lra]. Qed.

Lemma Rleb_false x y : y < x -> (x <=? y) = false.
Proof. intros; cmp_cases; [lra | reflexivity]. Qed.

Lemma Rgtb_true x y : y < x -> (x >? y) = true.
Proof. intros; cmp_cases; [reflexivity | lra]. Qed.

Lemma Rgtb_false x y : x <= y -> (x >? y) = false.
Proof. intros; cmp_cases; [lra | reflexivity]. Qed.

Lemma Rgeb_true x y : y <= x -> (x >=? y) = true.
Proof. intros; cmp_cases; [reflexivity | lra]. Qed.

Lemma Rgeb_false x y : x < y -> (x >=? y) = false.
Proof. intros; cmp_cases; [lra | reflexivity]. Qed.

Lemma Rneb_true x y : x <> y -> (x <>? y) = true.
Proof. intros; cmp_cases; [contradiction | reflexivity]. Qed.

Lemma Rneb_false x y : x = y -> (x <>? y) = false.
Proof. intros; cmp_cases; [reflexivity | contradiction]. Qed.

Lemma Reqb_true x y : x = y -> (x =? y) = true.
Proof. intros; cmp_cases; [reflexivity | contradiction]. Qed.

Lemma Reqb_false x y : x <> y -> (x =? y) = false.
Proof. intros; cmp_cases; [contradiction | reflexivity]. Qed.

Lemma atan2_pos_x y x : 0 < x -> atan2 y x = atan (y / x).
Proof. intros Hx. unfold atan2. rewrite Rgtb_true by lra. reflexivity. Qed.

Lemma atan2_0_0 : atan2 0 0 = 0.
Proof.
  unfold atan2.
  rewrite Rgtb_false, Rltb_false by lra.
  reflexivity.
Qed.

Lemma hypot_0_0 : hypot 0 0 = 0.
Proof.
  unfold hypot. replace (0 * 0 + 0 * 0) with 0 by ring. apply sqrt_0.
Qed.

Lemma hypot_eq_0 x y : hypot x y = 0 -> x = 0 /\ y = 0.
Proof.
  unfold hypot. intros H.
  apply sqrt_eq_0 in H; [| nra].
  split; nra.
Qed.

(** ** The embedding at work on concrete inputs *)

Example evaluate_A1_order_2 :
  SeriesExpansion.evaluate_A1 2 (1 / 2) = Some (9 / 8).
Proof.
  unfold SeriesExpansion.evaluate_A1, SeriesExpansion.sqr. cbn.
  f_equal. field.
Qed.

Example evaluate_A2_order_12 :
  SeriesExpansion.evaluate_A2 12 0 = Some 0.
Proof.
  unfold SeriesExpansion.evaluate_A2, SeriesExpansion.sqr. cbn.
  f_equal. field.
Qed.

Example sin_cos_series_two_terms :
  SeriesExpansion.sin_cos_series (3 / 5) (4 / 5) [0; 1; 2] = 1272 / 625.
Proof.
  unfold SeriesExpansion.sin_cos_series, SeriesExpansion.at_. cbn. field.
Qed.

Example sin_cos_series_three_terms :
  SeriesExpansion.sin_cos_series 0 1 [7; 1; 2; 3] = 0.
Proof.
  unfold SeriesExpansion.sin_cos_series, SeriesExpansion.at_. cbn. ring.
Qed.

Example eqdc_inv_at_apex :
  Eqdc.inv (MA := Samples.unit_sphere_arc)
    (Samples.conic_par 0 0 1 1)
    (Eqdc.mk_par_eqdc 1 1 (-1) 5 2 [] false) 0 5
  = (0, - (PI / 2)).
Proof.
  unfold Eqdc.inv. cbn [Eqdc.rho0 Eqdc.n].
  replace (5 - 5) with 0 by ring. rewrite hypot_0_0.
  rewrite Rneb_false by reflexivity.
  rewrite Rgtb_false by lra. reflexivity.
Qed.

Example eck4_fwd_at_origin : Eck4.s_fwd 0 0 = (0, 0).
Proof.
  unfold Eck4.s_fwd, Eck4.NITER. cbn [Eck4.newton].
  replace (0 * (0.895168 + 0 * 0 * (0.0218849 + 0 * 0 * 0.00826809)))
    with 0 by ring.
  assert (HV : Eck4.newton_V (Eck4.C_p * sin 0) 0 = 0).
  { unfold Eck4.newton_V. rewrite sin_0, cos_0. field. }
  rewrite HV. rewrite Rltb_true
    by (unfold fabs, Eck4.EPS; rewrite Rabs_R0; lra).
  replace (0 - 0) with 0 by ring.
  rewrite sin_0. f_equal; ring.
Qed.

(** ** QSC: the face chosen at setup *)

Section QscFace.
Import Qsc.

(** C8. [setup_qsc] picks the face from the centre of projection: for a
    reference latitude [phi0] (between -90 and 90 degrees), within 22.5
    degrees of +90 it is the top face and within 22.5 degrees of -90 the
    bottom face; otherwise [|lam0| <= 45] degrees gives front,
    [45 < |lam0| <= 135] gives right for positive and left for negative
    [lam0], and every other [lam0] gives back.  So [phi0 = 90] is top,
    [phi0 = -90] is bottom, and on the equator [lam0 = 0], [+-90],
    [+-180] are front, right/left and back. *)
Theorem setup_qsc_face_selection (par : parameters) (proj_parm : par_qsc) :
  Rabs (phi0 par) <= deg 90 ->
  let f := face (setup_qsc par proj_parm) in
  let near_north := Rabs (phi0 par - deg 90) <= deg 22.5 in
  let near_south := Rabs (phi0 par + deg 90) <= deg 22.5 in
  (near_north -> f = FACE_TOP) /\
  (near_south -> f = FACE_BOTTOM) /\
  (~ near_north -> ~ near_south ->
     (Rabs (lam0 par) <= deg 45 -> f = FACE_FRONT) /\
     (deg 45 < Rabs (lam0 par) <= deg 135 ->
        (lam0 par > 0 -> f = FACE_RIGHT) /\ (lam0 par < 0 -> f = FACE_LEFT)) /\
     (deg 135 < Rabs (lam0 par) -> f = FACE_BACK)) /\
  (phi0 par = deg 90 -> f = FACE_TOP) /\
  (phi0 par = deg (-90) -> f = FACE_BOTTOM) /\
  (phi0 par = 0 ->
     (lam0 par = 0 -> f = FACE_FRONT) /\
     (lam0 par = deg 90 -> f = FACE_RIGHT) /\
     (lam0 par = deg (-90) -> f = FACE_LEFT) /\
     (lam0 par = deg 180 \/ lam0 par = deg (-180) -> f = FACE_BACK)).
Proof.
  intros Hlat f near_north near_south.
  assert (Hf : f =
    if phi0 par >=? half_pi - FORTPI / 2 then FACE_TOP
    else if phi0 par <=? - (half_pi - FORTPI / 2) then FACE_BOTTOM
    else if fabs (lam0 par) <=? FORTPI then FACE_FRONT
    else if fabs (lam0 par) <=? half_pi + FORTPI then
      (if lam0 par >? 0 then FACE_RIGHT else FACE_LEFT)
    else FACE_BACK).
  { unfold f, setup_qsc. destruct (es par <>? 0); reflexivity. }
  clearbody f. subst f.
  unfold near_north, near_south, deg, half_pi, FORTPI in *.
  pose proof PI_RGT_0 as Hpi.
  repeat split; intros; cmp_cases; try reflexivity; exfalso;
    abs_cases; try lra.
Qed.

End QscFace.

Lemma setup_qsc_face_selection_witness :
  Qsc.face
    (Qsc.setup_qsc (mk_parameters 1 0 0 0 (fun _ => 0))
       (Qsc.mk_par_qsc Qsc.FACE_BACK 0 0 0 0)) = Qsc.FACE_FRONT.
Proof.
  assert (Hlat : Rabs (phi0 (mk_parameters 1 0 0 0 (fun _ => 0))) <= deg 90).
  { cbn [phi0]. rewrite Rabs_R0. unfold deg. pose proof PI_RGT_0. lra. }
  pose proof (setup_qsc_face_selection
                (mk_parameters 1 0 0 0 (fun _ => 0))
                (Qsc.mk_par_qsc Qsc.FACE_BACK 0 0 0 0) Hlat) as H.
  cbv zeta in H.
  destruct H as (_ & _ & _ & _ & _ & H).
  destruct (H eq_refl) as (Hfront & _).
  exact (Hfront eq_refl).
Defined.

(** ** Equidistant Conic *)

Section EqdcFacts.
Import Eqdc.
Context {MA : MeridianArc}.

(** The standard parallels as [setup_eqdc] reads them. *)
Local Abbreviation lat_1 par := (pj_param (params par) "rlat_1").
Local Abbreviation lat_2 par := (pj_param (params par) "rlat_2").

(** [setup_eqdc] succeeds exactly when the parallels are not antipodal
    and the meridian-arc coefficients can be made. *)
Lemma setup_eqdc_succeeds (par : parameters) (en0 : en_t) :
  EPS10 <= Rabs (lat_1 par + lat_2 par) ->
  pj_enfn (es par) = Some en0 ->
  exists pp, setup_eqdc par = Ok pp /\ en pp = en0 /\
             phi1 pp = lat_1 par /\ phi2 pp = lat_2 par.
Proof.
  intros Hsum Hen. unfold setup_eqdc.
  rewrite Rltb_false by (unfold fabs; lra).
  rewrite Hen.
  destruct (es par >? 0); eexists; (split; [reflexivity |]); cbn; auto.
Qed.

(** C5. With standard parallels such that [|phi1 + phi2| < 1e-10],
    [setup_eqdc] throws [proj_exception(-21)], whatever the meridian-arc
    helpers would have computed: it never returns a constant block. *)
Theorem setup_eqdc_rejects_antipodal (par : parameters) :
  Rabs (lat_1 par + lat_2 par) < 1e-10 ->
  setup_eqdc par = proj_exception (-21) /\
  (forall pp, setup_eqdc par <> Ok pp).
Proof.
  intros Hsum.
  assert (E : setup_eqdc par = proj_exception (-21)).
  { unfold setup_eqdc.
    rewrite Rltb_true by (unfold fabs, EPS10; lra). reflexivity. }
  split; [exact E |].
  intros pp Hpp. rewrite E in Hpp. discriminate Hpp.
Qed.

(** C6. When [|phi1 - phi2| < 1e-10] (in particular [phi1 = phi2]) the
    constant block that [setup_eqdc] returns has the tangent-cone
    constant [n = sin(phi1)], and [c] is built from that [n] alone: no
    secant correction, on the ellipsoid path and on the sphere path. *)
Theorem setup_eqdc_tangent (par : parameters) (pp : par_eqdc) :
  Rabs (lat_1 par - lat_2 par) < 1e-10 ->
  setup_eqdc par = Ok pp ->
  n pp = sin (lat_1 par) /\
  ellips pp = (es par >? 0) /\
  (ellips pp = true ->
     c pp = pj_mlfn (lat_1 par) (sin (lat_1 par)) (cos (lat_1 par)) (en pp)
            + pj_msfn (sin (lat_1 par)) (cos (lat_1 par)) (es par)
              / sin (lat_1 par)) /\
  (ellips pp = false ->
     c pp = lat_1 par + cos (lat_1 par) / sin (lat_1 par)).
Proof.
  intros Hdiff. unfold setup_eqdc.
  destruct (fabs (lat_1 par + lat_2 par) <? EPS10); [discriminate |].
  destruct (pj_enfn (es par)) as [en0 |]; [| discriminate].
  rewrite (Rgeb_false (fabs (lat_1 par - lat_2 par)) EPS10)
    by (unfold fabs, EPS10; lra).
  destruct (es par >? 0); intros [= <-]; cbn;
    repeat split; intros; try reflexivity; discriminate.
Qed.

(** C7. The inverse map: with [rho = hypot(x, rho0 - y)] not zero and a
    negative [n], the latitude and longitude are recovered from the
    negated [rho], [x] and [rho0 - y]; with [rho] exactly zero the result
    is longitude 0 and latitude [pi/2] for [n > 0], [-pi/2] for [n < 0],
    a pair in which [n] does not occur. *)
Theorem eqdc_inv_cases (par : parameters) (pp : par_eqdc) (xy_x xy_y : R) :
  let y' := rho0 pp - xy_y in
  let rho := hypot xy_x y' in
  let lat_of v := if ellips pp then pj_inv_mlfn v (es par) (en pp) else v in
  (rho <> 0 -> n pp < 0 ->
     inv par pp xy_x xy_y
     = (atan2 (- xy_x) (- y') / n pp, lat_of (c pp - - rho))) /\
  (rho <> 0 -> 0 <= n pp ->
     inv par pp xy_x xy_y = (atan2 xy_x y' / n pp, lat_of (c pp - rho))) /\
  (rho = 0 -> n pp > 0 -> inv par pp xy_x xy_y = (0, PI / 2)) /\
  (rho = 0 -> n pp < 0 -> inv par pp xy_x xy_y = (0, - (PI / 2))).
Proof.
  intros y' rho lat_of. unfold inv. fold y'. fold rho.
  repeat split; intros Hrho Hn.
  - rewrite Rneb_true, Rltb_true by assumption. reflexivity.
  - rewrite Rneb_true, Rltb_false by (assumption || lra). reflexivity.
  - rewrite Rneb_false, Rgtb_true by (assumption || lra). reflexivity.
  - rewrite Rneb_false, Rgtb_false by (assumption || lra). reflexivity.
Qed.

End EqdcFacts.

Lemma setup_eqdc_rejects_antipodal_witness :
  Eqdc.setup_eqdc (MA := Samples.unit_sphere_arc)
    (Samples.conic_par 0 0 (1 / 2) (- (1 / 2))) = proj_exception (-21).
Proof.
  refine (proj1 (setup_eqdc_rejects_antipodal
                   (MA := Samples.unit_sphere_arc)
                   (Samples.conic_par 0 0 (1 / 2) (- (1 / 2))) _)).
  cbn. replace (1 / 2 + - (1 / 2)) with 0 by field.
  rewrite Rabs_R0. lra.
Defined.

Lemma setup_eqdc_tangent_witness :
  exists pp,
    Eqdc.setup_eqdc (MA := Samples.unit_sphere_arc)
      (Samples.conic_par 0 0 (1 / 2) (1 / 2)) = Ok pp /\
    Eqdc.n pp = sin (1 / 2).
Proof.
  assert (Hsum : Eqdc.EPS10 <= Rabs (1 / 2 + 1 / 2)).
  { rewrite Rabs_pos_eq by lra. unfold Eqdc.EPS10. lra. }
  destruct (setup_eqdc_succeeds (MA := Samples.unit_sphere_arc)
              (Samples.conic_par 0 0 (1 / 2) (1 / 2)) [1; 0; 0; 0; 0]
              Hsum eq_refl) as (pp & E & _).
  exists pp. split; [exact E |].
  assert (Hdiff : Rabs (1 / 2 - 1 / 2) < 1e-10).
  { replace (1 / 2 - 1 / 2) with 0 by field. rewrite Rabs_R0. lra. }
  exact (proj1 (setup_eqdc_tangent (MA := Samples.unit_sphere_arc)
                  (Samples.conic_par 0 0 (1 / 2) (1 / 2)) pp Hdiff E)).
Defined.

(** ** The reference point *)

Section ReferencePoint.
Context {MA : MeridianArc}.

Lemma atan2_tan_1 (phi : R) :
  - (PI / 2) < phi < PI / 2 -> atan2 (tan phi) 1 = phi.
Proof.
  intros Hphi. rewrite atan2_pos_x by lra.
  replace (tan phi / 1) with (tan phi) by field.
  apply atan_tan. exact Hphi.
Qed.

(** C9. At the reference point, relative longitude 0 and latitude
    [phi0], the forward map yields [(0, 0)]: for Cassini on the sphere
    (a latitude [phi0] strictly between the poles, where its tangent
    exists), for Cassini on the ellipsoid as set up by [setup_cass], and
    for the Equidistant Conic as set up by [setup_eqdc], on the sphere
    and on the ellipsoid alike. *)
Theorem fwd_at_reference_point (par : parameters) :
  (- (PI / 2) < phi0 par < PI / 2 ->
     Cass.s_fwd par 0 (phi0 par) = (0, 0)) /\
  (forall proj_parm pp,
     es par <> 0 -> Cass.setup_cass par proj_parm = Ok pp ->
     Cass.e_fwd par pp 0 (phi0 par) = (0, 0)) /\
  (forall pp,
     Eqdc.setup_eqdc par = Ok pp ->
     Eqdc.fwd pp 0 (phi0 par) = (0, 0)).
Proof.
  split; [| split].
  - intros Hphi. unfold Cass.s_fwd.
    rewrite sin_0, cos_0, Rmult_0_r, asin_0, atan2_tan_1 by exact Hphi.
    f_equal. ring.
  - intros proj_parm pp Hes. unfold Cass.setup_cass.
    rewrite Rneb_true by exact Hes.
    destruct (pj_enfn (es par)) as [en0 |]; [| discriminate].
    intros [= <-]. unfold Cass.e_fwd. cbn [Cass.m0 Cass.en].
    f_equal; ring.
  - intros pp. unfold Eqdc.setup_eqdc.
    destruct (_ <? Eqdc.EPS10); [discriminate |].
    destruct (pj_enfn (es par)) as [en0 |]; [| discriminate].
    destruct (es par >? 0); intros [= <-]; unfold Eqdc.fwd;
      cbn [Eqdc.c Eqdc.ellips Eqdc.en Eqdc.n Eqdc.rho0];
      rewrite Rmult_0_l, sin_0, cos_0; f_equal; ring.
Qed.

End ReferencePoint.

(** ** The scale-factor series *)

Section ScaleFactors.
Import SeriesExpansion.

Lemma evaluate_A2_total (order : nat) (eps : R) :
  exists v, evaluate_A2 order eps = Some v.
Proof.
  unfold evaluate_A2.
  destruct (order / 2)%nat as [| [| [| [| k]]]]; eexists; reflexivity.
Qed.

Lemma evaluate_A1_defined (order : nat) (eps : R) :
  (order < 10)%nat -> exists v, evaluate_A1 order eps = Some v.
Proof.
  intros Horder. unfold evaluate_A1.
  assert (Hdiv : (order / 2 < 5)%nat)
    by (apply Nat.Div0.div_lt_upper_bound; lia).
  destruct (order / 2)%nat as [| [| [| [| [| k]]]]];
    try (eexists; reflexivity); lia.
Qed.

(** C3 (as the code has it). [evaluate_A2] assigns [t] in every branch
    of its [switch], the last one being the [default]; [evaluate_A1] has
    [case 4] where its sibling has [default], so from series order 10 on
    it returns a value computed from a [t] that was never assigned. *)
Theorem evaluate_A1_unassigned_from_order_10 (order : nat) (eps : R) :
  (evaluate_A1 order eps = None <-> (10 <= order)%nat) /\
  evaluate_A1 10 eps = None /\
  evaluate_A2 order eps <> None.
Proof.
  split; [| split].
  - split.
    + intros Hnone.
      destruct (Nat.lt_ge_cases order 10) as [Hlt | Hge]; [| exact Hge].
      destruct (evaluate_A1_defined order eps Hlt) as [v Hv].
      rewrite Hv in Hnone. discriminate Hnone.
    + intros Hge. unfold evaluate_A1.
      assert (Hdiv : (5 <= order / 2)%nat).
      { change 5%nat with (10 / 2)%nat. apply Nat.Div0.div_le_mono. exact Hge. }
      destruct (order / 2)%nat as [| [| [| [| [| k]]]]];
        try reflexivity; lia.
  - reflexivity.
  - destruct (evaluate_A2_total order eps) as [v Hv].
    rewrite Hv. discriminate.
Qed.

End ScaleFactors.

(** ** Clenshaw summation *)

Section Clenshaw.
Import SeriesExpansion.

Variable theta : R.
Variable coeffs : list R.

(** [term i] is the [i]-th term of the sum, for the angle [theta]. *)
Let term (i : nat) : R := at_ coeffs i * sin (INR i * theta).

(** The sum of the [len] terms from index [lo] on. *)
Fixpoint psum (lo len : nat) : R :=
  match len with
  | O => 0
  | S len' => term lo + psum (S lo) len'
  end.

Lemma psum_snoc (lo len : nat) :
  psum lo (S len) = psum lo len + term (lo + len).
Proof.
  revert lo. induction len as [| len IH]; intros lo.
  - cbn. rewrite Nat.add_0_r. ring.
  - change (psum lo (S (S len))) with (term lo + psum (S lo) (S len)).
    rewrite IH. cbn [psum].
    replace (S lo + len)%nat with (lo + S len)%nat by lia. ring.
Qed.

(** The three-term recurrence of the sines that the accumulators run
    backwards. *)
Lemma sin_three_term (t : R) :
  sin ((t + 1) * theta) = 2 * cos theta * sin (t * theta) - sin ((t - 1) * theta).
Proof.
  replace ((t + 1) * theta) with (t * theta + theta) by ring.
  replace ((t - 1) * theta) with (t * theta - theta) by ring.
  rewrite sin_plus, sin_minus. ring.
Qed.

(** What the accumulators stand for when [k0] is the accumulator of
    index [index] and [k1] the one of [index + 1]. *)
Let pending (index : nat) (k0 k1 : R) : R :=
  k0 * sin (INR index * theta) - k1 * sin ((INR index - 1) * theta).

Lemma clenshaw_step (index : nat) (k0 k1 : R) :
  (2 <= index)%nat ->
  let k1' := 2 * cos theta * k0 - k1 + at_ coeffs (pred index) in
  let k0' := 2 * cos theta * k1' - k0 + at_ coeffs (pred (pred index)) in
  pending (pred (pred index)) k0' k1'
  = pending index k0 k1 + term (pred (pred index)) + term (pred index).
Proof.
  intros Hindex k1' k0'. unfold pending, term.
  destruct index as [| [| j]]; [lia | lia |].
  cbn [pred]. rewrite !S_INR.
  set (t := INR j).
  replace (t + 1 + 1 - 1) with (t + 1) by ring.
  pose proof (sin_three_term (t + 1)) as H2.
  pose proof (sin_three_term t) as H1.
  replace (t + 1 - 1) with t in H2 by ring.
  rewrite H2, H1. unfold k0', k1'. cbn [pred]. ring.
Qed.

Lemma clenshaw_loop_pending (m index : nat) (k0 k1 : R) :
  (2 * m <= index)%nat ->
  match clenshaw_loop m (2 * cos theta) coeffs index k0 k1 with
  | (index', k0', k1') =>
      index' = (index - 2 * m)%nat /\
      pending index' k0' k1'
      = pending index k0 k1 + psum (index - 2 * m) (2 * m)
  end.
Proof.
  revert index k0 k1. induction m as [| m IH]; intros index k0 k1 Hm.
  - change (2 * 0)%nat with 0%nat. cbn [clenshaw_loop psum].
    split; [lia | ring].
  - cbn [clenshaw_loop].
    set (k1' := 2 * cos theta * k0 - k1 + at_ coeffs (pred index)).
    set (k0' := 2 * cos theta * k1' - k0 + at_ coeffs (pred (pred index))).
    assert (Hm' : (2 * m <= pred (pred index))%nat) by lia.
    specialize (IH (pred (pred index)) k0' k1' Hm').
    destruct (clenshaw_loop m (2 * cos theta) coeffs (pred (pred index)) k0' k1')
      as [[index' k0f] k1f].
    destruct IH as [Hidx Hpend]. split; [lia |].
    rewrite Hpend. unfold k0', k1'. rewrite clenshaw_step by lia.
    replace (2 * S m)%nat with (S (S (2 * m))) by lia.
    rewrite 2 psum_snoc.
    replace (pred (pred index) - 2 * m)%nat with (index - S (S (2 * m)))%nat by lia.
    replace (index - S (S (2 * m)) + 2 * m)%nat with (pred (pred index)) by lia.
    replace (index - S (S (2 * m)) + S (2 * m))%nat with (pred index) by lia.
    ring.
Qed.

Lemma clenshaw_loop_zero (m index : nat) (ar : R) :
  (forall i, at_ coeffs i = 0) ->
  snd (fst (clenshaw_loop m ar coeffs index 0 0)) = 0.
Proof.
  intros Hzero. revert index. induction m as [| m IH]; intros index.
  - reflexivity.
  - cbn [clenshaw_loop]. rewrite !Hzero.
    replace (ar * 0 - 0 + 0) with 0 by ring.
    replace (ar * 0 - 0 + 0) with 0 by ring.
    apply IH.
Qed.

End Clenshaw.

Section ClenshawCorrect.
Import SeriesExpansion.

Lemma parity_split (n : nat) :
  (Nat.odd n = true /\ n = (2 * (n / 2) + 1)%nat) \/
  (Nat.odd n = false /\ n = (2 * (n / 2))%nat).
Proof.
  pose proof (Nat.div_mod_eq n 2) as Hdm.
  destruct (Nat.odd n) eqn:Hodd.
  - left. split; [reflexivity |].
    apply Nat.odd_spec in Hodd. destruct Hodd as [m Hm].
    assert (Hmod : (n mod 2 = 1)%nat).
    { subst n. rewrite Nat.add_comm, Nat.mul_comm, Nat.Div0.mod_add.
      reflexivity. }
    lia.
  - right. split; [reflexivity |].
    assert (Heven : Nat.even n = true).
    { rewrite <- Nat.negb_odd, Hodd. reflexivity. }
    apply Nat.even_spec in Heven. destruct Heven as [m Hm].
    assert (Hmod : (n mod 2 = 0)%nat).
    { subst n. rewrite Nat.mul_comm. apply Nat.Div0.mod_mul. }
    lia.
Qed.

Lemma psum_direct_sum (x : R) (coeffs : list R) (n : nat) :
  psum (2 * x) coeffs 1 n = direct_sum x coeffs n.
Proof.
  induction n as [| n IH].
  - reflexivity.
  - rewrite psum_snoc, IH. cbn [direct_sum].
    replace (1 + n)%nat with (S n) by lia.
    replace (INR (S n) * (2 * x)) with (2 * INR (S n) * x) by ring.
    reflexivity.
Qed.

Lemma sin_cos_series_psum (x : R) (coeffs : list R) (n : nat) :
  List.length coeffs = S n ->
  sin_cos_series (sin x) (cos x) coeffs = psum (2 * x) coeffs 1 n.
Proof.
  intros Hlen. unfold sin_cos_series. rewrite Hlen.
  replace (S n - 1)%nat with n by lia.
  replace (0 + (n + 1))%nat with (S n) by lia.
  replace (2 * (cos x - sin x) * (cos x + sin x)) with (2 * cos (2 * x))
    by (rewrite cos_2a; ring).
  replace (2 * sin x * cos x) with (sin (2 * x)) by (rewrite sin_2a; ring).
  set (m := (n / 2)%nat).
  destruct (parity_split n) as [[Hodd Hn] | [Hodd Hn]]; fold m in Hn;
    rewrite Hodd; cbn [pred].
  - pose proof (clenshaw_loop_pending (2 * x) coeffs m n (at_ coeffs n) 0) as H.
    destruct (clenshaw_loop m (2 * cos (2 * x)) coeffs n (at_ coeffs n) 0)
      as [[index' k0f] k1f].
    destruct H as [Hidx Hpend]; [lia |].
    replace (n - 2 * m)%nat with 1%nat in * by lia. subst index'.
    cbn [INR] in Hpend.
    replace ((1 - 1) * (2 * x)) with 0 in Hpend by ring.
    rewrite sin_0 in Hpend.
    replace (1 * (2 * x)) with (2 * x) in Hpend by ring.
    pose proof (psum_snoc (2 * x) coeffs 1 (2 * m)) as Hsnoc.
    replace (S (2 * m)) with n in Hsnoc by lia.
    replace (1 + 2 * m)%nat with n in Hsnoc by lia.
    rewrite Hsnoc. lra.
  - pose proof (clenshaw_loop_pending (2 * x) coeffs m (S n) 0 0) as H.
    destruct (clenshaw_loop m (2 * cos (2 * x)) coeffs (S n) 0 0)
      as [[index' k0f] k1f].
    destruct H as [Hidx Hpend]; [lia |].
    replace (S n - 2 * m)%nat with 1%nat in * by lia. subst index'.
    cbn [INR] in Hpend.
    replace ((1 - 1) * (2 * x)) with 0 in Hpend by ring.
    rewrite sin_0 in Hpend.
    replace (1 * (2 * x)) with (2 * x) in Hpend by ring.
    replace (2 * m)%nat with n in Hpend by lia.
    lra.
Qed.

(** C4. For a coefficient array of static size [n + 1] and the sine and
    cosine of any [x], [sin_cos_series] equals the direct sum of
    [c[i] * sin(2*i*x)] for [i] from 1 to [n]; it is 0 when every
    coefficient is 0, whatever [sinx] and [cosx]; and for [n = 1] it is
    [c[1] * sin(2x)]. *)
Theorem sin_cos_series_direct_sum (x : R) (coeffs : list R) (n : nat) :
  List.length coeffs = S n ->
  sin_cos_series (sin x) (cos x) coeffs = direct_sum x coeffs n /\
  ((forall i, at_ coeffs i = 0) ->
     forall sinx cosx, sin_cos_series sinx cosx coeffs = 0) /\
  (n = 1%nat ->
     sin_cos_series (sin x) (cos x) coeffs = at_ coeffs 1 * sin (2 * x)).
Proof.
  intros Hlen.
  assert (Hmain : sin_cos_series (sin x) (cos x) coeffs = direct_sum x coeffs n).
  { rewrite (sin_cos_series_psum x coeffs n Hlen). apply psum_direct_sum. }
  split; [exact Hmain | split].
  - intros Hzero sinx cosx. unfold sin_cos_series.
    rewrite Hzero.
    assert (Hk0 : (if Nat.odd (List.length coeffs - 1)
                   then (pred (0 + (List.length coeffs - 1 + 1)), 0)
                   else ((0 + (List.length coeffs - 1 + 1))%nat, 0))
                  = ((if Nat.odd (List.length coeffs - 1)
                      then pred (0 + (List.length coeffs - 1 + 1))
                      else (0 + (List.length coeffs - 1 + 1))%nat), 0)).
    { destruct (Nat.odd _); reflexivity. }
    rewrite Hk0.
    match goal with
    | |- context [clenshaw_loop ?m ?ar coeffs ?idx 0 0] =>
        pose proof (clenshaw_loop_zero coeffs m idx ar Hzero) as Hloop;
        destruct (clenshaw_loop m ar coeffs idx 0 0) as [[index' k0f] k1f]
    end.
    cbn in Hloop. rewrite Hloop. ring.
  - intros Hn. rewrite Hmain. subst n. cbn [direct_sum INR].
    replace (2 * 1 * x) with (2 * x) by ring. ring.
Qed.

Lemma sin_cos_series_direct_sum_witness :
  SeriesExpansion.sin_cos_series (sin 1) (cos 1) [0; 3]
  = SeriesExpansion.direct_sum 1 [0; 3] 1.
Proof.
  exact (proj1 (sin_cos_series_direct_sum 1 [0; 3] 1 eq_refl)).
Defined.

End ClenshawCorrect.

(** ** QSC: the inverse never leaves the reals *)

Section QscInverse.
Import Qsc.

Lemma atan_le_PI4 (r : R) : r <= 1 -> atan r <= PI / 4.
Proof.
  intros [Hlt | ->]; [| rewrite atan_1; lra].
  left. rewrite <- atan_1. apply atan_increasing. exact Hlt.
Qed.

Lemma atan_ge_PI4 (r : R) : 1 <= r -> PI / 4 <= atan r.
Proof.
  intros [Hlt | <-]; [| rewrite atan_1; lra].
  left. rewrite <- atan_1. apply atan_increasing. exact Hlt.
Qed.

Lemma atan_ge_mPI4 (r : R) : -1 <= r -> - (PI / 4) <= atan r.
Proof.
  intros Hr. pose proof (atan_le_PI4 (- r)) as H.
  rewrite atan_opp in H. lra.
Qed.

Lemma atan_le_mPI4 (r : R) : r <= -1 -> atan r <= - (PI / 4).
Proof.
  intros Hr. pose proof (atan_ge_PI4 (- r)) as H.
  rewrite atan_opp in H. lra.
Qed.

(** Everything the area analysis needs to know about [atan (y / x)]. *)
Lemma atan_ratio_facts (x y : R) :
  x <> 0 ->
  let r := atan (y / x) in
  - (PI / 2) < r < PI / 2 /\
  (0 <= y * x -> 0 <= r) /\
  (y * x <= 0 -> r <= 0) /\
  (y * x <= x * x -> r <= PI / 4) /\
  (x * x <= y * x -> PI / 4 <= r) /\
  (- (x * x) <= y * x -> - (PI / 4) <= r) /\
  (y * x <= - (x * x) -> r <= - (PI / 4)).
Proof.
  intros Hx r. unfold r.
  assert (Hxx : 0 < x * x) by nra.
  assert (Hq : y / x = (y * x) / (x * x)) by (field; exact Hx).
  assert (Hdiv : forall u, (u <= y * x -> u / (x * x) <= y / x) /\
                           (y * x <= u -> y / x <= u / (x * x))).
  { intros u. rewrite Hq. unfold Rdiv.
    split; intros Hu; apply Rmult_le_compat_r; try exact Hu;
      left; apply Rinv_0_lt_compat; exact Hxx. }
  assert (H1 : x * x / (x * x) = 1) by (field; exact Hx).
  assert (Hm1 : - (x * x) / (x * x) = -1) by (field; exact Hx).
  assert (H0 : 0 / (x * x) = 0) by (field; exact Hx).
  split; [pose proof (atan_bound (y / x)); lra |].
  repeat split; intros Hyx.
  - rewrite <- atan_0. destruct (proj1 (Hdiv 0) Hyx) as [Hlt | Heq].
    + left. apply atan_increasing. lra.
    + right. f_equal. lra.
  - rewrite <- atan_0. destruct (proj2 (Hdiv 0) Hyx) as [Hlt | Heq].
    + left. apply atan_increasing. lra.
    + right. f_equal. lra.
  - apply atan_le_PI4. pose proof (proj2 (Hdiv (x * x)) Hyx). lra.
  - apply atan_ge_PI4. pose proof (proj1 (Hdiv (x * x)) Hyx). lra.
  - apply atan_ge_mPI4. pose proof (proj1 (Hdiv (- (x * x))) Hyx). lra.
  - apply atan_le_mPI4. pose proof (proj2 (Hdiv (- (x * x))) Hyx). lra.
Qed.


Lemma sqrt_c_some (x : R) : 0 <= x -> sqrt_c x = Some (sqrt x).
Proof. intros H. unfold sqrt_c. rewrite Rgeb_true by exact H. reflexivity. Qed.

Lemma div_c_some (x y : R) : y <> 0 -> div_c x y = Some (x / y).
Proof. intros H. unfold div_c. rewrite Reqb_false by exact H. reflexivity. Qed.

Lemma acos_c_some (x : R) : -1 <= x <= 1 -> acos_c x = Some (acos x).
Proof.
  intros [Hlo Hhi]. unfold acos_c.
  rewrite !Rleb_true by assumption. reflexivity.
Qed.








End QscInverse.

(** ** Numeric facts: pi and small angles *)

Lemma PI_bounds : 3.141592653589793238462 < PI < 3.141592653589793238463.
Proof.
  pose proof (PI_2_3_7_ineq 11) as [Hlo Hhi].
  unfold sum_f_R0, tg_alt, PI_2_3_7_tg, Ratan_seq in Hlo, Hhi.
  cbn [Nat.mul Nat.add INR] in Hlo, Hhi.
  split; lra.
Qed.

Lemma sin_small (e : R) :
  0 <= e <= 1 -> e - e ^ 3 / 6 <= sin e <= e.
Proof.
  intros [H0 H1].
  pose proof (pre_sin_bound e 0 H0 ltac:(lra)) as [Hlo _].
  unfold sin_approx, sin_term, sum_f_R0 in Hlo.
  cbn [Nat.mul Nat.add fact] in Hlo.
  rewrite !INR_IZR_INZ in Hlo. cbn [Z.of_nat Pos.of_succ_nat Pos.succ] in Hlo.
  split; [lra |].
  destruct H0 as [H0 | <-]; [| rewrite sin_0; lra].
  left. apply sin_lt_x. exact H0.
Qed.

Lemma cos_small (e : R) :
  0 <= e <= 1 -> 1 - e ^ 2 / 2 <= cos e <= 1 - e ^ 2 / 2 + e ^ 4 / 24.
Proof.
  intros [H0 H1].
  pose proof (pre_cos_bound e 0 ltac:(lra) ltac:(lra)) as [Hlo Hhi].
  unfold cos_approx, cos_term, sum_f_R0 in Hlo, Hhi.
  cbn [Nat.mul Nat.add fact] in Hlo, Hhi.
  rewrite !INR_IZR_INZ in Hlo, Hhi.
  cbn [Z.of_nat Pos.of_succ_nat Pos.succ] in Hlo, Hhi.
  assert (E24 : INR 24 = 24) by (rewrite INR_IZR_INZ; reflexivity).
  rewrite E24 in Hhi. split; lra.
Qed.






(** ** Round trips that are exact: Cassini on the sphere, Equidistant Conic *)

(** Cassini on the sphere: the inverse undoes the forward map. *)
Lemma cass_s_round_trip (par : parameters) (lp_lon lp_lat : R) :
  - (PI / 2) < lp_lon < PI / 2 ->
  - (PI / 2) < lp_lat < PI / 2 ->
  let xy := Cass.s_fwd par lp_lon lp_lat in
  Cass.s_inv par (fst xy) (snd xy) = (lp_lon, lp_lat).
Proof.
  intros Hlon Hlat xy. subst xy. unfold Cass.s_fwd, Cass.s_inv. cbn [fst snd].
  set (A := cos lp_lat). set (B := cos lp_lon).
  set (s := sin lp_lat). set (t := sin lp_lon).
  assert (HA : 0 < A) by (apply cos_gt_0; lra).
  assert (HB : 0 < B) by (apply cos_gt_0; lra).
  assert (HAs : s * s + A * A = 1).
  { pose proof (sin2_cos2 lp_lat) as H. unfold Rsqr in H. exact H. }
  assert (HBt : t * t + B * B = 1).
  { pose proof (sin2_cos2 lp_lon) as H. unfold Rsqr in H. exact H. }
  assert (Ht : -1 < t < 1) by (split; nra).
  assert (HA1 : A <= 1) by nra.
  assert (Hv : -1 < A * t < 1) by (split; nra).
  set (W := sqrt (1 - (A * t)²)).
  assert (HW2 : W * W = 1 - A * t * (A * t)).
  { unfold W. rewrite sqrt_sqrt; unfold Rsqr; [reflexivity | nra]. }
  assert (HW : 0 < W).
  { unfold W. apply sqrt_lt_R0. unfold Rsqr. nra. }
  rewrite (atan2_pos_x (tan lp_lat) B) by exact HB.
  replace (atan (tan lp_lat / B) - phi0 par + phi0 par)
    with (atan (tan lp_lat / B)) by ring.
  set (u := tan lp_lat / B).
  assert (Hu : u = s / (A * B)).
  { unfold u, tan. fold s A. field. lra. }
  assert (Hsq : sqrt (1 + u²) = W / (A * B)).
  { apply sqrt_lem_1.
    - unfold Rsqr. nra.
    - apply Rmult_le_pos; [lra |]. left. apply Rinv_0_lt_compat. nra.
    - rewrite Hu. unfold Rsqr.
      replace (W / (A * B) * (W / (A * B))) with (W * W / (A * B * (A * B)))
        by (field; lra).
      rewrite HW2.
      replace (A * t * (A * t)) with (A * A * (1 - B * B)) by nra.
      replace 1 with (s * s + A * A) at 1 by exact HAs.
      field. lra. }
  rewrite sin_atan, cos_atan, Hsq.
  rewrite cos_asin by lra. fold W.
  f_equal.
  - (* longitude *)
    assert (Hcd : 0 < 1 / (W / (A * B))).
    { replace (1 / (W / (A * B))) with (A * B / W) by (field; lra).
      apply Rmult_lt_0_compat; [nra |]. apply Rinv_0_lt_compat. exact HW. }
    rewrite atan2_pos_x by exact Hcd.
    unfold tan. rewrite sin_asin by lra. rewrite cos_asin by lra. fold W.
    replace (A * t / W / (1 / (W / (A * B)))) with (tan lp_lon).
    + apply atan_tan. exact Hlon.
    + unfold tan. fold t B. field. lra.
  - (* latitude *)
    replace (u / (W / (A * B)) * W) with (sin lp_lat).
    + apply asin_sin. lra.
    + rewrite Hu. fold s. field. lra.
Qed.

(** [atan2] recovers the angle of a point given in polar form. *)
Lemma atan2_polar (k lam : R) :
  0 < k -> - PI < lam < PI ->
  atan2 (k * sin lam) (k * cos lam) = lam.
Proof.
  intros Hk Hlam. pose proof PI_RGT_0 as Hpi.
  assert (Hratio : cos lam <> 0 -> k * sin lam / (k * cos lam) = tan lam).
  { intros Hc. unfold tan. field. lra. }
  assert (Htan : forall z, cos z <> 0 -> tan (z + PI) = tan z).
  { intros z Hz. unfold tan. rewrite neg_sin, neg_cos. field. exact Hz. }
  unfold atan2.
  destruct (Rtotal_order lam (- (PI / 2))) as [Hlt | [Heq | Hgt]].
  - (* third quadrant *)
    assert (Hc : cos lam < 0).
    { rewrite <- cos_neg. apply cos_lt_0; lra. }
    assert (Hs : sin lam < 0) by (apply sin_lt_0_var; lra).
    rewrite Rgtb_false, Rltb_true, Rgeb_false by nra.
    rewrite Hratio by lra.
    rewrite <- (Htan lam) by lra.
    rewrite atan_tan by lra. ring.
  - subst lam. rewrite cos_neg, sin_neg, cos_PI2, sin_PI2.
    rewrite Rgtb_false, Rltb_false, Rgtb_false, Rltb_true by lra.
    reflexivity.
  - destruct (Rtotal_order lam (PI / 2)) as [Hlt | [Heq | Hgt']].
    + assert (Hc : 0 < cos lam) by (apply cos_gt_0; lra).
      rewrite Rgtb_true by nra.
      rewrite Hratio by lra. apply atan_tan. lra.
    + subst lam. rewrite cos_PI2, sin_PI2.
      rewrite Rgtb_false, Rltb_false, Rgtb_true by lra.
      reflexivity.
    + assert (Hc : cos lam < 0) by (apply cos_lt_0; lra).
      assert (Hs : 0 < sin lam) by (apply sin_gt_0; lra).
      rewrite Rgtb_false, Rltb_true, Rgeb_true by nra.
      rewrite Hratio by lra.
      assert (Hc' : cos (lam - PI) <> 0).
      { replace (lam - PI) with (- (PI - lam)) by ring.
        rewrite cos_neg. replace (PI - lam) with (- lam + PI) by ring.
        rewrite neg_cos, cos_neg. lra. }
      pose proof (Htan (lam - PI) Hc') as Hshift.
      replace (lam - PI + PI) with lam in Hshift by ring.
      rewrite Hshift. rewrite atan_tan by lra. ring.
Qed.

Lemma hypot_polar (rho lam : R) :
  hypot (rho * sin lam) (rho * cos lam) = Rabs rho.
Proof.
  unfold hypot.
  replace (rho * sin lam * (rho * sin lam) + rho * cos lam * (rho * cos lam))
    with (rho * rho * ((sin lam)² + (cos lam)²)) by (unfold Rsqr; ring).
  rewrite sin2_cos2, Rmult_1_r. apply sqrt_Rsqr_abs.
Qed.

Section EqdcRoundTrip.
Import Eqdc.
Context {MA : MeridianArc}.


End EqdcRoundTrip.

(** ** Eckert IV: the iteration and its fallback *)

Section Eck4Facts.
Import Eck4.

(** One Newton step just below the pole halves the distance to it. *)
Lemma newton_V_near_pole (p lp_lat : R) :
  Rabs (PI / 2 + 2 - p) <= 1e-12 ->
  1e-5 <= PI / 2 - lp_lat <= 1e-3 ->
  0.49 * (PI / 2 - lp_lat) <= - newton_V p lp_lat <= 0.51 * (PI / 2 - lp_lat).
Proof.
  intros Hp He.
  set (e := PI / 2 - lp_lat) in *.
  set (delta := PI / 2 + 2 - p) in *.
  assert (Hd : -1e-12 <= delta <= 1e-12).
  { unfold Rabs in Hp. destruct (Rcase_abs delta); lra. }
  clear Hp.
  unfold newton_V.
  replace lp_lat with (PI / 2 - e) by (unfold e; ring).
  rewrite cos_shift, sin_shift.
  pose proof (sin_small e ltac:(lra)) as [HSlo HShi].
  pose proof (cos_small e ltac:(lra)) as [HClo HChi].
  cbn [pow] in HSlo, HClo, HChi.
  set (S := sin e) in *. set (C := cos e) in *.
  assert (Hsc : S * S + C * C = 1).
  { pose proof (sin2_cos2 e) as H. unfold Rsqr in H. exact H. }
  (* powers of [e] *)
  assert (He2 : 1e-10 <= e * e <= 1e-6) by (split; nra).
  assert (He3 : 0 <= e * (e * e) <= 1e-3 * (e * e)).
  { split; [apply Rmult_le_pos; lra |].
    apply Rmult_le_compat_r; lra. }
  assert (He4 : 0 <= e * e * (e * e) <= 1e-6 * (e * e)).
  { split; [apply Rmult_le_pos; lra |].
    apply Rmult_le_compat_r; lra. }
  assert (HS0 : 0 < S) by lra.
  assert (HC1 : C <= 1) by lra.
  assert (HC0 : 0 < C) by lra.
  assert (HSS : 0 <= S * S) by (apply Rmult_le_pos; lra).
  (* the product [cos e * sin e] *)
  assert (HCS_hi : C * S <= e).
  { assert (H : C * S <= 1 * S) by (apply Rmult_le_compat_r; lra). lra. }
  assert (HCS_lo : e - 2 / 3 * (e * (e * e)) <= C * S).
  { assert (H1 : (1 - e * e / 2) * S <= C * S)
      by (apply Rmult_le_compat_r; lra).
    assert (H2 : (1 - e * e / 2) * (e - e * (e * e) / 6) <= (1 - e * e / 2) * S)
      by (apply Rmult_le_compat_l; lra).
    assert (H3 : 0 <= e * (e * e) * (e * e)) by (apply Rmult_le_pos; lra).
    lra. }
  set (D := 1 + S * (S + 2) - C * C).
  assert (HD : D = 2 * S + 2 * (S * S)) by (unfold D; lra).
  assert (HDpos : 0 < D) by lra.
  set (N := PI / 2 - e + C * (S + 2) - p).
  assert (HN : - N = 2 * (1 - C) + (e - C * S) - delta).
  { unfold N, delta. ring. }
  assert (HNlo : e * e - e * e * (e * e) / 12 - delta <= - N) by lra.
  assert (HNhi : - N <= e * e + 2 / 3 * (e * (e * e)) - delta) by lra.
  assert (HSS_hi : S * S <= e * e).
  { assert (H1 : S * S <= e * S) by (apply Rmult_le_compat_r; lra).
    assert (H2 : e * S <= e * e) by (apply Rmult_le_compat_l; lra).
    lra. }
  assert (HeD_hi : e * D <= 2 * (e * e) + 2 * (e * (e * e))).
  { assert (H : e * D <= e * (2 * e + 2 * (e * e)))
      by (apply Rmult_le_compat_l; lra).
    lra. }
  assert (HeD_lo : 2 * (e * e) - e * e * (e * e) / 3 <= e * D).
  { assert (H : e * (2 * (e - e * (e * e) / 6)) <= e * D)
      by (apply Rmult_le_compat_l; lra).
    lra. }
  assert (Hlow : 0.49 * e * D <= - N) by lra.
  assert (Hupp : - N <= 0.51 * e * D) by lra.
  replace (- (N / D)) with (- N / D) by (field; lra).
  split.
  - apply Rmult_le_reg_r with D; [exact HDpos |].
    replace (- N / D * D) with (- N) by (field; lra). lra.
  - apply Rmult_le_reg_r with D; [exact HDpos |].
    replace (- N / D * D) with (- N) by (field; lra). lra.
Qed.

Lemma s_fwd_unfold (lp_lon lp_lat : R) :
  s_fwd lp_lon lp_lat =
  match newton NITER (C_p * sin lp_lat) (seed lp_lat) with
  | (O, th) => (C_x * lp_lon, if th <? 0 then - C_y else C_y)
  | (S _, th) => (C_x * lp_lon * (1 + cos th), C_y * sin th)
  end.
Proof.
  unfold s_fwd, seed.
  destruct (newton NITER _ _) as [[| i] th]; reflexivity.
Qed.

(** The budget is exhausted exactly when none of the corrections was
    below the tolerance; the angle is then the plain Newton iterate. *)
Lemma newton_exhausted (i : nat) (p lp_lat : R) :
  (fst (newton i p lp_lat) = O <->
   forall k, (k < i)%nat -> EPS <= fabs (newton_V p (newton_iterate k p lp_lat))) /\
  (fst (newton i p lp_lat) = O ->
   snd (newton i p lp_lat) = newton_iterate i p lp_lat).
Proof.
  revert lp_lat. induction i as [| i IH]; intros lp_lat.
  - cbn. split; [split; [intros _ k Hk; lia | reflexivity] | reflexivity].
  - cbn [newton newton_iterate].
    destruct (Rlt_dec (fabs (newton_V p lp_lat)) EPS) as [Hlt | Hge].
    + rewrite Rltb_true by exact Hlt. cbn [fst snd].
      split; [split |]; try discriminate.
      intros Hall. specialize (Hall O ltac:(lia)). cbn in Hall. lra.
    + rewrite Rltb_false by lra.
      destruct (IH (lp_lat - newton_V p lp_lat)) as [[Hfwd Hbwd] Hsnd].
      split; [split |].
      * intros Hz [| k] Hk; [cbn; lra |].
        cbn [newton_iterate]. apply Hfwd; [exact Hz | lia].
      * intros Hall. apply Hbwd. intros k Hk.
        apply (Hall (S k)). lia.
      * exact Hsnd.
Qed.

Lemma pow_49_le_1 (i : nat) : 0 < 0.49 ^ i <= 1.
Proof.
  induction i as [| i [IH0 IH1]]; cbn [pow]; [lra |].
  split; nra.
Qed.

(** Started just below the pole, the iteration runs out of budget. *)
Lemma newton_near_pole (i : nat) (p lp_lat : R) :
  Rabs (PI / 2 + 2 - p) <= 1e-12 ->
  0 < PI / 2 - lp_lat <= 1e-3 ->
  0.49e-5 <= (PI / 2 - lp_lat) * 0.49 ^ i ->
  exists th,
    newton i p lp_lat = (O, th) /\ 0 < PI / 2 - th <= 1e-3.
Proof.
  intros Hp. revert lp_lat. induction i as [| i IH]; intros lp_lat He Hpow.
  - exists lp_lat. split; [reflexivity | exact He].
  - pose proof (pow_49_le_1 i) as [Hq0 Hq1].
    cbn [pow] in Hpow.
    set (e := PI / 2 - lp_lat) in *.
    assert (He5 : 1e-5 <= e).
    { assert (H : e * 0.49 ^ i <= e * 1) by (apply Rmult_le_compat_l; lra).
      lra. }
    pose proof (newton_V_near_pole p lp_lat Hp ltac:(fold e; lra)) as [HVlo HVhi].
    fold e in HVlo, HVhi.
    cbn [newton].
    rewrite Rltb_false.
    2:{ unfold fabs, EPS. rewrite <- Rabs_Ropp. rewrite Rabs_pos_eq; lra. }
    apply IH.
    + unfold e in *. lra.
    + replace (PI / 2 - (lp_lat - newton_V p lp_lat))
        with (e - - newton_V p lp_lat) by (unfold e; ring).
      assert (H : 0.49 * e * 0.49 ^ i <= (e - - newton_V p lp_lat) * 0.49 ^ i)
        by (apply Rmult_le_compat_r; lra).
      lra.
Qed.

Lemma seed_near_pole (lp_lat : R) :
  PI / 2 - 1e-8 <= lp_lat <= PI / 2 ->
  7e-4 <= PI / 2 - seed lp_lat <= 8e-4.
Proof.
  intros Hlat. pose proof PI_bounds as Hpi.
  assert (Hl : 1.57079631 <= lp_lat <= 1.57079633) by lra.
  unfold seed.
  set (V := lp_lat * lp_lat).
  assert (HV : 1.57079631 * 1.57079631 <= V <= 1.57079633 * 1.57079633).
  { unfold V. split; apply Rmult_le_compat; lra. }
  set (q1 := 0.0218849 + V * 0.00826809).
  assert (Hq1 : 0.0218849 + 1.57079631 * 1.57079631 * 0.00826809 <= q1
                <= 0.0218849 + 1.57079633 * 1.57079633 * 0.00826809)
    by (unfold q1; lra).
  set (q2 := V * q1).
  assert (Hq2 : 1.57079631 * 1.57079631
                * (0.0218849 + 1.57079631 * 1.57079631 * 0.00826809) <= q2
                <= 1.57079633 * 1.57079633
                   * (0.0218849 + 1.57079633 * 1.57079633 * 0.00826809)).
  { unfold q2. split; apply Rmult_le_compat; lra. }
  set (q3 := 0.895168 + q2).
  assert (Hq3 : 0.99 <= q3 <= 1) by (unfold q3; lra).
  assert (Hs : 1.57079631 * (0.895168 + 1.57079631 * 1.57079631
                * (0.0218849 + 1.57079631 * 1.57079631 * 0.00826809))
               <= lp_lat * q3
               <= 1.57079633 * (0.895168 + 1.57079633 * 1.57079633
                   * (0.0218849 + 1.57079633 * 1.57079633 * 0.00826809))).
  { split; apply Rmult_le_compat; unfold q3; lra. }
  lra.
Qed.

Lemma p_near_pole (lp_lat : R) :
  PI / 2 - 1e-8 <= lp_lat <= PI / 2 ->
  Rabs (PI / 2 + 2 - C_p * sin lp_lat) <= 1e-12.
Proof.
  intros Hlat. pose proof PI_bounds as Hpi.
  set (d := PI / 2 - lp_lat).
  replace lp_lat with (PI / 2 - d) by (unfold d; ring).
  rewrite sin_shift.
  assert (Hd : 0 <= d <= 1e-8) by (unfold d; lra).
  pose proof (cos_small d ltac:(lra)) as [Hlo _].
  pose proof (COS_bound d) as [_ Hhi].
  assert (Hdd : d * d <= 1e-16) by nra.
  cbn [pow] in Hlo. unfold C_p.
  apply Rabs_le. split; lra.
Qed.

(** Within [1e-8] of the north pole the forward map takes the fallback
    branch. *)
Lemma s_fwd_near_pole (lp_lon lp_lat : R) :
  PI / 2 - 1e-8 <= lp_lat <= PI / 2 ->
  fst (newton NITER (C_p * sin lp_lat) (seed lp_lat)) = O /\
  s_fwd lp_lon lp_lat = (C_x * lp_lon, C_y).
Proof.
  intros Hlat. pose proof PI_bounds as Hpi.
  pose proof (seed_near_pole lp_lat Hlat) as Hseed.
  pose proof (p_near_pole lp_lat Hlat) as Hp.
  destruct (newton_near_pole NITER (C_p * sin lp_lat) (seed lp_lat) Hp)
    as (th & Hnewton & Hth).
  - lra.
  - unfold NITER. cbn [pow]. lra.
  - rewrite s_fwd_unfold, Hnewton. split; [reflexivity |].
    rewrite Rltb_false by lra. reflexivity.
Qed.












End Eck4Facts.

(** ** Eckert IV: the claims *)

Section Eck4Claims.
Import Eck4.


(** C2. Called at latitude [pi/2], the forward map runs its 6 Newton
    steps without any correction [V] falling below [1e-7] and takes the
    fallback branch: [x = C_x * lon] and [y = +C_y], with
    [C_y = 1.32650042817700232218].  In general, whenever none of the 6
    corrections falls below the tolerance, the result is [x = C_x * lon]
    and [y = -C_y] or [+C_y] as the iterated angle is negative or not. *)
Theorem eck4_fwd_pole_fallback (lp_lon : R) :
  (forall k, (k < NITER)%nat ->
     EPS <= fabs (newton_V (C_p * sin (PI / 2))
                    (newton_iterate k (C_p * sin (PI / 2)) (seed (PI / 2))))) /\
  fst (newton NITER (C_p * sin (PI / 2)) (seed (PI / 2))) = O /\
  s_fwd lp_lon (PI / 2) = (C_x * lp_lon, C_y) /\
  C_y = 1.32650042817700232218 /\
  (forall lp_lat,
     (forall k, (k < NITER)%nat ->
        EPS <= fabs (newton_V (C_p * sin lp_lat)
                       (newton_iterate k (C_p * sin lp_lat) (seed lp_lat)))) ->
     s_fwd lp_lon lp_lat
     = (C_x * lp_lon,
        if newton_iterate NITER (C_p * sin lp_lat) (seed lp_lat) <? 0
        then - C_y else C_y)).
Proof.
  assert (Hpole : PI / 2 - 1e-8 <= PI / 2 <= PI / 2) by lra.
  destruct (s_fwd_near_pole lp_lon (PI / 2) Hpole) as [Hfst Hfwd].
  split; [| split; [exact Hfst | split; [exact Hfwd | split; [reflexivity |]]]].
  - apply (proj1 (newton_exhausted NITER _ _)). exact Hfst.
  - intros lp_lat Hall.
    destruct (newton_exhausted NITER (C_p * sin lp_lat) (seed lp_lat))
      as [[_ Hbwd] Hsnd].
    specialize (Hbwd Hall). specialize (Hsnd Hbwd).
    rewrite s_fwd_unfold.
    destruct (newton NITER (C_p * sin lp_lat) (seed lp_lat)) as [i th].
    cbn [fst snd] in Hbwd, Hsnd. subst i th. reflexivity.
Qed.


End Eck4Claims.

(** ** The round trip, where it holds *)

Section RoundTrip.
Context {MA : MeridianArc}.


End RoundTrip.



(** * Part III: further properties of the code *)

(** ** Cassini: further properties *)

Section CassMore.
Context {MA : MeridianArc}.
Import Cass.

(** X1. On the sphere the Cassini forward map undoes the inverse: for
    [|x| < pi/2] and [|y + phi0| < pi/2], projecting the longitude and
    latitude that [s_inv] returns gives [(x, y)] back. *)
Theorem cass_s_fwd_after_inv (par : parameters) (xy_x xy_y : R) :
  - (PI / 2) < xy_x < PI / 2 ->
  - (PI / 2) < xy_y + phi0 par < PI / 2 ->
  s_fwd par (fst (s_inv par xy_x xy_y)) (snd (s_inv par xy_x xy_y))
  = (xy_x, xy_y).
Proof.
  intros Hx Hdd.
  set (par0 := mk_parameters (a par) (es par) 0 (lam0 par) (params par)).
  pose proof (cass_s_round_trip par0 (xy_y + phi0 par) xy_x Hdd Hx) as H.
  cbv zeta in H. unfold s_fwd, s_inv in H. cbn [fst snd phi0 par0] in H.
  rewrite Rminus_0_r, Rplus_0_r in H.
  injection H as Hlon Hlat.
  unfold s_fwd, s_inv. cbn [fst snd].
  rewrite (Rmult_comm (sin (xy_y + phi0 par)) (cos xy_x)).
  rewrite Hlon.
  rewrite (Rmult_comm (cos (asin (cos xy_x * sin (xy_y + phi0 par))))
             (sin (atan2 (tan xy_x) (cos (xy_y + phi0 par))))).
  rewrite Hlat. f_equal. ring.
Qed.

(** X2. Cassini is symmetric about the central meridian: negating the
    longitude negates [x] and keeps [y], for the spherical and the
    ellipsoidal forward map, and negating [x] negates the longitude and
    keeps the latitude for the ellipsoidal inverse. *)
Theorem cass_central_meridian_symmetry (par : parameters) (pp : par_cass)
    (lp_lon lp_lat xy_x xy_y : R) :
  s_fwd par (- lp_lon) lp_lat
  = (- fst (s_fwd par lp_lon lp_lat), snd (s_fwd par lp_lon lp_lat)) /\
  e_fwd par pp (- lp_lon) lp_lat
  = (- fst (e_fwd par pp lp_lon lp_lat), snd (e_fwd par pp lp_lon lp_lat)) /\
  e_inv par pp (- xy_x) xy_y
  = (- fst (e_inv par pp xy_x xy_y), snd (e_inv par pp xy_x xy_y)).
Proof.
  split; [| split].
  - unfold s_fwd. cbn [fst snd]. rewrite sin_neg, cos_neg.
    replace (cos lp_lat * - sin lp_lon) with (- (cos lp_lat * sin lp_lon)) by ring.
    rewrite asin_opp. reflexivity.
  - unfold e_fwd. cbn [fst snd]. f_equal; ring.
  - unfold e_inv. cbn [fst snd]. f_equal; unfold Rdiv; ring.
Qed.

(** X3. On the ellipsoid the central meridian is mapped true to scale,
    [(0, lat)] going to [(0, pj_mlfn(lat) - m0)], and the inverse
    recovers its points wherever [pj_inv_mlfn] inverts [pj_mlfn] (the
    hypotheses [es < 1] and [cos lat <> 0] are those under which the
    divisions of the code have a non-zero divisor). *)
Theorem cass_e_central_meridian (par : parameters) (pp : par_cass) (lp_lat : R) :
  es par < 1 ->
  cos lp_lat <> 0 ->
  pj_inv_mlfn (pj_mlfn lp_lat (sin lp_lat) (cos lp_lat) (en pp)) (es par) (en pp)
  = lp_lat ->
  e_fwd par pp 0 lp_lat
  = (0, pj_mlfn lp_lat (sin lp_lat) (cos lp_lat) (en pp) - m0 pp) /\
  e_inv par pp (fst (e_fwd par pp 0 lp_lat)) (snd (e_fwd par pp 0 lp_lat))
  = (0, lp_lat).
Proof.
  intros _ _ Hinv.
  assert (Hfwd : e_fwd par pp 0 lp_lat
                 = (0, pj_mlfn lp_lat (sin lp_lat) (cos lp_lat) (en pp) - m0 pp)).
  { unfold e_fwd. f_equal; ring. }
  split; [exact Hfwd |].
  rewrite Hfwd. cbn [fst snd]. unfold e_inv.
  replace (m0 pp + (pj_mlfn lp_lat (sin lp_lat) (cos lp_lat) (en pp) - m0 pp))
    with (pj_mlfn lp_lat (sin lp_lat) (cos lp_lat) (en pp)) by ring.
  rewrite Hinv. f_equal; unfold Rdiv; ring.
Qed.

(** X4. [setup_cass] can only fail with code 0, and does so exactly on an
    ellipsoid ([es <> 0]) whose meridian-arc coefficients [pj_enfn]
    cannot make; on a sphere it leaves the constant block untouched; on
    an ellipsoid a block it returns holds those coefficients and
    [m0 = pj_mlfn(phi0)]. *)
Theorem setup_cass_outcomes (par : parameters) (proj_parm : par_cass) :
  (forall code, setup_cass par proj_parm = proj_exception code -> code = 0%Z) /\
  (setup_cass par proj_parm = proj_exception 0
   <-> es par <> 0 /\ pj_enfn (es par) = None) /\
  (es par = 0 -> setup_cass par proj_parm = Ok proj_parm) /\
  (forall pp, es par <> 0 -> setup_cass par proj_parm = Ok pp ->
     pj_enfn (es par) = Some (en pp) /\
     m0 pp = pj_mlfn (phi0 par) (sin (phi0 par)) (cos (phi0 par)) (en pp)).
Proof.
  unfold setup_cass.
  destruct (Req_dec_T (es par) 0) as [Hes | Hes].
  - rewrite (Rneb_false _ _ Hes).
    split; [intros code H; discriminate H |].
    split; [split; [intros H; discriminate H | intros [H _]; contradiction] |].
    split; [reflexivity | intros pp H; contradiction].
  - rewrite (Rneb_true _ _ Hes).
    destruct (pj_enfn (es par)) as [en0 |].
    + split; [intros code H; discriminate H |].
      split; [split; [intros H; discriminate H | intros [_ H]; discriminate H] |].
      split; [intros H; contradiction |].
      intros pp _ [= <-]. split; reflexivity.
    + split; [intros code [= <-]; reflexivity |].
      split; [split; [intros _; split; [exact Hes | reflexivity] | reflexivity] |].
      split; [intros H; contradiction | intros pp _ H; discriminate H].
Qed.

End CassMore.

(** ** Eckert IV: further properties *)

Section Eck4More.
Import Eck4.

Lemma newton_V_odd (p th : R) : newton_V (- p) (- th) = - newton_V p th.
Proof.
  unfold newton_V. rewrite sin_neg, cos_neg.
  replace (- th + - sin th * (cos th + 2) - - p)
    with (- (th + sin th * (cos th + 2) - p)) by ring.
  replace (- sin th * - sin th) with (sin th * sin th) by ring.
  unfold Rdiv. ring.
Qed.

Lemma newton_odd (i : nat) (p th : R) :
  newton i (- p) (- th)
  = (fst (newton i p th), - snd (newton i p th)).
Proof.
  revert th. induction i as [| i IH]; intros th; [reflexivity |].
  cbn [newton]. rewrite newton_V_odd.
  unfold fabs. rewrite Rabs_Ropp.
  destruct (Rabs (newton_V p th) <? EPS).
  - cbn [fst snd]. f_equal. ring.
  - replace (- th - - newton_V p th) with (- (th - newton_V p th)) by ring.
    apply IH.
Qed.

Lemma seed_odd (lp_lat : R) : seed (- lp_lat) = - seed lp_lat.
Proof. unfold seed. ring. Qed.

(** X5. The Eckert IV forward map is odd in the latitude, [y] changing
    sign and [x] staying, unless the iteration used up its budget at an
    angle of exactly zero; in particular at the south pole it takes the
    fallback and returns [(C_x * lon, -C_y)]. *)
Theorem eck4_fwd_odd_in_latitude (lp_lon lp_lat : R) :
  (fst (newton NITER (C_p * sin lp_lat) (seed lp_lat)) <> O \/
   snd (newton NITER (C_p * sin lp_lat) (seed lp_lat)) <> 0 ->
   s_fwd lp_lon (- lp_lat)
   = (fst (s_fwd lp_lon lp_lat), - snd (s_fwd lp_lon lp_lat))) /\
  s_fwd lp_lon (- (PI / 2)) = (C_x * lp_lon, - C_y).
Proof.
  assert (Hodd : forall lat,
            fst (newton NITER (C_p * sin lat) (seed lat)) <> O \/
            snd (newton NITER (C_p * sin lat) (seed lat)) <> 0 ->
            s_fwd lp_lon (- lat)
            = (fst (s_fwd lp_lon lat), - snd (s_fwd lp_lon lat))).
  { intros lat Hcase. rewrite !s_fwd_unfold.
    rewrite sin_neg, seed_odd.
    replace (C_p * - sin lat) with (- (C_p * sin lat)) by ring.
    rewrite newton_odd.
    destruct (newton NITER (C_p * sin lat) (seed lat)) as [[| i] th];
      cbn [fst snd] in *.
    - destruct Hcase as [H | Hth]; [contradiction |].
      f_equal. cmp_cases; lra.
    - rewrite cos_neg, sin_neg. f_equal. ring. }
  split; [apply Hodd |].
  pose proof PI_bounds as Hpi.
  assert (Hlat : PI / 2 - 1e-8 <= PI / 2 <= PI / 2) by lra.
  pose proof (seed_near_pole (PI / 2) Hlat) as Hseed.
  pose proof (p_near_pole (PI / 2) Hlat) as Hp.
  destruct (newton_near_pole NITER (C_p * sin (PI / 2)) (seed (PI / 2)) Hp)
    as (th & Hnewton & Hth).
  - lra.
  - unfold NITER. cbn [pow]. lra.
  - rewrite Hodd.
    + rewrite s_fwd_unfold, Hnewton. cbn [fst snd].
      rewrite Rltb_false by lra. reflexivity.
    + right. rewrite Hnewton. cbn [snd]. lra.
Qed.

(** The left-hand side of the equation that the forward map solves is
    bounded by its value at the pole. *)
Lemma eck4_equation_bound (th : R) :
  - (PI / 2) <= th <= PI / 2 ->
  Rabs (th + sin th * (cos th + 2)) <= PI / 2 + 2.
Proof.
  intros Hth. pose proof PI_RGT_0 as Hpi.
  assert (Hup : forall t, - (PI / 2) <= t <= PI / 2 ->
            t + sin t * (cos t + 2) <= PI / 2 + 2).
  { intros t Ht.
    set (e := PI / 2 - t).
    replace t with (PI / 2 - e) by (unfold e; ring).
    rewrite sin_shift, cos_shift.
    assert (He : 0 <= e <= PI) by (unfold e; lra).
    pose proof (COS_bound e) as Hc.
    assert (Hs : 0 <= sin e) by (apply sin_ge_0; lra).
    assert (Hse : sin e <= e).
    { destruct (proj1 He) as [Hpos | <-]; [| rewrite sin_0; lra].
      left. apply sin_lt_x. exact Hpos. }
    assert (Hprod : cos e * sin e <= e) by nra.
    nra. }
  apply Rabs_le. split.
  - pose proof (Hup (- th) ltac:(lra)) as H.
    rewrite sin_neg, cos_neg in H. lra.
  - apply Hup. exact Hth.
Qed.

Lemma aasin_range (v lat : R) :
  aasin v = Ok lat -> - (PI / 2) <= lat <= PI / 2.
Proof.
  pose proof PI_RGT_0 as Hpi.
  unfold aasin, half_pi.
  destruct (fabs v >=? 1).
  - destruct (fabs v >? ONE_TOL); [discriminate |].
    destruct (v <? 0); intros [= <-]; lra.
  - intros [= <-]. apply asin_bound.
Qed.

(** X6. The Eckert IV inverse fails, with code -19, exactly when
    [|y / C_y|] exceeds [ONE_TOL]; for every other input it returns a
    result, whose latitude lies between the poles: the second [aasin]
    can never fail. *)
Theorem eck4_inv_outcomes (xy_x xy_y : R) :
  (s_inv xy_x xy_y = proj_exception (-19) <-> ONE_TOL < Rabs (xy_y / C_y)) /\
  (Rabs (xy_y / C_y) <= ONE_TOL ->
   exists lp_lon lp_lat,
     s_inv xy_x xy_y = Ok (lp_lon, lp_lat) /\
     - (PI / 2) <= lp_lat <= PI / 2).
Proof.
  pose proof PI_bounds as Hpi.
  assert (Hok : Rabs (xy_y / C_y) <= ONE_TOL ->
            exists lp_lon lp_lat,
              s_inv xy_x xy_y = Ok (lp_lon, lp_lat) /\
              - (PI / 2) <= lp_lat <= PI / 2).
  { intros Hy. unfold s_inv.
    assert (H1 : exists th, aasin (xy_y / C_y) = Ok th).
    { unfold aasin, fabs. destruct (Rabs (xy_y / C_y) >=? 1); [| eauto].
      rewrite Rgtb_false by exact Hy. eauto. }
    destruct H1 as [th Hth]. rewrite Hth. cbn [bind].
    pose proof (aasin_range _ _ Hth) as Hrange.
    pose proof (eck4_equation_bound th Hrange) as Hg.
    set (g := th + sin th * (cos th + 2)) in *.
    assert (Hv : Rabs (g / C_p) <= ONE_TOL).
    { unfold Rdiv. rewrite Rabs_mult.
      rewrite (Rabs_pos_eq (/ C_p)) by (unfold C_p; lra).
      apply Rmult_le_reg_r with C_p; [unfold C_p; lra |].
      replace (Rabs g * / C_p * C_p) with (Rabs g) by (unfold C_p; field; lra).
      unfold ONE_TOL, C_p. lra. }
    assert (H2 : exists lat, aasin (g / C_p) = Ok lat).
    { unfold aasin, fabs. destruct (Rabs (g / C_p) >=? 1); [| eauto].
      rewrite Rgtb_false by exact Hv. eauto. }
    destruct H2 as [lat Hlat]. rewrite Hlat. cbn [bind].
    exists (xy_x / (C_x * (1 + cos th))), lat.
    split; [reflexivity | apply (aasin_range _ _ Hlat)]. }
  split; [| exact Hok].
  split.
  - intros Hexc.
    destruct (Rlt_dec ONE_TOL (Rabs (xy_y / C_y))) as [H | H]; [exact H |].
    destruct (Hok ltac:(lra)) as (lon & lat & E & _).
    rewrite E in Hexc. discriminate Hexc.
  - intros Hy. unfold s_inv, aasin, fabs.
    rewrite Rgeb_true by (unfold ONE_TOL in Hy; lra).
    rewrite Rgtb_true by exact Hy. reflexivity.
Qed.

End Eck4More.

(** ** [atan2] as the angle of a point *)

Lemma hypot_pos (x y : R) : x <> 0 \/ y <> 0 -> 0 < hypot x y.
Proof.
  intros H. unfold hypot. apply sqrt_lt_R0.
  destruct H as [H | H]; nra.
Qed.

Lemma hypot_sqr (x y : R) : hypot x y * hypot x y = x * x + y * y.
Proof. unfold hypot. apply sqrt_sqrt. nra. Qed.

(** A point other than the origin is its distance times the cosine and
    sine of its [atan2]. *)
Lemma atan2_sin_cos (y x : R) :
  x <> 0 \/ y <> 0 ->
  hypot x y * cos (atan2 y x) = x /\ hypot x y * sin (atan2 y x) = y.
Proof.
  intros Hxy. pose proof (hypot_pos x y Hxy) as Hh.
  pose proof (hypot_sqr x y) as Hh2.
  set (h := hypot x y) in *.
  assert (Hmain : forall u, x <> 0 -> u = y / x ->
            sqrt (1 + u²) = h / Rabs x).
  { intros u Hx ->. apply sqrt_lem_1.
    - unfold Rsqr. nra.
    - apply Rmult_le_pos; [lra |]. left. apply Rinv_0_lt_compat.
      apply Rabs_pos_lt. exact Hx.
    - replace (h / Rabs x * (h / Rabs x)) with (h * h / (Rabs x * Rabs x))
        by (field; apply Rabs_no_R0; exact Hx).
      replace (Rabs x * Rabs x) with (x * x)
        by (unfold Rabs; destruct (Rcase_abs x); ring).
      rewrite Hh2. unfold Rsqr. field. exact Hx. }
  unfold atan2.
  destruct (Rtotal_order x 0) as [Hneg | [Hzero | Hpos]].
  - rewrite Rgtb_false, Rltb_true by lra.
    pose proof (Hmain (y / x) ltac:(lra) eq_refl) as Hs.
    rewrite Rabs_left in Hs by exact Hneg.
    assert (Hc : cos (atan (y / x)) = - x / h).
    { rewrite cos_atan, Hs. field. lra. }
    assert (Hsn : sin (atan (y / x)) = - y / h).
    { rewrite sin_atan, Hs. field. lra. }
    destruct (y >=? 0).
    + rewrite neg_cos, neg_sin, Hc, Hsn. split; field; lra.
    + replace (atan (y / x) - PI) with (- (- atan (y / x) + PI)) by ring.
      rewrite cos_neg, sin_neg, neg_cos, neg_sin, cos_neg, sin_neg, Hc, Hsn.
      split; field; lra.
  - subst x. rewrite Rgtb_false, Rltb_false by lra.
    assert (Hy : y <> 0) by (destruct Hxy; [lra | assumption]).
    assert (Habs : h = Rabs y).
    { unfold h, hypot. replace (0 * 0 + y * y) with (y²) by (unfold Rsqr; ring).
      apply sqrt_Rsqr_abs. }
    destruct (Rtotal_order y 0) as [Hyn | [Hyz | Hyp]]; [| contradiction |].
    + rewrite Rgtb_false, Rltb_true by lra.
      rewrite cos_neg, sin_neg, cos_PI2, sin_PI2.
      rewrite Habs, Rabs_left by exact Hyn. split; ring.
    + rewrite Rgtb_true by lra.
      rewrite cos_PI2, sin_PI2.
      rewrite Habs, Rabs_pos_eq by lra. split; ring.
  - rewrite Rgtb_true by lra.
    pose proof (Hmain (y / x) ltac:(lra) eq_refl) as Hs.
    rewrite Rabs_pos_eq in Hs by lra.
    rewrite cos_atan, sin_atan, Hs. split; field; lra.
Qed.

Lemma atan2_range (y x : R) : - PI < atan2 y x <= PI.
Proof.
  pose proof PI_RGT_0 as Hpi.
  unfold atan2.
  destruct (Req_dec_T x 0) as [Hx | Hx].
  - subst x. cmp_cases; lra.
  - pose proof (atan_ratio_facts x y Hx) as H. cbv zeta in H.
    destruct H as (Hb & Hp & Hn & _).
    cmp_cases; try lra.
    + assert (Hyx : y * x <= 0) by nra. specialize (Hn Hyx). lra.
    + assert (Hq : 0 < y / x).
      { replace (y / x) with (- y * / - x) by (field; lra).
        apply Rmult_lt_0_compat; [lra |]. apply Rinv_0_lt_compat. lra. }
      pose proof (atan_increasing 0 (y / x) Hq) as Hinc.
      rewrite atan_0 in Hinc. lra.
Qed.

(** ** Equidistant Conic: further properties *)

Section EqdcMore.
Import Eqdc EqdcTerms.
Context {MA : MeridianArc}.

Local Abbreviation lat_1 par := (pj_param (params par) "rlat_1").
Local Abbreviation lat_2 par := (pj_param (params par) "rlat_2").

(** X7. The Equidistant Conic forward map sends a parallel onto a circle
    about the apex [(0, rho0)]: the distance of the image from the apex is
    [|c - arc(lat)|], whatever the longitude. *)
Theorem eqdc_parallels_are_circles (pp : par_eqdc) (lp_lon lp_lat : R) :
  hypot (fst (fwd pp lp_lon lp_lat)) (rho0 pp - snd (fwd pp lp_lon lp_lat))
  = Rabs (c pp - arc pp lp_lat).
Proof.
  unfold fwd. cbn [fst snd]. fold (arc pp lp_lat).
  replace (rho0 pp - (rho0 pp - (c pp - arc pp lp_lat) * cos (lp_lon * n pp)))
    with ((c pp - arc pp lp_lat) * cos (lp_lon * n pp)) by ring.
  apply hypot_polar.
Qed.

(** X8. With the constants of [setup_eqdc], the central meridian is true
    to scale: [(0, lat)] is mapped to [(0, arc(lat) - arc(phi0))]. *)
Theorem eqdc_central_meridian (par : parameters) (pp : par_eqdc) (lp_lat : R) :
  setup_eqdc par = Ok pp ->
  fwd pp 0 lp_lat = (0, arc pp lp_lat - arc pp (phi0 par)).
Proof.
  unfold setup_eqdc.
  destruct (_ <? EPS10); [discriminate |].
  destruct (pj_enfn (es par)) as [en0 |]; [| discriminate].
  destruct (es par >? 0); intros [= <-]; unfold fwd, arc;
    cbn [c ellips en n rho0];
    rewrite Rmult_0_l, sin_0, cos_0; f_equal; ring.
Qed.

(** X9. The standard parallels keep their length: with the constants of
    [setup_eqdc] and a cone constant [n <> 0], the radius of the image of
    [lat_1] times [n] is the radius of that parallel on the globe, and
    the same holds at [lat_2] on a secant cone (when the meridian
    distances of the two parallels differ). *)
Theorem eqdc_standard_parallels_true (par : parameters) (pp : par_eqdc) :
  setup_eqdc par = Ok pp ->
  n pp <> 0 ->
  n pp * (c pp - arc pp (lat_1 par)) = parallel_radius par pp (lat_1 par) /\
  (EPS10 <= Rabs (lat_1 par - lat_2 par) ->
   arc pp (lat_2 par) <> arc pp (lat_1 par) ->
   n pp * (c pp - arc pp (lat_2 par)) = parallel_radius par pp (lat_2 par)).
Proof.
  unfold setup_eqdc.
  destruct (_ <? EPS10); [discriminate |].
  destruct (pj_enfn (es par)) as [en0 |]; [| discriminate].
  destruct (Rle_dec EPS10 (Rabs (lat_1 par - lat_2 par))) as [Hsec | Htan].
  - rewrite (Rgeb_true (fabs (lat_1 par - lat_2 par)) EPS10) by exact Hsec.
    destruct (es par >? 0); intros [= <-]; unfold arc, parallel_radius;
      cbn [n c ellips en]; intros Hn;
      match type of Hn with ?q <> 0 => set (nv := q) in * end;
      (split; [field; exact Hn | intros _ Hne]).
    + assert (Hq : nv * (pj_mlfn (lat_2 par) (sin (lat_2 par)) (cos (lat_2 par)) en0
                         - pj_mlfn (lat_1 par) (sin (lat_1 par)) (cos (lat_1 par)) en0)
                   = pj_msfn (sin (lat_1 par)) (cos (lat_1 par)) (es par)
                     - pj_msfn (sin (lat_2 par)) (cos (lat_2 par)) (es par))
        by (unfold nv; field; lra).
      match goal with
      | |- nv * (?ml1 + ?m1 / nv - ?ml2) = _ =>
          replace (nv * (ml1 + m1 / nv - ml2)) with (m1 - nv * (ml2 - ml1))
            by (field; exact Hn)
      end.
      rewrite Hq. ring.
    + assert (Hq : nv * (lat_2 par - lat_1 par)
                   = cos (lat_1 par) - cos (lat_2 par))
        by (unfold nv; field; lra).
      match goal with
      | |- nv * (?ml1 + ?m1 / nv - ?ml2) = _ =>
          replace (nv * (ml1 + m1 / nv - ml2)) with (m1 - nv * (ml2 - ml1))
            by (field; exact Hn)
      end.
      rewrite Hq. ring.
  - rewrite (Rgeb_false (fabs (lat_1 par - lat_2 par)) EPS10)
      by (unfold fabs; lra).
    destruct (es par >? 0); intros [= <-]; unfold arc, parallel_radius;
      cbn [n c ellips en]; intros Hn; split;
      try (intros Hsec; contradiction); field; exact Hn.
Qed.

Lemma hypot_comm (x y : R) : hypot x y = hypot y x.
Proof. unfold hypot. f_equal. ring. Qed.

Lemma hypot_opp (x y : R) : hypot (- x) (- y) = hypot x y.
Proof. unfold hypot. f_equal. ring. Qed.

(** X10. Away from the apex the Equidistant Conic forward map undoes the
    inverse: for [n <> 0] and [hypot(x, rho0 - y) <> 0], projecting the
    output of [inv] gives [(x, y)] back (on the ellipsoid, provided
    [pj_mlfn] inverts [pj_inv_mlfn]); the sign flip for a negative [n] is
    accounted for. *)
Theorem eqdc_fwd_after_inv (par : parameters) (pp : par_eqdc) (xy_x xy_y : R) :
  n pp <> 0 ->
  hypot xy_x (rho0 pp - xy_y) <> 0 ->
  (ellips pp = true ->
   forall m,
     let phi := pj_inv_mlfn m (es par) (en pp) in
     pj_mlfn phi (sin phi) (cos phi) (en pp) = m) ->
  fwd pp (fst (inv par pp xy_x xy_y)) (snd (inv par pp xy_x xy_y))
  = (xy_x, xy_y).
Proof.
  intros Hn Hrho Harc.
  set (y0 := rho0 pp - xy_y) in *.
  set (h := hypot xy_x y0) in *.
  assert (Hxy : y0 <> 0 \/ xy_x <> 0).
  { destruct (Req_dec_T y0 0) as [Hy | Hy]; [| left; exact Hy].
    destruct (Req_dec_T xy_x 0) as [Hx | Hx]; [| right; exact Hx].
    exfalso. apply Hrho. unfold h. rewrite Hx, Hy. apply hypot_0_0. }
  assert (Hback : forall m,
            arc pp (if ellips pp then pj_inv_mlfn m (es par) (en pp) else m) = m).
  { intros m. unfold arc. destruct (ellips pp) eqn:Hell; [| reflexivity].
    apply (Harc eq_refl m). }
  unfold inv. fold y0. fold h. rewrite Rneb_true by exact Hrho.
  destruct (Rlt_dec (n pp) 0) as [Hneg | Hpos].
  - rewrite Rltb_true by exact Hneg. cbn [fst snd].
    unfold fwd. cbn [fst snd]. fold (arc pp (if ellips pp
        then pj_inv_mlfn (c pp - - h) (es par) (en pp) else c pp - - h)).
    rewrite Hback.
    replace (atan2 (- xy_x) (- y0) / n pp * n pp) with (atan2 (- xy_x) (- y0))
      by (field; exact Hn).
    destruct (atan2_sin_cos (- xy_x) (- y0)) as [Hc Hs]; [lra |].
    rewrite hypot_opp, hypot_comm in Hc, Hs. fold h in Hc, Hs.
    f_equal.
    + replace ((c pp - (c pp - - h)) * sin (atan2 (- xy_x) (- y0)))
        with (- (h * sin (atan2 (- xy_x) (- y0)))) by ring.
      rewrite Hs. ring.
    + replace (rho0 pp - (c pp - (c pp - - h)) * cos (atan2 (- xy_x) (- y0)))
        with (rho0 pp + h * cos (atan2 (- xy_x) (- y0))) by ring.
      rewrite Hc. unfold y0. ring.
  - rewrite Rltb_false by lra. cbn [fst snd].
    unfold fwd. cbn [fst snd]. fold (arc pp (if ellips pp
        then pj_inv_mlfn (c pp - h) (es par) (en pp) else c pp - h)).
    rewrite Hback.
    replace (atan2 xy_x y0 / n pp * n pp) with (atan2 xy_x y0)
      by (field; exact Hn).
    destruct (atan2_sin_cos xy_x y0) as [Hc Hs]; [lra |].
    rewrite hypot_comm in Hc, Hs. fold h in Hc, Hs.
    f_equal.
    + replace ((c pp - (c pp - h)) * sin (atan2 xy_x y0))
        with (h * sin (atan2 xy_x y0)) by ring.
      exact Hs.
    + replace (rho0 pp - (c pp - (c pp - h)) * cos (atan2 xy_x y0))
        with (rho0 pp - h * cos (atan2 xy_x y0)) by ring.
      rewrite Hc. unfold y0. ring.
Qed.

(** X11. [setup_eqdc] fails only with code -21 (parallels with
    [|lat_1 + lat_2| < 1e-10], tested first) or with code 0 (no
    meridian-arc coefficients); a constant block it returns carries the
    two parallels, the coefficients, the flag [es > 0], and
    [rho0 = c - arc(phi0)]. *)
Theorem setup_eqdc_outcomes (par : parameters) :
  (forall code, setup_eqdc par = proj_exception code ->
     code = (-21)%Z \/ code = 0%Z) /\
  (setup_eqdc par = proj_exception (-21)
   <-> Rabs (lat_1 par + lat_2 par) < EPS10) /\
  (setup_eqdc par = proj_exception 0
   <-> EPS10 <= Rabs (lat_1 par + lat_2 par) /\ pj_enfn (es par) = None) /\
  (forall pp, setup_eqdc par = Ok pp ->
     phi1 pp = lat_1 par /\ phi2 pp = lat_2 par /\
     ellips pp = (es par >? 0) /\
     pj_enfn (es par) = Some (en pp) /\
     rho0 pp = c pp - arc pp (phi0 par)).
Proof.
  unfold setup_eqdc, fabs.
  destruct (Rlt_dec (Rabs (lat_1 par + lat_2 par)) EPS10) as [Hanti | Hok].
  - rewrite Rltb_true by exact Hanti.
    split; [intros code [= <-]; left; reflexivity |].
    split; [split; [intros _; exact Hanti | reflexivity] |].
    split; [split; [intros H; discriminate H | intros [H _]; lra] |].
    intros pp H. discriminate H.
  - rewrite Rltb_false by lra.
    destruct (pj_enfn (es par)) as [en0 |].
    + split; [destruct (es par >? 0); intros code H; discriminate H |].
      split; [split; [destruct (es par >? 0); intros H; discriminate H
                     | intros H; lra] |].
      split; [split; [destruct (es par >? 0); intros H; discriminate H
                     | intros [_ H]; discriminate H] |].
      intros pp. unfold arc.
      destruct (es par >? 0); intros [= <-]; cbn; repeat split; reflexivity.
    + split; [intros code [= <-]; right; reflexivity |].
      split; [split; [intros H; discriminate H | intros H; lra] |].
      split; [split; [intros _; split; [lra | reflexivity] | reflexivity] |].
      intros pp H. discriminate H.
Qed.

End EqdcMore.

(** ** QSC: the forward map and the round trip *)

Section QscMore.
Import Qsc QscFwd.

(** X12. [qsc_shift_lon_origin] wraps at most once: its result lies in
    [[-pi, pi]] exactly when [lon + offset] lies in [[-3 pi, 3 pi]]; it
    always has the sine and cosine of [lon + offset]; and for
    [-pi < lon < pi] and [|offset| <= pi] shifting back by [-offset]
    returns [lon]. *)
Theorem qsc_shift_lon_origin_wraps_once (lon offset : R) :
  (- PI <= qsc_shift_lon_origin lon offset <= PI <->
   - (3 * PI) <= lon + offset <= 3 * PI) /\
  sin (qsc_shift_lon_origin lon offset) = sin (lon + offset) /\
  cos (qsc_shift_lon_origin lon offset) = cos (lon + offset) /\
  (- PI < lon < PI -> - PI <= offset <= PI ->
   qsc_shift_lon_origin (qsc_shift_lon_origin lon offset) (- offset) = lon).
Proof.
  pose proof PI_RGT_0 as Hpi.
  split; [| split; [| split]].
  - unfold qsc_shift_lon_origin, pi, two_pi. cmp_cases; lra.
  - unfold qsc_shift_lon_origin, pi, two_pi. cmp_cases; try reflexivity.
    + replace (lon + offset + 2 * PI) with (lon + offset + 2 * 1 * PI) by ring.
      apply (sin_period _ 1%nat).
    + replace (lon + offset - 2 * PI) with (lon + offset - 2 * 1 * PI) by ring.
      rewrite <- (sin_period (lon + offset - 2 * 1 * PI) 1%nat).
      f_equal. simpl. ring.
  - unfold qsc_shift_lon_origin, pi, two_pi. cmp_cases; try reflexivity.
    + replace (lon + offset + 2 * PI) with (lon + offset + 2 * 1 * PI) by ring.
      apply (cos_period _ 1%nat).
    + replace (lon + offset - 2 * PI) with (lon + offset - 2 * 1 * PI) by ring.
      rewrite <- (cos_period (lon + offset - 2 * 1 * PI) 1%nat).
      f_equal. simpl. ring.
  - intros Hlon Hoff. unfold qsc_shift_lon_origin, pi, two_pi.
    cmp_cases; lra.
Qed.

(** X13. [qsc_fwd_equat_face_theta] returns an angle in the area of
    definition, [[-pi/4, pi/4]], for every input; and for
    [phi >= EPS10] that angle, turned by the quarter turns of the area it
    reports, is [atan2(y, x)] up to a full turn. *)
Theorem qsc_fwd_equat_face_theta_range (phi y x : R) :
  let theta := fst (qsc_fwd_equat_face_theta phi y x) in
  let area := snd (qsc_fwd_equat_face_theta phi y x) in
  - (PI / 4) <= theta <= PI / 4 /\
  (EPS10 <= phi ->
   exists k : Z,
     fwd_rotate_mu area theta = atan2 y x + 2 * IZR k * PI /\
     (0 <= k <= 1)%Z).
Proof.
  pose proof PI_RGT_0 as Hpi.
  pose proof (atan2_range y x) as Hr.
  cbv zeta. split.
  - unfold qsc_fwd_equat_face_theta, FORTPI, half_pi, pi.
    cmp_cases; cbn [fst]; abs_cases; lra.
  - intros Hphi. unfold qsc_fwd_equat_face_theta.
    rewrite Rltb_false by lra. unfold FORTPI, half_pi, pi.
    cmp_cases; cbn [fst snd fwd_rotate_mu]; unfold half_pi, pi; abs_cases;
      try (exists 0%Z; split; [lra | lia]);
      try (exists 1%Z; split; [lra | lia]); lra.
Qed.

End QscMore.

Section QscCore.
Import Qsc QscFwd.

Lemma sin_PI12_pos : 0 < sin (PI / 12).
Proof. pose proof PI_RGT_0. apply sin_gt_0; lra. Qed.

Lemma cos_PI12_minus : cos (PI / 12) - 1 / sqrt 2 = sin (PI / 12).
Proof.
  rewrite <- cos_PI4. rewrite form2.
  replace ((PI / 12 - PI / 4) / 2) with (- (PI / 12)) by field.
  replace ((PI / 12 + PI / 4) / 2) with (PI / 6) by field.
  rewrite sin_neg, sin_PI6. field.
Qed.

Lemma sin_cos_quarter (theta : R) :
  - (PI / 4) <= theta <= PI / 4 ->
  1 / sqrt 2 <= cos theta /\
  - (1 / sqrt 2) <= sin theta <= 1 / sqrt 2 /\
  (- (PI / 4) < theta -> - (1 / sqrt 2) < sin theta) /\
  (theta < PI / 4 -> sin theta < 1 / sqrt 2).
Proof.
  intros Ht. pose proof PI_RGT_0 as Hpi.
  rewrite <- cos_PI4 at 1. rewrite <- sin_PI4.
  repeat split.
  - destruct (Rle_dec 0 theta).
    + apply cos_decr_1; lra.
    + rewrite <- (cos_neg theta). apply cos_decr_1; lra.
  - rewrite <- sin_neg. apply sin_incr_1; lra.
  - apply sin_incr_1; lra.
  - intros H. rewrite <- sin_neg. apply sin_increasing_1; lra.
  - intros H. apply sin_increasing_1; lra.
Qed.

(** The argument of the arc tangent that gives [mu] in the forward map
    stays within a twelfth of pi of zero on the area of definition. *)
Lemma fwd_mu_argument_range (theta : R) :
  - (PI / 4) <= theta <= PI / 4 ->
  let T := theta + acos (sin theta * cos FORTPI) - half_pi in
  - (PI / 12) <= T <= PI / 12 /\
  (- (PI / 4) < theta -> - (PI / 12) < T) /\
  (theta < PI / 4 -> T < PI / 12).
Proof.
  intros Ht T. pose proof PI_RGT_0 as Hpi.
  destruct (sin_cos_quarter theta Ht) as (Hc & Hs & Hslo & Hshi).
  pose proof sin_PI12_pos as H15. pose proof cos_PI12_minus as E15.
  assert (Hq : 0 < 1 / sqrt 2 < 1).
  { rewrite <- cos_PI4. split; [apply cos_gt_0; lra |].
    rewrite <- cos_0. apply cos_decreasing_1; lra. }
  set (v := sin theta * cos FORTPI) in *.
  assert (Ev : v = sin theta * (1 / sqrt 2)).
  { unfold v, FORTPI. rewrite cos_PI4. reflexivity. }
  assert (Hv : -1 <= v <= 1) by (rewrite Ev; split; nra).
  pose proof (acos_bound v) as Ha. pose proof (cos_acos v Hv) as Eca.
  set (alpha := acos v) in *.
  assert (Eb : cos (PI / 2 + PI / 12 - theta)
               = - sin (PI / 12) * cos theta + cos (PI / 12) * sin theta).
  { rewrite cos_minus.
    replace (cos (PI / 2 + PI / 12)) with (- sin (PI / 12))
      by (rewrite (sin_cos (PI / 12)); ring).
    rewrite <- (cos_sin (PI / 12)). ring. }
  assert (Eg : cos (PI / 2 - PI / 12 - theta)
               = sin (PI / 12) * cos theta + cos (PI / 12) * sin theta).
  { rewrite cos_minus. rewrite cos_shift, sin_shift. ring. }
  assert (Dhi : v - cos (PI / 2 + PI / 12 - theta)
                = sin (PI / 12) * (cos theta - sin theta)).
  { rewrite Eb, Ev, <- E15. ring. }
  assert (Dlo : cos (PI / 2 - PI / 12 - theta) - v
                = sin (PI / 12) * (cos theta + sin theta)).
  { rewrite Eg, Ev, <- E15. ring. }
  unfold T, half_pi.
  assert (Hhi : alpha <= PI / 2 + PI / 12 - theta).
  { apply cos_decr_0; try lra. rewrite Eca. nra. }
  assert (Hlo : PI / 2 - PI / 12 - theta <= alpha).
  { apply cos_decr_0; try lra. rewrite Eca. nra. }
  split; [lra |]. split.
  - intros H. specialize (Hslo H).
    assert (PI / 2 - PI / 12 - theta < alpha); [| lra].
    apply cos_decreasing_0; try lra. rewrite Eca. nra.
  - intros H. specialize (Hshi H).
    assert (alpha < PI / 2 + PI / 12 - theta); [| lra].
    apply cos_decreasing_0; try lra. rewrite Eca. nra.
Qed.

(** The inverse's ratio gives back the tangent of [theta]. *)
Lemma inv_tantheta_of_fwd (theta : R) :
  - (PI / 4) <= theta <= PI / 4 ->
  let T := theta + acos (sin theta * cos FORTPI) - half_pi in
  0 < cos T - 1 / sqrt 2 /\
  sin T / (cos T - 1 / sqrt 2) = tan theta.
Proof.
  intros Ht T. pose proof PI_RGT_0 as Hpi.
  destruct (fwd_mu_argument_range theta Ht) as (HT & _ & _).
  fold T in HT.
  destruct (sin_cos_quarter theta Ht) as (Hc & Hs & _ & _).
  assert (Hq : 0 < 1 / sqrt 2 < 1).
  { rewrite <- cos_PI4. split; [apply cos_gt_0; lra |].
    rewrite <- cos_0. apply cos_decreasing_1; lra. }
  assert (Hden : 0 < cos T - 1 / sqrt 2).
  { rewrite <- cos_PI4. apply Rlt_0_minus.
    destruct (Rle_dec 0 T).
    - apply cos_decreasing_1; lra.
    - rewrite <- (cos_neg T). apply cos_decreasing_1; lra. }
  split; [exact Hden |].
  set (v := sin theta * cos FORTPI) in *.
  assert (Ev : v = sin theta * (1 / sqrt 2)).
  { unfold v, FORTPI. rewrite cos_PI4. reflexivity. }
  assert (Hv : -1 <= v <= 1) by (rewrite Ev; split; nra).
  pose proof (cos_acos v Hv) as Eca.
  assert (EsT : sin T = sin theta * sin (acos v) - cos theta * v).
  { unfold T, half_pi.
    replace (theta + acos v - PI / 2) with (- (PI / 2 - (theta + acos v)))
      by ring.
    rewrite sin_neg, sin_shift, cos_plus, Eca. ring. }
  assert (EcT : cos T = sin theta * v + cos theta * sin (acos v)).
  { unfold T, half_pi.
    replace (theta + acos v - PI / 2) with (- (PI / 2 - (theta + acos v)))
      by ring.
    rewrite cos_neg, cos_shift, sin_plus, Eca. ring. }
  unfold tan. rewrite Ev in EsT, EcT.
  set (q := 1 / sqrt 2) in *.
  apply (Rmult_eq_reg_r ((cos T - q) * cos theta)); [| nra].
  transitivity (sin T * cos theta); [field; lra |].
  transitivity (sin theta * (cos T - q)); [| field; lra].
  rewrite EsT, EcT.
  pose proof (sin2_cos2 theta) as Hsc. unfold Rsqr in Hsc.
  apply Rminus_diag_uniq.
  match goal with
  | |- ?l - ?r = 0 =>
      transitivity
        (sin theta * q * (1 - (sin theta * sin theta + cos theta * cos theta)));
      [ring | rewrite Hsc; ring]
  end.
Qed.


Lemma sec_theta_facts (theta : R) :
  - (PI / 2) < theta < PI / 2 ->
  0 < cos theta /\ 0 < 1 - cos (atan (1 / cos theta)).
Proof.
  intros Ht. pose proof PI_RGT_0 as Hpi.
  assert (Hc : 0 < cos theta) by (apply cos_gt_0; lra).
  split; [exact Hc |].
  assert (Hq : 0 < 1 / cos theta) by (apply Rdiv_lt_0_compat; lra).
  pose proof (atan_bound (1 / cos theta)) as Hb.
  assert (H0 : 0 < atan (1 / cos theta)).
  { rewrite <- atan_0. apply atan_increasing. exact Hq. }
  rewrite <- cos_0 at 1. apply Rlt_0_minus.
  apply cos_decreasing_1; lra.
Qed.

Lemma fwd_area_of_definition_some (phi theta : R) (area : area_t) :
  - (PI / 2) < theta < PI / 2 ->
  let mu := atan (12 / pi * (theta + acos (sin theta * cos FORTPI) - half_pi)) in
  let t := sqrt ((1 - cos phi) / (cos mu * cos mu)
                 / (1 - cos (atan (1 / cos theta)))) in
  fwd_area_of_definition phi theta area
  = Some (t * cos (fwd_rotate_mu area mu), t * sin (fwd_rotate_mu area mu)) /\
  0 < cos mu /\
  t * t = (1 - cos phi) / (cos mu * cos mu) / (1 - cos (atan (1 / cos theta))) /\
  0 <= t /\ (cos phi < 1 -> 0 < t).
Proof.
  intros Ht mu t. pose proof PI_RGT_0 as Hpi.
  destruct (sec_theta_facts theta Ht) as [Hc Hd].
  assert (Hq : 0 < 1 / sqrt 2 < 1).
  { rewrite <- cos_PI4. split; [apply cos_gt_0; lra |].
    rewrite <- cos_0. apply cos_decreasing_1; lra. }
  assert (Hv : -1 <= sin theta * cos FORTPI <= 1).
  { unfold FORTPI. rewrite cos_PI4. pose proof (SIN_bound theta).
    split; nra. }
  assert (Hcm : 0 < cos mu).
  { pose proof (atan_bound
                  (12 / pi * (theta + acos (sin theta * cos FORTPI) - half_pi))).
    apply cos_gt_0; unfold mu; lra. }
  assert (Hphi : 0 <= 1 - cos phi) by (pose proof (COS_bound phi); lra).
  assert (Hcm2 : 0 < cos mu * cos mu) by nra.
  assert (Hu : 0 <= (1 - cos phi) / (cos mu * cos mu)).
  { apply Rmult_le_pos; [lra |]. left. apply Rinv_0_lt_compat. exact Hcm2. }
  assert (Hw : 0 <= (1 - cos phi) / (cos mu * cos mu)
                    / (1 - cos (atan (1 / cos theta)))).
  { apply Rmult_le_pos; [exact Hu |]. left. apply Rinv_0_lt_compat. exact Hd. }
  split; [| split; [exact Hcm | split; [| split]]].
  - unfold fwd_area_of_definition.
    rewrite acos_c_some by exact Hv. cbn [obind].
    rewrite (div_c_some 1 (cos theta)) by lra. cbn [obind].
    fold mu.
    rewrite (div_c_some (1 - cos phi)) by lra. cbn [obind].
    rewrite div_c_some by lra. cbn [obind].
    rewrite sqrt_c_some by exact Hw. cbn [obind].
    reflexivity.
  - unfold t. apply sqrt_sqrt. exact Hw.
  - apply sqrt_pos.
  - intros Hlt. unfold t. apply sqrt_lt_R0.
    apply Rmult_lt_0_compat; [| apply Rinv_0_lt_compat; exact Hd].
    apply Rmult_lt_0_compat; [lra | apply Rinv_0_lt_compat; exact Hcm2].
Qed.

Lemma sin_atan_cos (tau : R) :
  0 < cos (atan tau) /\ sin (atan tau) = tau * cos (atan tau).
Proof.
  pose proof (atan_bound tau) as Hb.
  assert (Hc : 0 < cos (atan tau)) by (apply cos_gt_0; lra).
  split; [exact Hc |].
  pose proof (tan_atan tau) as E. unfold tan in E.
  rewrite <- E at 2. field. lra.
Qed.

(** The inverse finds the area the forward map has turned the point
    into, and the forward map's [mu]. *)
Lemma inv_area_of_fwd (t tau : R) (area : area_t) :
  0 < t -> -1 <= tau <= 1 ->
  (area <> AREA_0 -> -1 < tau) ->
  (area = AREA_3 -> tau < 1) ->
  let mu' := fwd_rotate_mu area (atan tau) in
  inv_area (t * cos mu') (t * sin mu') (atan2 (t * sin mu') (t * cos mu'))
  = (area, atan tau).
Proof.
  intros Ht Htau Hlo Hhi. pose proof PI_RGT_0 as Hpi.
  destruct (sin_atan_cos tau) as [Hc Es].
  pose proof (atan_bound tau) as Hb.
  assert (Hq : - (PI / 4) <= atan tau <= PI / 4).
  { split; [apply atan_ge_mPI4 | apply atan_le_PI4]; lra. }
  set (mu := atan tau) in *.
  assert (Htc : 0 < t * cos mu) by (apply Rmult_lt_0_compat; assumption).
  assert (Hp : - (t * cos mu) <= tau * (t * cos mu) <= t * cos mu)
    by (split; nra).
  assert (Hplo : -1 < tau -> - (t * cos mu) < tau * (t * cos mu))
    by (intros; nra).
  assert (Hphi : tau < 1 -> tau * (t * cos mu) < t * cos mu)
    by (intros; nra).
  destruct area; cbn [fwd_rotate_mu]; cbv zeta.
  - (* AREA_0 *)
    rewrite atan2_polar by lra.
    unfold inv_area. rewrite Es.
    replace (t * (tau * cos mu)) with (tau * (t * cos mu)) by ring.
    set (k := t * cos mu) in *. set (p := tau * k) in *.
    rewrite (Rgeb_true k 0) by lra.
    rewrite (Rgeb_true k (fabs p)) by (abs_cases; lra).
    reflexivity.
  - (* AREA_1 *)
    specialize (Hplo (Hlo ltac:(discriminate))).
    rewrite atan2_polar by (unfold half_pi; lra).
    unfold half_pi.
    replace (cos (mu + PI / 2)) with (- sin mu)
      by (rewrite cos_plus, cos_PI2, sin_PI2; ring).
    replace (sin (mu + PI / 2)) with (cos mu)
      by (rewrite sin_plus, cos_PI2, sin_PI2; ring).
    unfold inv_area, half_pi. rewrite Es.
    replace (t * - (tau * cos mu)) with (- (tau * (t * cos mu))) by ring.
    set (k := t * cos mu) in *. set (p := tau * k) in *.
    rewrite (Rgeb_false (- p) (fabs k)) by (abs_cases; lra).
    rewrite andb_false_r.
    rewrite (Rgeb_true k 0) by lra.
    rewrite (Rgeb_true k (fabs (- p))) by (abs_cases; lra).
    cbn [andb]. f_equal. lra.
  - (* AREA_2 *)
    specialize (Hplo (Hlo ltac:(discriminate))).
    unfold pi. rewrite neg_cos, neg_sin.
    unfold inv_area, pi. rewrite Es.
    replace (t * - (tau * cos mu)) with (- (tau * (t * cos mu))) by ring.
    replace (t * - cos mu) with (- (t * cos mu)) by ring.
    assert (Er : - (tau * (t * cos mu)) / - (t * cos mu) = tau)
      by (field; lra).
    set (k := t * cos mu) in *. set (p := tau * k) in *.
    rewrite (Rgeb_false (- k) 0) by lra. cbn [andb].
    rewrite (Rgeb_false (- p) (fabs (- k))) by (abs_cases; lra).
    rewrite andb_false_r.
    rewrite (Rltb_true (- k) 0) by lra.
    rewrite (Rgeb_true (- - k) (fabs (- p))) by (abs_cases; lra).
    cbn [andb]. f_equal.
    unfold atan2.
    rewrite (Rgtb_false (- k) 0), (Rltb_true (- k) 0) by lra.
    rewrite Er. fold mu.
    cmp_cases; lra.
  - (* AREA_3 *)
    specialize (Hplo (Hlo ltac:(discriminate))). specialize (Hphi (Hhi eq_refl)).
    unfold half_pi, pi.
    replace (mu + (PI / 2 + PI)) with (mu - PI / 2 + 2 * 1 * PI) by field.
    rewrite (cos_period _ 1%nat), (sin_period _ 1%nat).
    rewrite atan2_polar by lra.
    replace (cos (mu - PI / 2)) with (sin mu)
      by (rewrite cos_minus, cos_PI2, sin_PI2; ring).
    replace (sin (mu - PI / 2)) with (- cos mu)
      by (rewrite sin_minus, cos_PI2, sin_PI2; ring).
    unfold inv_area, half_pi. rewrite Es.
    replace (t * (tau * cos mu)) with (tau * (t * cos mu)) by ring.
    replace (t * - cos mu) with (- (t * cos mu)) by ring.
    set (k := t * cos mu) in *. set (p := tau * k) in *.
    rewrite (Rgeb_false p (fabs (- k))) by (abs_cases; lra).
    rewrite andb_false_r.
    rewrite (Rgeb_false (- k) 0) by lra. cbn [andb].
    rewrite (Rgeb_false (- p) (fabs (- k))) by (abs_cases; lra).
    rewrite andb_false_r.
    f_equal. lra.
Qed.

(** What [inv] does once the area, [theta] and [cosphi] are known: its
    last part, from the choice of the face on. *)
Local Abbreviation inv_tail par pp area theta cosphi :=
  (let? (lp_lon, lp_lat) :=
     match face pp with
     | FACE_TOP =>
         let? phi := acos_c cosphi in
         Some (inv_top_lon area theta, half_pi - phi)
     | FACE_BOTTOM =>
         let? phi := acos_c cosphi in
         Some (inv_bottom_lon area theta, phi - half_pi)
     | f =>
         let? qrs := inv_unit_sphere cosphi theta in
         let '(q, r, s) := rotate_face f (rotate_area area qrs) in
         let? w := acos_c (- s) in
         let lp_lat := w - half_pi in
         let lp_lon := atan2 r q in
         let lp_lon :=
           match f with
           | FACE_RIGHT => qsc_shift_lon_origin lp_lon (- half_pi)
           | FACE_BACK => qsc_shift_lon_origin lp_lon (- pi)
           | FACE_LEFT => qsc_shift_lon_origin lp_lon half_pi
           | _ => lp_lon
           end in
         Some (lp_lon, lp_lat)
     end in
   if es par <>? 0 then
     let? lp_lat := inv_ellipsoid_shift par pp lp_lat in
     Some (lp_lon, lp_lat)
   else Some (lp_lon, lp_lat)).

Lemma inv_of_area_of_definition (par : parameters) (pp : par_qsc)
    (phi theta : R) (area : area_t) :
  0 < phi <= PI ->
  - (PI / 4) <= theta <= PI / 4 ->
  (area <> AREA_0 -> - (PI / 4) < theta) ->
  (area = AREA_3 -> theta < PI / 4) ->
  exists x y,
    fwd_area_of_definition phi theta area = Some (x, y) /\
    inv par pp x y = inv_tail par pp area theta (cos phi).
Proof.
  intros Hphi Ht Hlo Hhi. pose proof PI_RGT_0 as Hpi.
  assert (Ht2 : - (PI / 2) < theta < PI / 2) by lra.
  destruct (fwd_area_of_definition_some phi theta area Ht2)
    as (Efwd & Hcm & Ett & Ht0 & Htpos).
  destruct (sec_theta_facts theta Ht2) as [Hc Hd].
  destruct (fwd_mu_argument_range theta Ht) as (HT & HTlo & HThi).
  destruct (inv_tantheta_of_fwd theta Ht) as (Hden & Etan).
  cbv zeta in *.
  set (T := theta + acos (sin theta * cos FORTPI) - half_pi) in *.
  set (tau := 12 / pi * T) in *.
  assert (Etau : pi / 12 * tau = T) by (unfold tau, pi; field; lra).
  assert (Htau : -1 <= tau <= 1).
  { unfold tau, pi. split.
    - apply (Rmult_le_reg_l (PI / 12)); [lra |].
      replace (PI / 12 * (12 / PI * T)) with T by (field; lra). lra.
    - apply (Rmult_le_reg_l (PI / 12)); [lra |].
      replace (PI / 12 * (12 / PI * T)) with T by (field; lra). lra. }
  assert (Htaulo : - (PI / 4) < theta -> -1 < tau).
  { intros H. specialize (HTlo H). unfold tau, pi.
    apply (Rmult_lt_reg_l (PI / 12)); [lra |].
    replace (PI / 12 * (12 / PI * T)) with T by (field; lra). lra. }
  assert (Htauhi : theta < PI / 4 -> tau < 1).
  { intros H. specialize (HThi H). unfold tau, pi.
    apply (Rmult_lt_reg_l (PI / 12)); [lra |].
    replace (PI / 12 * (12 / PI * T)) with T by (field; lra). lra. }
  set (mu := atan tau) in *.
  set (t := sqrt _) in *.
  assert (Hcphi : cos phi < 1).
  { rewrite <- cos_0. apply cos_decreasing_1; lra. }
  specialize (Htpos Hcphi).
  eexists _, _. split; [exact Efwd |].
  set (mu' := fwd_rotate_mu area mu).
  assert (Eh : t * cos mu' * (t * cos mu') + t * sin mu' * (t * sin mu')
               = t * t).
  { pose proof (sin2_cos2 mu') as E. unfold Rsqr in E.
    transitivity (t * t * (sin mu' * sin mu' + cos mu' * cos mu')); [ring |].
    rewrite E. ring. }
  unfold inv.
  rewrite Eh. rewrite sqrt_c_some by nra. cbn [obind].
  rewrite sqrt_square by lra.
  unfold mu', mu.
  rewrite (inv_area_of_fwd t tau area Htpos Htau) by auto.
  fold mu. cbv beta iota zeta.
  rewrite (sqrt_c_some 2) by lra. cbn [obind].
  rewrite (div_c_some 1 (sqrt 2)) by exact sqrt2_neq_0. cbn [obind].
  unfold mu at 1 2. rewrite tan_atan, Etau.
  rewrite div_c_some by lra. cbn [obind].
  rewrite Etan. rewrite atan_tan by lra.
  rewrite (div_c_some 1 (cos theta)) by lra. cbn [obind].
  rewrite tan_atan.
  assert (Ecp : 1 - cos mu * cos mu * t * t * (1 - cos (atan (1 / cos theta)))
                = cos phi).
  { replace (cos mu * cos mu * t * t) with (cos mu * cos mu * (t * t)) by ring.
    rewrite Ett. field. split; lra. }
  rewrite Ecp.
  assert (Ecl : clamp_cosphi (cos phi) = cos phi).
  { pose proof (COS_bound phi). unfold clamp_cosphi.
    rewrite Rltb_false, Rgtb_false by lra. reflexivity. }
  rewrite Ecl. reflexivity.
Qed.

End QscCore.

Section QscEllipsoid.
Import Qsc QscFwd.

Lemma setup_qsc_ellipsoid (par : parameters) (proj_parm : par_qsc) :
  es par <> 0 -> 0 < a par -> es par < 1 ->
  let pp := setup_qsc par proj_parm in
  b pp = a par * sqrt (1 - es par) /\
  one_minus_f pp = sqrt (1 - es par) /\
  one_minus_f_squared pp = sqrt (1 - es par) * sqrt (1 - es par) /\
  0 < sqrt (1 - es par).
Proof.
  intros Hes Ha Hes1. cbv zeta. unfold setup_qsc.
  rewrite Rneb_true by exact Hes. cbn [b one_minus_f one_minus_f_squared].
  assert (Hs : 0 < sqrt (1 - es par)) by (apply sqrt_lt_R0; lra).
  assert (E : 1 - (a par - a par * sqrt (1 - es par)) / a par
              = sqrt (1 - es par)) by (field; lra).
  rewrite E. auto.
Qed.

(** The shift back to the ellipsoid at the end of the inverse undoes
    the shift to the sphere at the start of the forward map. *)
Lemma inv_ellipsoid_shift_of_fwd (par : parameters) (proj_parm : par_qsc)
    (lp_lat : R) :
  es par <> 0 -> 0 < a par -> es par < 1 ->
  - (PI / 2) < lp_lat < PI / 2 ->
  let pp := setup_qsc par proj_parm in
  inv_ellipsoid_shift par pp (fwd_geocentric_lat par pp lp_lat) = Some lp_lat.
Proof.
  intros Hes Ha Hes1 Hlat pp. pose proof PI_RGT_0 as Hpi.
  destruct (setup_qsc_ellipsoid par proj_parm Hes Ha Hes1)
    as (Eb & Ef & Ef2 & Hk).
  fold pp in Eb, Ef, Ef2.
  unfold fwd_geocentric_lat, inv_ellipsoid_shift.
  rewrite Rneb_true by exact Hes.
  rewrite tan_atan, Eb, Ef, Ef2.
  set (k := sqrt (1 - es par)) in *.
  assert (Hc : 0 < cos lp_lat) by (apply cos_gt_0; lra).
  set (T := tan lp_lat).
  assert (Hw : 0 < 1 + k * k * (T * T)) by nra.
  assert (Ew : k * k * T * (k * k * T) + k * k
               = (k * sqrt (1 + k * k * (T * T)))
                 * (k * sqrt (1 + k * k * (T * T)))).
  { transitivity (k * k * (sqrt (1 + k * k * (T * T))
                           * sqrt (1 + k * k * (T * T)))); [| ring].
    rewrite sqrt_sqrt by lra. ring. }
  assert (Hsw : 0 < sqrt (1 + k * k * (T * T))) by (apply sqrt_lt_R0; lra).
  set (w := sqrt (1 + k * k * (T * T))) in *.
  assert (Ew2 : w * w = 1 + k * k * (T * T)) by (apply sqrt_sqrt; lra).
  assert (Hkw : 0 < k * w) by (apply Rmult_lt_0_compat; assumption).
  rewrite sqrt_c_some by nra. cbn [obind].
  rewrite Ew, sqrt_square by lra.
  rewrite div_c_some by lra. cbn [obind].
  assert (Exa : a par * k / (k * w) = a par / w) by (field; lra).
  rewrite Exa.
  assert (Hxa : 0 < a par / w) by (apply Rdiv_lt_0_compat; assumption).
  assert (Ev : a par * a par - a par / w * (a par / w)
               = (a par * k * Rabs T / w) * (a par * k * Rabs T / w)).
  { transitivity (a par * a par * (w * w - 1) / (w * w)); [field; lra |].
    replace (w * w - 1) with (k * k * (T * T)) by lra.
    replace (T * T) with (Rabs T * Rabs T)
      by (unfold Rabs; destruct (Rcase_abs T); ring).
    field. lra. }
  assert (HaT : 0 <= a par * k * Rabs T / w).
  { apply Rmult_le_pos; [| left; apply Rinv_0_lt_compat; exact Hsw].
    apply Rmult_le_pos; [| apply Rabs_pos].
    apply Rmult_le_pos; lra. }
  rewrite Ev. rewrite sqrt_c_some by nra. cbn [obind].
  rewrite sqrt_square by exact HaT.
  rewrite div_c_some by nra. cbn [obind].
  assert (Eu : a par * k * Rabs T / w / (k * (a par / w)) = Rabs T)
    by (field; repeat split; lra).
  rewrite Eu.
  unfold T.
  assert (Hkk : 0 < k * k) by (apply Rmult_lt_0_compat; assumption).
  destruct (Rlt_dec lp_lat 0) as [Hneg | Hpos].
  - assert (Htn : tan lp_lat < 0).
    { rewrite <- tan_0. apply tan_increasing; lra. }
    assert (Hat : atan (k * k * tan lp_lat) < 0).
    { rewrite <- atan_0. apply atan_increasing. nra. }
    rewrite Rltb_true by exact Hat.
    rewrite Rabs_left by exact Htn.
    rewrite atan_opp, atan_tan by lra. f_equal. ring.
  - assert (Htn : 0 <= tan lp_lat).
    { destruct (Req_dec_T lp_lat 0) as [-> | Hne]; [rewrite tan_0; lra |].
      left. rewrite <- tan_0. apply tan_increasing; lra. }
    assert (Hat : 0 <= atan (k * k * tan lp_lat)).
    { destruct Htn as [Hlt | <-].
      - left. rewrite <- atan_0. apply atan_increasing. nra.
      - rewrite Rmult_0_r, atan_0. lra. }
    rewrite Rltb_false by lra.
    rewrite Rabs_right by lra.
    rewrite atan_tan by lra. reflexivity.
Qed.

(** The end of the inverse, on the sphere and on the ellipsoid. *)
Lemma inv_sphere_to_ellipsoid (par : parameters) (proj_parm : par_qsc)
    (lp_lon lp_lat : R) :
  (es par <> 0 ->
   0 < a par /\ es par < 1 /\ - (PI / 2) < lp_lat < PI / 2) ->
  let pp := setup_qsc par proj_parm in
  (if es par <>? 0
   then let? lat := inv_ellipsoid_shift par pp
                      (fwd_geocentric_lat par pp lp_lat) in
        Some (lp_lon, lat)
   else Some (lp_lon, fwd_geocentric_lat par pp lp_lat))
  = Some (lp_lon, lp_lat).
Proof.
  intros Hell pp.
  destruct (Req_dec_T (es par) 0) as [Hes | Hes].
  - rewrite Rneb_false by exact Hes. unfold fwd_geocentric_lat.
    rewrite Rneb_false by exact Hes. reflexivity.
  - rewrite Rneb_true by exact Hes.
    destruct (Hell Hes) as (Ha & Hes1 & Hlat).
    unfold pp.
    rewrite (inv_ellipsoid_shift_of_fwd par proj_parm lp_lat Hes Ha Hes1 Hlat).
    reflexivity.
Qed.

Lemma fwd_geocentric_lat_range (par : parameters) (pp : par_qsc) (lp_lat : R) :
  (- (PI / 2) < lp_lat < PI / 2 ->
   - (PI / 2) < fwd_geocentric_lat par pp lp_lat < PI / 2) /\
  (es par = 0 -> fwd_geocentric_lat par pp lp_lat = lp_lat).
Proof.
  unfold fwd_geocentric_lat. split.
  - intros H. destruct (es par <>? 0); [| exact H].
    pose proof (atan_bound (one_minus_f_squared pp * tan lp_lat)). lra.
  - intros H. rewrite Rneb_false by exact H. reflexivity.
Qed.

End QscEllipsoid.

Section QscPolar.
Import Qsc QscFwd.

Lemma fwd_top_theta_facts (lon : R) :
  - PI <= lon <= PI ->
  let theta := fst (fwd_top_theta lon) in
  let area := snd (fwd_top_theta lon) in
  - (PI / 4) <= theta <= PI / 4 /\
  (area <> AREA_0 -> - (PI / 4) < theta) /\
  (area = AREA_3 -> theta < PI / 4) /\
  (lon < PI -> inv_top_lon area theta = lon) /\
  (lon = PI -> inv_top_lon area theta = - PI).
Proof.
  intros Hlon. pose proof PI_RGT_0 as Hpi. cbv zeta.
  unfold fwd_top_theta, FORTPI, half_pi, pi.
  cmp_cases; cbn [fst snd inv_top_lon]; unfold half_pi, pi;
    (split; [lra |]); (split; [intros; try congruence; lra |]);
    (split; [intros; try congruence; lra |]);
    cmp_cases; split; intros; lra.
Qed.

Lemma fwd_bottom_theta_facts (lon : R) :
  - PI <= lon <= PI ->
  let theta := fst (fwd_bottom_theta lon) in
  let area := snd (fwd_bottom_theta lon) in
  - (PI / 4) <= theta <= PI / 4 /\
  (area <> AREA_0 -> - (PI / 4) < theta) /\
  (area = AREA_3 -> theta < PI / 4) /\
  (- PI < lon -> inv_bottom_lon area theta = lon) /\
  (lon = - PI -> inv_bottom_lon area theta = PI).
Proof.
  intros Hlon. pose proof PI_RGT_0 as Hpi. cbv zeta.
  unfold fwd_bottom_theta, FORTPI, half_pi, pi.
  cmp_cases; cbn [fst snd inv_bottom_lon]; unfold half_pi, pi;
    (split; [lra |]); (split; [intros; try congruence; lra |]);
    (split; [intros; try congruence; lra |]);
    cmp_cases; split; intros; lra.
Qed.

(** X14. On the top and bottom faces the QSC inverse undoes the forward
    map, on the sphere and on the ellipsoid (with [a > 0], [es < 1] and
    a latitude off the poles): on the top face for [-pi <= lon < pi]
    and any latitude but the north pole, on the bottom face for
    [-pi < lon <= pi] and any latitude but the south pole. *)
Theorem qsc_polar_round_trip (par : parameters) (proj_parm : par_qsc)
    (lp_lon lp_lat : R) :
  let pp := setup_qsc par proj_parm in
  (es par <> 0 ->
   0 < a par /\ es par < 1 /\ - (PI / 2) < lp_lat < PI / 2) ->
  (face pp = FACE_TOP /\
   - PI <= lp_lon < PI /\ - (PI / 2) <= lp_lat < PI / 2) \/
  (face pp = FACE_BOTTOM /\
   - PI < lp_lon <= PI /\ - (PI / 2) < lp_lat <= PI / 2) ->
  exists xy_x xy_y,
    fwd par pp lp_lon lp_lat = Some (xy_x, xy_y) /\
    inv par pp xy_x xy_y = Some (lp_lon, lp_lat).
Proof.
  intros pp Hell Hcase. pose proof PI_RGT_0 as Hpi.
  pose proof (inv_sphere_to_ellipsoid par proj_parm lp_lon lp_lat Hell)
    as Hend.
  cbv zeta in Hend. fold pp in Hend.
  destruct (fwd_geocentric_lat_range par pp lp_lat) as [Hopen Hsph].
  unfold fwd.
  set (lat := fwd_geocentric_lat par pp lp_lat) in *.
  destruct Hcase as [(Hf & Hlon & Hlat) | (Hf & Hlon & Hlat)].
  - assert (Hlat' : - (PI / 2) <= lat < PI / 2).
    { destruct (Req_dec_T (es par) 0) as [Hes | Hes].
      - rewrite (Hsph Hes). exact Hlat.
      - destruct (Hell Hes) as (_ & _ & Hl). specialize (Hopen Hl). lra. }
    rewrite Hf. cbn [fwd_phi_theta obind].
    destruct (fwd_top_theta_facts lp_lon ltac:(lra))
      as (Ht & Hlo & Hhi & Elon & _).
    cbv zeta in *.
    destruct (fwd_top_theta lp_lon) as [theta area]. cbn [fst snd] in *.
    assert (Hphi : 0 < half_pi - lat <= PI) by (unfold half_pi; lra).
    destruct (inv_of_area_of_definition par pp (half_pi - lat) theta area
                Hphi Ht Hlo Hhi) as (x & y & Efwd & Einv).
    exists x, y. split; [exact Efwd |].
    rewrite Einv, Hf.
    pose proof (COS_bound (half_pi - lat)).
    rewrite acos_c_some by lra. cbn [obind].
    rewrite acos_cos by lra. rewrite Elon by lra.
    replace (half_pi - (half_pi - lat)) with lat by ring.
    exact Hend.
  - assert (Hlat' : - (PI / 2) < lat <= PI / 2).
    { destruct (Req_dec_T (es par) 0) as [Hes | Hes].
      - rewrite (Hsph Hes). exact Hlat.
      - destruct (Hell Hes) as (_ & _ & Hl). specialize (Hopen Hl). lra. }
    rewrite Hf. cbn [fwd_phi_theta obind].
    destruct (fwd_bottom_theta_facts lp_lon ltac:(lra))
      as (Ht & Hlo & Hhi & Elon & _).
    cbv zeta in *.
    destruct (fwd_bottom_theta lp_lon) as [theta area]. cbn [fst snd] in *.
    assert (Hphi : 0 < half_pi + lat <= PI) by (unfold half_pi; lra).
    destruct (inv_of_area_of_definition par pp (half_pi + lat) theta area
                Hphi Ht Hlo Hhi) as (x & y & Efwd & Einv).
    exists x, y. split; [exact Efwd |].
    rewrite Einv, Hf.
    pose proof (COS_bound (half_pi + lat)).
    rewrite acos_c_some by lra. cbn [obind].
    rewrite acos_cos by lra. rewrite Elon by lra.
    replace (half_pi + lat - half_pi) with lat by ring.
    exact Hend.
Qed.

End QscPolar.

Section QscEquat.
Import Qsc QscFwd.

Lemma sin_cos_plus_2PI (x : R) :
  sin (x + 2 * PI) = sin x /\ cos (x + 2 * PI) = cos x.
Proof.
  replace (x + 2 * PI) with (x + 2 * 1 * PI) by ring.
  split; [apply (sin_period x 1%nat) | apply (cos_period x 1%nat)].
Qed.

Lemma qsc_fwd_equat_face_theta_facts (phi y x : R) :
  EPS10 <= phi ->
  let theta := fst (qsc_fwd_equat_face_theta phi y x) in
  let area := snd (qsc_fwd_equat_face_theta phi y x) in
  - (PI / 4) <= theta <= PI / 4 /\
  (area <> AREA_0 -> - (PI / 4) < theta) /\
  (area = AREA_3 -> theta < PI / 4) /\
  sin (fwd_rotate_mu area theta) = sin (atan2 y x) /\
  cos (fwd_rotate_mu area theta) = cos (atan2 y x).
Proof.
  intros Hphi. pose proof PI_RGT_0 as Hpi.
  pose proof (atan2_range y x) as Hr.
  cbv zeta. unfold qsc_fwd_equat_face_theta.
  rewrite Rltb_false by lra.
  set (t0 := atan2 y x) in *.
  destruct (sin_cos_plus_2PI t0) as [Es Ec].
  unfold FORTPI, half_pi, pi.
  cmp_cases; cbn [fst snd fwd_rotate_mu]; unfold half_pi, pi; abs_cases;
    (split; [lra |]); (split; [intros; try congruence; lra |]);
    (split; [intros; try congruence; lra |]);
    try (replace (t0 - PI / 2 + PI / 2) with t0 by lra);
    try (replace (t0 - PI + PI) with t0 by lra);
    try (replace (t0 + PI + PI) with (t0 + 2 * PI) by lra);
    try (replace (t0 + PI / 2 + (PI / 2 + PI)) with (t0 + 2 * PI) by lra);
    try rewrite Es; try rewrite Ec; try (split; reflexivity); exfalso; lra.
Qed.

Lemma rotate_area_polar (area : area_t) (q rho theta : R) :
  rotate_area area (q, rho * cos theta, rho * sin theta)
  = (q, rho * cos (fwd_rotate_mu area theta),
        rho * sin (fwd_rotate_mu area theta)).
Proof.
  destruct area; cbn [rotate_area fwd_rotate_mu]; unfold half_pi, pi.
  - reflexivity.
  - rewrite cos_plus, sin_plus, cos_PI2, sin_PI2. f_equal; [f_equal |]; ring.
  - rewrite neg_cos, neg_sin. f_equal; [f_equal |]; ring.
  - rewrite (cos_plus theta), (sin_plus theta), (cos_plus (PI / 2)),
      (sin_plus (PI / 2)), cos_PI2, sin_PI2, cos_PI, sin_PI.
    f_equal; [f_equal |]; ring.
Qed.

(** The inverse rebuilds the unit-sphere components the forward map
    started from. *)
Lemma inv_unit_sphere_of_fwd (q r s phi : R) :
  q * q + r * r + s * s = 1 ->
  EPS10 <= phi ->
  let theta := fst (qsc_fwd_equat_face_theta phi s r) in
  let area := snd (qsc_fwd_equat_face_theta phi s r) in
  exists qrs,
    inv_unit_sphere q theta = Some qrs /\
    rotate_area area qrs = (q, r, s).
Proof.
  intros Hunit Hphi theta area. pose proof PI_RGT_0 as Hpi.
  destruct (qsc_fwd_equat_face_theta_facts phi s r Hphi)
    as (Ht & _ & _ & Es & Ec).
  fold theta area in Ht, Es, Ec.
  assert (Hct : 0 < cos theta) by (apply cos_gt_0; lra).
  unfold inv_unit_sphere.
  destruct (Rle_dec 1 (q * q)) as [Hq | Hq].
  - (* the face centre's antipode or the centre itself: r = s = 0 *)
    assert (Hr0 : r = 0) by nra. assert (Hs0 : s = 0) by nra.
    rewrite Rgeb_true by lra. cbn [obind].
    rewrite Rgeb_true by nra. cbn [obind].
    eexists. split; [reflexivity |].
    subst r s. destruct area; cbn [rotate_area]; f_equal; try f_equal; ring.
  - assert (Hq1 : q * q < 1) by lra.
    rewrite Rgeb_false by lra.
    rewrite sqrt_c_some by lra. cbn [obind].
    set (rho := sqrt (1 - q * q)).
    assert (Hrho : 0 < rho) by (apply sqrt_lt_R0; lra).
    assert (Erho : rho * rho = 1 - q * q) by (apply sqrt_sqrt; lra).
    assert (Ehyp : hypot r s = rho).
    { unfold hypot, rho. f_equal. lra. }
    assert (Hne : r <> 0 \/ s <> 0).
    { destruct (Req_dec_T r 0) as [E | E]; [| left; exact E].
      right. intros E'. subst. lra. }
    destruct (atan2_sin_cos s r Hne) as [Er Esn].
    rewrite Ehyp in Er, Esn.
    pose proof (sin2_cos2 theta) as Hsc. unfold Rsqr in Hsc.
    assert (E1 : 1 - (q * q + rho * sin theta * (rho * sin theta))
                 = (rho * cos theta) * (rho * cos theta)).
    { transitivity (rho * rho - rho * sin theta * (rho * sin theta));
        [rewrite Erho; ring |].
      transitivity (rho * rho * (1 - sin theta * sin theta)); [ring |].
      replace (1 - sin theta * sin theta) with (cos theta * cos theta) by lra.
      ring. }
    assert (Hrc : 0 < rho * cos theta) by (apply Rmult_lt_0_compat; assumption).
    rewrite Rgeb_false by nra.
    rewrite sqrt_c_some by nra. cbn [obind].
    rewrite E1, sqrt_square by lra.
    eexists. split; [reflexivity |].
    rewrite rotate_area_polar. fold area. rewrite Es, Ec, Er, Esn.
    reflexivity.
Qed.

Lemma atan2_polar_closed (k lam : R) :
  0 < k -> - PI < lam <= PI ->
  atan2 (k * sin lam) (k * cos lam) = lam.
Proof.
  intros Hk [Hlo [Hlt | ->]]; [apply atan2_polar; lra |].
  rewrite sin_PI, cos_PI. unfold atan2.
  rewrite Rgtb_false, Rltb_true, Rgeb_true by lra.
  replace (k * 0 / (k * -1)) with 0 by (field; lra).
  rewrite atan_0. ring.
Qed.

Lemma atan2_polar_wrap (k beta : R) :
  0 < k -> - (3 * PI) < beta <= 3 * PI ->
  (beta <= - PI -> atan2 (k * sin beta) (k * cos beta) = beta + 2 * PI) /\
  (- PI < beta <= PI -> atan2 (k * sin beta) (k * cos beta) = beta) /\
  (PI < beta -> atan2 (k * sin beta) (k * cos beta) = beta - 2 * PI).
Proof.
  intros Hk Hb. pose proof PI_RGT_0 as Hpi.
  split; [| split].
  - intros H. destruct (sin_cos_plus_2PI beta) as [Es Ec].
    rewrite <- Es, <- Ec. apply atan2_polar_closed; lra.
  - intros H. apply atan2_polar_closed; lra.
  - intros H. destruct (sin_cos_plus_2PI (beta - 2 * PI)) as [Es Ec].
    replace (beta - 2 * PI + 2 * PI) with beta in Es, Ec by ring.
    rewrite Es, Ec. apply atan2_polar_closed; lra.
Qed.

Lemma qsc_shift_lon_origin_sin_cos (lon offset : R) :
  sin (qsc_shift_lon_origin lon offset) = sin (lon + offset) /\
  cos (qsc_shift_lon_origin lon offset) = cos (lon + offset).
Proof.
  destruct (sin_cos_plus_2PI (lon + offset)) as [Es Ec].
  destruct (sin_cos_plus_2PI (lon + offset - 2 * PI)) as [Es' Ec'].
  replace (lon + offset - 2 * PI + 2 * PI) with (lon + offset) in Es', Ec'
    by ring.
  unfold qsc_shift_lon_origin, pi, two_pi.
  cmp_cases; split; congruence.
Qed.

Lemma qsc_shift_back (k lon offset : R) :
  0 < k -> - PI < lon < PI -> - PI <= offset <= PI ->
  qsc_shift_lon_origin
    (atan2 (k * sin (lon + offset)) (k * cos (lon + offset))) (- offset)
  = lon.
Proof.
  intros Hk Hlon Hoff. pose proof PI_RGT_0 as Hpi.
  destruct (atan2_polar_wrap k (lon + offset) Hk ltac:(lra))
    as (Elo & Emid & Ehi).
  destruct (Rle_dec (lon + offset) (- PI)) as [H1 | H1].
  - rewrite (Elo H1). unfold qsc_shift_lon_origin, pi, two_pi.
    cmp_cases; lra.
  - destruct (Rlt_dec PI (lon + offset)) as [H2 | H2].
    + rewrite (Ehi H2). unfold qsc_shift_lon_origin, pi, two_pi.
      cmp_cases; lra.
    + rewrite Emid by lra. unfold qsc_shift_lon_origin, pi, two_pi.
      cmp_cases; lra.
Qed.

(** On the four equatorial faces the forward map starts from the same
    [phi], [theta] and area: the shift of the longitude origin and the
    choice of components per face cancel. *)
Lemma fwd_phi_theta_equatorial (f : face_t) (lon lat : R) :
  f <> FACE_TOP -> f <> FACE_BOTTOM ->
  fwd_phi_theta f lon lat
  = Some (acos (cos lat * cos lon),
          qsc_fwd_equat_face_theta (acos (cos lat * cos lon))
            (sin lat) (cos lat * sin lon)).
Proof.
  intros Htop Hbot.
  assert (Hq : -1 <= cos lat * cos lon <= 1).
  { pose proof (COS_bound lat). pose proof (COS_bound lon). split; nra. }
  destruct f; try congruence; cbn [fwd_phi_theta fwd_unit_sphere].
  - rewrite acos_c_some by exact Hq. reflexivity.
  - destruct (qsc_shift_lon_origin_sin_cos lon half_pi) as [Es Ec].
    rewrite Es, Ec. unfold half_pi.
    rewrite sin_plus, cos_plus, cos_PI2, sin_PI2.
    replace (cos lat * (sin lon * 0 + cos lon * 1)) with (cos lat * cos lon)
      by ring.
    replace (- (cos lat * (cos lon * 0 - sin lon * 1))) with (cos lat * sin lon)
      by ring.
    rewrite acos_c_some by exact Hq. reflexivity.
  - destruct (qsc_shift_lon_origin_sin_cos lon pi) as [Es Ec].
    rewrite Es, Ec. unfold pi. rewrite neg_sin, neg_cos.
    replace (- (cos lat * - cos lon)) with (cos lat * cos lon) by ring.
    replace (- (cos lat * - sin lon)) with (cos lat * sin lon) by ring.
    rewrite acos_c_some by exact Hq. reflexivity.
  - destruct (qsc_shift_lon_origin_sin_cos lon (- half_pi)) as [Es Ec].
    rewrite Es, Ec. unfold half_pi.
    rewrite sin_plus, cos_plus, cos_neg, sin_neg, cos_PI2, sin_PI2.
    replace (- (cos lat * (sin lon * 0 + cos lon * - (1))))
      with (cos lat * cos lon) by ring.
    replace (cos lat * (cos lon * 0 - sin lon * - (1)))
      with (cos lat * sin lon) by ring.
    rewrite acos_c_some by exact Hq. reflexivity.
Qed.

(** X15. On the four equatorial faces the QSC inverse undoes the forward
    map, on the sphere and on the ellipsoid (with [a > 0] and
    [es < 1]), for [-pi < lon < pi], a latitude off the poles, and a
    point at an angle of at least [EPS10] from the centre of the face. *)
Theorem qsc_equatorial_round_trip (par : parameters) (proj_parm : par_qsc)
    (lp_lon lp_lat : R) :
  let pp := setup_qsc par proj_parm in
  (es par <> 0 -> 0 < a par /\ es par < 1) ->
  face pp <> FACE_TOP -> face pp <> FACE_BOTTOM ->
  - PI < lp_lon < PI -> - (PI / 2) < lp_lat < PI / 2 ->
  EPS10 <= acos (cos (fwd_geocentric_lat par pp lp_lat) * cos lp_lon) ->
  exists xy_x xy_y,
    fwd par pp lp_lon lp_lat = Some (xy_x, xy_y) /\
    inv par pp xy_x xy_y = Some (lp_lon, lp_lat).
Proof.
  intros pp Hell Htop Hbot Hlon Hlat0 Hphi. pose proof PI_RGT_0 as Hpi.
  assert (Hell' : es par <> 0 ->
                  0 < a par /\ es par < 1 /\ - (PI / 2) < lp_lat < PI / 2).
  { intros Hes. destruct (Hell Hes). auto. }
  pose proof (inv_sphere_to_ellipsoid par proj_parm lp_lon lp_lat Hell')
    as Hend.
  cbv zeta in Hend. fold pp in Hend.
  destruct (fwd_geocentric_lat_range par pp lp_lat) as [Hopen _].
  specialize (Hopen Hlat0).
  unfold fwd.
  set (lat := fwd_geocentric_lat par pp lp_lat) in *.
  assert (Hcl : 0 < cos lat) by (apply cos_gt_0; lra).
  assert (Hq : -1 <= cos lat * cos lp_lon <= 1).
  { pose proof (COS_bound lat). pose proof (COS_bound lp_lon). split; nra. }
  assert (Hunit : cos lat * cos lp_lon * (cos lat * cos lp_lon)
                  + cos lat * sin lp_lon * (cos lat * sin lp_lon)
                  + sin lat * sin lat = 1).
  { pose proof (sin2_cos2 lat) as E1. pose proof (sin2_cos2 lp_lon) as E2.
    unfold Rsqr in E1, E2.
    transitivity (cos lat * cos lat * (sin lp_lon * sin lp_lon + cos lp_lon * cos lp_lon)
                  + sin lat * sin lat); [ring |].
    rewrite E2. lra. }
  cbv zeta.
  rewrite (fwd_phi_theta_equatorial (face pp) lp_lon lat Htop Hbot).
  cbn [obind].
  set (phi := acos (cos lat * cos lp_lon)) in *.
  assert (EPS10_pos : 0 < EPS10) by (unfold EPS10; lra).
  assert (Hphi' : 0 < phi <= PI).
  { pose proof (acos_bound (cos lat * cos lp_lon)) as Hb. fold phi in Hb. lra. }
  destruct (qsc_fwd_equat_face_theta_facts phi (sin lat) (cos lat * sin lp_lon) Hphi)
    as (Ht & Hlo & Hhi & _ & _).
  destruct (inv_unit_sphere_of_fwd (cos lat * cos lp_lon) (cos lat * sin lp_lon)
              (sin lat) phi Hunit Hphi) as (qrs & Eqrs & Erot).
  cbv zeta in *.
  destruct (qsc_fwd_equat_face_theta phi (sin lat) (cos lat * sin lp_lon))
    as [theta area].
  cbn [fst snd] in *.
  destruct (inv_of_area_of_definition par pp phi theta area Hphi' Ht Hlo Hhi)
    as (x & y & Efwd & Einv).
  exists x, y. split; [exact Efwd |].
  rewrite Einv. unfold phi. rewrite cos_acos by exact Hq.
  rewrite Eqrs. cbn [obind]. rewrite Erot.
  assert (Hs : -1 <= - sin lat <= 1) by (pose proof (SIN_bound lat); lra).
  assert (Elat : acos (- sin lat) - half_pi = lat).
  { unfold half_pi.
    replace (- sin lat) with (cos (lat + PI / 2))
      by (rewrite cos_plus, cos_PI2, sin_PI2; ring).
    rewrite acos_cos by lra. ring. }
  destruct (face pp); try congruence; cbn [rotate_face];
    rewrite acos_c_some by exact Hs; cbn [obind]; rewrite Elat.
  - rewrite atan2_polar by lra. exact Hend.
  - replace (cos lat * cos lp_lon) with (cos lat * sin (lp_lon + half_pi))
      by (unfold half_pi; rewrite sin_plus, cos_PI2, sin_PI2; ring).
    replace (- (cos lat * sin lp_lon)) with (cos lat * cos (lp_lon + half_pi))
      by (unfold half_pi; rewrite cos_plus, cos_PI2, sin_PI2; ring).
    rewrite qsc_shift_back by (unfold half_pi; lra). exact Hend.
  - replace (- (cos lat * sin lp_lon)) with (cos lat * sin (lp_lon + pi))
      by (unfold pi; rewrite neg_sin; ring).
    replace (- (cos lat * cos lp_lon)) with (cos lat * cos (lp_lon + pi))
      by (unfold pi; rewrite neg_cos; ring).
    rewrite qsc_shift_back by (unfold pi; lra). exact Hend.
  - replace (- (cos lat * cos lp_lon)) with (cos lat * sin (lp_lon + - half_pi))
      by (unfold half_pi; rewrite sin_plus, cos_neg, sin_neg, cos_PI2, sin_PI2;
          ring).
    replace (cos lat * sin lp_lon) with (cos lat * cos (lp_lon + - half_pi))
      by (unfold half_pi; rewrite cos_plus, cos_neg, sin_neg, cos_PI2, sin_PI2;
          ring).
    pose proof (qsc_shift_back (cos lat) lp_lon (- half_pi) Hcl Hlon
                  ltac:(unfold half_pi; lra)) as Eback.
    replace (- - half_pi) with half_pi in Eback by ring.
    rewrite Eback. exact Hend.
Qed.

End QscEquat.

Section QscEdges.
Import Qsc QscFwd.

(** X16. The forward map is the same function on the four equatorial
    faces: the shift of the longitude origin and the choice of the
    unit-sphere components per face cancel, so two constant blocks with
    equatorial faces and the same [one_minus_f_squared] give the same
    [(x, y)] for every longitude and latitude. *)
Theorem qsc_equatorial_faces_coincide (par : parameters) (pp pp' : par_qsc)
    (lp_lon lp_lat : R) :
  face pp <> FACE_TOP -> face pp <> FACE_BOTTOM ->
  face pp' <> FACE_TOP -> face pp' <> FACE_BOTTOM ->
  one_minus_f_squared pp = one_minus_f_squared pp' ->
  fwd par pp lp_lon lp_lat = fwd par pp' lp_lon lp_lat.
Proof.
  intros H1 H2 H3 H4 E. unfold fwd, fwd_geocentric_lat. rewrite E.
  rewrite !fwd_phi_theta_equatorial by assumption. reflexivity.
Qed.

Lemma qsc_fwd_equat_face_theta_range_all (phi y x : R) :
  - (PI / 4) <= fst (qsc_fwd_equat_face_theta phi y x) <= PI / 4.
Proof.
  pose proof PI_RGT_0 as Hpi.
  pose proof (atan2_range y x) as Hr.
  unfold qsc_fwd_equat_face_theta, FORTPI, half_pi, pi.
  cmp_cases; cbn [fst]; abs_cases; lra.
Qed.

(** X17. The forward map never leaves the reals: on an equatorial face
    for every longitude and latitude, on the top and bottom faces for
    every longitude in [[-pi, pi]], each arc cosine has its argument in
    [[-1, 1]], each divisor is non-zero and the square root has a
    non-negative argument. *)
Theorem qsc_fwd_never_nan (par : parameters) (pp : par_qsc)
    (lp_lon lp_lat : R) :
  (face pp = FACE_TOP \/ face pp = FACE_BOTTOM -> - PI <= lp_lon <= PI) ->
  exists xy_x xy_y, fwd par pp lp_lon lp_lat = Some (xy_x, xy_y).
Proof.
  intros Hlon. pose proof PI_RGT_0 as Hpi.
  unfold fwd.
  set (lat := fwd_geocentric_lat par pp lp_lat).
  assert (Htail : forall phi theta area,
            - (PI / 4) <= theta <= PI / 4 ->
            exists x y, fwd_area_of_definition phi theta area = Some (x, y)).
  { intros phi theta area Ht.
    destruct (fwd_area_of_definition_some phi theta area ltac:(lra))
      as (E & _).
    eauto. }
  destruct (face pp) eqn:Hf.
  1-4: rewrite fwd_phi_theta_equatorial by congruence; cbn [obind];
    pose proof (qsc_fwd_equat_face_theta_range_all
                  (acos (cos lat * cos lp_lon)) (sin lat)
                  (cos lat * sin lp_lon)) as Ht;
    destruct (qsc_fwd_equat_face_theta _ _ _) as [theta area];
    apply Htail; exact Ht.
  - cbn [fwd_phi_theta obind].
    destruct (fwd_top_theta_facts lp_lon (Hlon (or_introl eq_refl)))
      as (Ht & _).
    destruct (fwd_top_theta lp_lon) as [theta area].
    apply Htail; exact Ht.
  - cbn [fwd_phi_theta obind].
    destruct (fwd_bottom_theta_facts lp_lon (Hlon (or_intror eq_refl)))
      as (Ht & _).
    destruct (fwd_bottom_theta lp_lon) as [theta area].
    apply Htail; exact Ht.
Qed.

Local Abbreviation inv_tail par pp area theta cosphi :=
  (let? (lp_lon, lp_lat) :=
     match face pp with
     | FACE_TOP =>
         let? phi := acos_c cosphi in
         Some (inv_top_lon area theta, half_pi - phi)
     | FACE_BOTTOM =>
         let? phi := acos_c cosphi in
         Some (inv_bottom_lon area theta, phi - half_pi)
     | f =>
         let? qrs := inv_unit_sphere cosphi theta in
         let '(q, r, s) := rotate_face f (rotate_area area qrs) in
         let? w := acos_c (- s) in
         let lp_lat := w - half_pi in
         let lp_lon := atan2 r q in
         let lp_lon :=
           match f with
           | FACE_RIGHT => qsc_shift_lon_origin lp_lon (- half_pi)
           | FACE_BACK => qsc_shift_lon_origin lp_lon (- pi)
           | FACE_LEFT => qsc_shift_lon_origin lp_lon half_pi
           | _ => lp_lon
           end in
         Some (lp_lon, lp_lat)
     end in
   if es par <>? 0 then
     let? lp_lat := inv_ellipsoid_shift par pp lp_lat in
     Some (lp_lon, lp_lat)
   else Some (lp_lon, lp_lat)).

Lemma inv_sqrt2_bounds : 0 < 1 / sqrt 2 < 1.
Proof.
  pose proof PI_RGT_0 as Hpi.
  rewrite <- cos_PI4. split; [apply cos_gt_0; lra |].
  rewrite <- cos_0. apply cos_decreasing_1; lra.
Qed.

(** The inverse on the positive half of the x axis, the image of the
    line [theta = 0] of the area of definition. *)
Lemma inv_on_x_axis (par : parameters) (pp : par_qsc) (t : R) :
  0 <= t ->
  inv par pp t 0
  = inv_tail par pp AREA_0 0 (clamp_cosphi (1 - t * t * (1 - 1 / sqrt 2))).
Proof.
  intros Ht. pose proof PI_RGT_0 as Hpi. pose proof inv_sqrt2_bounds as Hq.
  assert (Eat : atan2 0 t = 0).
  { destruct Ht as [Ht | <-].
    - unfold atan2. rewrite Rgtb_true by lra.
      unfold Rdiv. rewrite Rmult_0_l. apply atan_0.
    - apply atan2_0_0. }
  unfold inv.
  replace (t * t + 0 * 0) with (t * t) by ring.
  rewrite sqrt_c_some by nra. cbn [obind].
  rewrite sqrt_square by exact Ht.
  rewrite Eat. unfold inv_area.
  rewrite (Rgeb_true t 0) by lra.
  rewrite (Rgeb_true t (fabs 0)) by (unfold fabs; rewrite Rabs_R0; lra).
  cbn [andb]. cbv beta iota zeta.
  rewrite (sqrt_c_some 2) by lra. cbn [obind].
  rewrite (div_c_some 1 (sqrt 2)) by exact sqrt2_neq_0. cbn [obind].
  rewrite tan_0, Rmult_0_r, sin_0, cos_0.
  rewrite div_c_some by lra. cbn [obind].
  assert (E0 : 0 / (1 - 1 / sqrt 2) = 0) by (unfold Rdiv; apply Rmult_0_l).
  rewrite E0, atan_0, cos_0.
  rewrite (div_c_some 1 1) by lra. cbn [obind].
  replace (1 / 1) with 1 by field.
  rewrite atan_1, cos_PI4, tan_atan.
  replace (1 - 1 * 1 * t * t * (1 - 1 / sqrt 2))
    with (1 - t * t * (1 - 1 / sqrt 2)) by ring.
  reflexivity.
Qed.

Lemma inv_unit_sphere_theta_0 (phi : R) :
  0 <= phi <= PI ->
  inv_unit_sphere (cos phi) 0 = Some (cos phi, sin phi, 0).
Proof.
  intros Hphi. pose proof PI_RGT_0 as Hpi.
  pose proof (sin2_cos2 phi) as E. unfold Rsqr in E.
  assert (Hs : 0 <= sin phi) by (apply sin_ge_0; lra).
  unfold inv_unit_sphere. rewrite sin_0.
  destruct (Rle_dec 1 (cos phi * cos phi)) as [H1 | H1].
  - rewrite Rgeb_true by lra. cbn [obind].
    rewrite Rgeb_true by lra. cbn [obind].
    assert (sin phi = 0) by nra. congruence.
  - rewrite Rgeb_false by lra.
    rewrite sqrt_c_some by lra. cbn [obind].
    rewrite Rmult_0_r.
    rewrite Rgeb_false by lra.
    rewrite sqrt_c_some by lra. cbn [obind].
    replace (1 - (cos phi * cos phi + 0 * 0)) with (sin phi * sin phi) by lra.
    rewrite sqrt_square by exact Hs. reflexivity.
Qed.

(** X18. Within [EPS10] of the centre of an equatorial face the forward
    map forgets the direction: every such point is mapped onto the
    non-negative x axis, [(x, 0)], and the inverse returns from it the
    point of the equator at the same angle [phi] from the centre,
    [(phi, 0)], not the point projected. *)
Theorem qsc_fwd_near_centre_collapses (par : parameters)
    (proj_parm : par_qsc) (lp_lon lp_lat : R) :
  let pp := setup_qsc par proj_parm in
  let phi := acos (cos (fwd_geocentric_lat par pp lp_lat) * cos lp_lon) in
  (es par <> 0 -> 0 < a par /\ es par < 1) ->
  face pp <> FACE_TOP -> face pp <> FACE_BOTTOM ->
  phi < EPS10 ->
  exists xy_x,
    0 <= xy_x /\
    fwd par pp lp_lon lp_lat = Some (xy_x, 0) /\
    inv par pp xy_x 0 = Some (phi, 0).
Proof.
  intros pp phi Hell Htop Hbot Hnear. pose proof PI_RGT_0 as Hpi.
  pose proof inv_sqrt2_bounds as Hq.
  assert (Hell' : es par <> 0 ->
                  0 < a par /\ es par < 1 /\ - (PI / 2) < 0 < PI / 2).
  { intros Hes. destruct (Hell Hes). repeat split; auto; lra. }
  pose proof (inv_sphere_to_ellipsoid par proj_parm phi 0 Hell') as Hend.
  cbv zeta in Hend. fold pp in Hend.
  assert (E00 : fwd_geocentric_lat par pp 0 = 0).
  { unfold fwd_geocentric_lat. rewrite tan_0, Rmult_0_r, atan_0.
    destruct (es par <>? 0); reflexivity. }
  rewrite E00 in Hend.
  set (lat := fwd_geocentric_lat par pp lp_lat) in *.
  assert (Hc : -1 <= cos lat * cos lp_lon <= 1).
  { pose proof (COS_bound lat). pose proof (COS_bound lp_lon).
    split; nra. }
  pose proof (acos_bound (cos lat * cos lp_lon)) as Hphi.
  pose proof (cos_acos _ Hc) as Ecos.
  fold phi in Hphi, Ecos.
  assert (HEPS : EPS10 < 1) by (unfold EPS10; lra).
  destruct (fwd_area_of_definition_some phi 0 AREA_0 ltac:(lra))
    as (Efwd & _ & Ett & Ht0 & _).
  cbv zeta in Efwd, Ett, Ht0.
  assert (Emu : atan (12 / pi * (0 + acos (sin 0 * cos FORTPI) - half_pi)) = 0).
  { rewrite sin_0, Rmult_0_l, acos_0. unfold half_pi.
    replace (12 / pi * (0 + PI / 2 - PI / 2)) with 0 by (unfold pi; field; lra).
    apply atan_0. }
  rewrite Emu in Efwd, Ett, Ht0.
  cbn [fwd_rotate_mu] in Efwd.
  rewrite cos_0, sin_0 in Efwd. rewrite cos_0 in Ett, Ht0.
  replace (1 / 1) with 1 in Efwd, Ett, Ht0 by field.
  rewrite atan_1, cos_PI4 in Efwd, Ett, Ht0.
  set (t := sqrt ((1 - cos phi) / (1 * 1) / (1 - 1 / sqrt 2))) in *.
  rewrite Rmult_1_r, Rmult_0_r in Efwd.
  exists t. split; [exact Ht0 |]. split.
  - unfold fwd. fold lat.
    rewrite fwd_phi_theta_equatorial by assumption. cbn [obind].
    fold phi. unfold qsc_fwd_equat_face_theta.
    rewrite Rltb_true by exact Hnear. exact Efwd.
  - rewrite inv_on_x_axis by exact Ht0.
    rewrite Ett.
    assert (Ecp : 1 - (1 - cos phi) / (1 * 1) / (1 - 1 / sqrt 2)
                      * (1 - 1 / sqrt 2) = cos phi).
    { generalize dependent (1 / sqrt 2). intros q **. field. lra. }
    rewrite Ecp.
    assert (Ecl : clamp_cosphi (cos phi) = cos phi).
    { pose proof (COS_bound phi). unfold clamp_cosphi.
      rewrite Rltb_false, Rgtb_false by lra. reflexivity. }
    rewrite Ecl. rewrite inv_unit_sphere_theta_0 by lra.
    assert (E0 : acos (- 0) - half_pi = 0).
    { rewrite Ropp_0, acos_0. unfold half_pi. ring. }
    assert (H0 : -1 <= - 0 <= 1) by lra.
    assert (Hphi' : - PI < phi < PI) by (pose proof PI2_1; lra).
    assert (H1 : 0 < 1) by lra.
    destruct (face pp); try congruence;
      cbn [obind rotate_area rotate_face];
      rewrite acos_c_some by exact H0; cbn [obind]; rewrite E0.
    + replace (sin phi) with (1 * sin phi) by ring.
      replace (cos phi) with (1 * cos phi) by ring.
      rewrite atan2_polar by lra. exact Hend.
    + replace (cos phi) with (1 * sin (phi + half_pi))
        by (unfold half_pi; rewrite sin_plus, cos_PI2, sin_PI2; ring).
      replace (- sin phi) with (1 * cos (phi + half_pi))
        by (unfold half_pi; rewrite cos_plus, cos_PI2, sin_PI2; ring).
      rewrite qsc_shift_back by (unfold half_pi; lra). exact Hend.
    + replace (- sin phi) with (1 * sin (phi + pi))
        by (unfold pi; rewrite neg_sin; ring).
      replace (- cos phi) with (1 * cos (phi + pi))
        by (unfold pi; rewrite neg_cos; ring).
      rewrite qsc_shift_back by (unfold pi; lra). exact Hend.
    + replace (- cos phi) with (1 * sin (phi + - half_pi))
        by (unfold half_pi;
            rewrite sin_plus, cos_neg, sin_neg, cos_PI2, sin_PI2; ring).
      replace (sin phi) with (1 * cos (phi + - half_pi))
        by (unfold half_pi;
            rewrite cos_plus, cos_neg, sin_neg, cos_PI2, sin_PI2; ring).
      pose proof (qsc_shift_back 1 phi (- half_pi) H1 Hphi'
                    ltac:(unfold half_pi; lra)) as Eback.
      replace (- - half_pi) with half_pi in Eback by ring.
      rewrite Eback. exact Hend.
Qed.

(** X19. On the sphere, where the round trip of the polar faces ends: the
    pole of the face is mapped to the origin whatever the longitude, and
    the inverse returns longitude [pi/2] from the origin; on the top
    face the meridian [lon = pi] comes back as [-pi], on the bottom face
    the meridian [lon = -pi] comes back as [pi]. *)
Theorem qsc_polar_edges (par : parameters) (pp : par_qsc) :
  es par = 0 ->
  (face pp = FACE_TOP ->
   (forall lp_lon, - PI <= lp_lon <= PI ->
      fwd par pp lp_lon (PI / 2) = Some (0, 0)) /\
   inv par pp 0 0 = Some (PI / 2, PI / 2) /\
   (forall lp_lat, - (PI / 2) <= lp_lat < PI / 2 ->
      exists xy_x xy_y,
        fwd par pp PI lp_lat = Some (xy_x, xy_y) /\
        inv par pp xy_x xy_y = Some (- PI, lp_lat))) /\
  (face pp = FACE_BOTTOM ->
   (forall lp_lon, - PI <= lp_lon <= PI ->
      fwd par pp lp_lon (- (PI / 2)) = Some (0, 0)) /\
   inv par pp 0 0 = Some (PI / 2, - (PI / 2)) /\
   (forall lp_lat, - (PI / 2) < lp_lat <= PI / 2 ->
      exists xy_x xy_y,
        fwd par pp (- PI) lp_lat = Some (xy_x, xy_y) /\
        inv par pp xy_x xy_y = Some (PI, lp_lat))).
Proof.
  intros Hes. pose proof PI_RGT_0 as Hpi.
  assert (Hzero : forall phi theta area,
            - (PI / 4) <= theta <= PI / 4 -> cos phi = 1 ->
            fwd_area_of_definition phi theta area = Some (0, 0)).
  { intros phi theta area Ht Hc.
    destruct (fwd_area_of_definition_some phi theta area ltac:(lra))
      as (E & _ & Ett & Ht0 & _).
    cbv zeta in E, Ett, Ht0. rewrite E.
    set (t := sqrt _) in *.
    assert (Et : t = 0).
    { rewrite Hc in Ett.
      replace (1 - 1) with 0 in Ett by ring.
      unfold Rdiv in Ett. rewrite !Rmult_0_l in Ett. nra. }
    rewrite Et, !Rmult_0_l. reflexivity. }
  assert (Hcl : clamp_cosphi (1 - 0 * 0 * (1 - 1 / sqrt 2)) = 1).
  { replace (1 - 0 * 0 * (1 - 1 / sqrt 2)) with 1 by ring.
    unfold clamp_cosphi. rewrite Rltb_false, Rgtb_false by lra.
    reflexivity. }
  split; intros Hf.
  - split; [| split].
    + intros lp_lon Hlon. unfold fwd, fwd_geocentric_lat. rewrite Rneb_false by exact Hes.
      rewrite Hf. cbn [fwd_phi_theta obind].
      destruct (fwd_top_theta_facts lp_lon Hlon) as (Ht & _).
      destruct (fwd_top_theta lp_lon) as [theta area]. cbn [fst] in Ht.
      apply Hzero; [exact Ht |].
      unfold half_pi. replace (PI / 2 - PI / 2) with 0 by ring. apply cos_0.
    + rewrite inv_on_x_axis by lra. rewrite Hcl, Hf.
      rewrite acos_c_some by lra. cbn [obind].
      rewrite Rneb_false by exact Hes.
      rewrite acos_1. cbn [inv_top_lon]. unfold half_pi.
      f_equal. f_equal; ring.
    + intros lp_lat Hlat. unfold fwd, fwd_geocentric_lat. rewrite Rneb_false by exact Hes.
      rewrite Hf. cbn [fwd_phi_theta obind].
      destruct (fwd_top_theta_facts PI ltac:(lra))
        as (Ht & Hlo & Hhi & _ & Elon).
      cbv zeta in *.
      destruct (fwd_top_theta PI) as [theta area]. cbn [fst snd] in *.
      assert (Hphi : 0 < half_pi - lp_lat <= PI) by (unfold half_pi; lra).
      destruct (inv_of_area_of_definition par pp (half_pi - lp_lat) theta area
                  Hphi Ht Hlo Hhi) as (x & y & Efwd & Einv).
      exists x, y. split; [exact Efwd |].
      rewrite Einv, Hf.
      pose proof (COS_bound (half_pi - lp_lat)).
      rewrite acos_c_some by lra. cbn [obind].
      rewrite Rneb_false by exact Hes.
      rewrite acos_cos by lra. rewrite Elon by reflexivity.
      f_equal. f_equal. ring.
  - split; [| split].
    + intros lp_lon Hlon. unfold fwd, fwd_geocentric_lat. rewrite Rneb_false by exact Hes.
      rewrite Hf. cbn [fwd_phi_theta obind].
      destruct (fwd_bottom_theta_facts lp_lon Hlon) as (Ht & _).
      destruct (fwd_bottom_theta lp_lon) as [theta area]. cbn [fst] in Ht.
      apply Hzero; [exact Ht |].
      unfold half_pi. replace (PI / 2 + - (PI / 2)) with 0 by ring.
      apply cos_0.
    + rewrite inv_on_x_axis by lra. rewrite Hcl, Hf.
      rewrite acos_c_some by lra. cbn [obind].
      rewrite Rneb_false by exact Hes.
      rewrite acos_1. cbn [inv_bottom_lon]. unfold half_pi.
      f_equal. f_equal; ring.
    + intros lp_lat Hlat. unfold fwd, fwd_geocentric_lat. rewrite Rneb_false by exact Hes.
      rewrite Hf. cbn [fwd_phi_theta obind].
      destruct (fwd_bottom_theta_facts (- PI) ltac:(lra))
        as (Ht & Hlo & Hhi & _ & Elon).
      cbv zeta in *.
      destruct (fwd_bottom_theta (- PI)) as [theta area]. cbn [fst snd] in *.
      assert (Hphi : 0 < half_pi + lp_lat <= PI) by (unfold half_pi; lra).
      destruct (inv_of_area_of_definition par pp (half_pi + lp_lat) theta area
                  Hphi Ht Hlo Hhi) as (x & y & Efwd & Einv).
      exists x, y. split; [exact Efwd |].
      rewrite Einv, Hf.
      pose proof (COS_bound (half_pi + lp_lat)).
      rewrite acos_c_some by lra. cbn [obind].
      rewrite Rneb_false by exact Hes.
      rewrite acos_cos by lra. rewrite Elon by reflexivity.
      f_equal. f_equal. ring.
Qed.





End QscEdges.

(** ** The coefficient tables *)

Section SeriesMore.
Import SeriesExpansion SeriesCoeffs.

(** Evaluate the selector of a [switch] on the size of an array of known
    length, and run the assignments of the selected case. *)
Ltac run_switch :=
  cbn [List.length];
  repeat match goal with
    | |- context [Z.of_nat ?n] =>
        let v := eval vm_compute in (Z.of_nat n) in
        change (Z.of_nat n) with v
    end;
  repeat match goal with
    | |- context [(Z.pos ?p - 1)%Z] =>
        let v := eval vm_compute in (Z.pos p - 1)%Z in
        change (Z.pos p - 1)%Z with v
    | |- context [(0 - 1)%Z] => change (0 - 1)%Z with (-1)%Z
    end;
  cbv beta iota zeta;
  cbn [store obind].

(** A selector known to be at least eight takes the [default] case. *)
Ltac take_default z Hz :=
  destruct z as [| p | p]; [lia | | lia];
  destruct p as [[[p | p |] | [p | p |] |] | [[p | p |] | [p | p |] |] |];
  try lia; clear Hz;
  cbv beta iota zeta; cbn [store obind].

Lemma store_length (c c' : list R) (i : nat) (v : R) :
  store c i v = Some c' -> List.length c' = List.length c.
Proof.
  revert c' i. induction c as [| x c IH]; intros c' i E; [discriminate |].
  destruct i as [| i]; cbn [store] in E.
  - injection E as <-. reflexivity.
  - destruct (store c i v) as [c'' |] eqn:E'; [| discriminate].
    cbn [obind] in E. injection E as <-. cbn [List.length].
    f_equal. eapply IH. exact E'.
Qed.

Lemma store_some (c : list R) (i : nat) (v : R) :
  (i < List.length c)%nat -> exists c', store c i v = Some c'.
Proof.
  revert i. induction c as [| x c IH]; intros i Hi; cbn [List.length] in Hi;
    [lia |].
  destruct i as [| i]; cbn [store]; [eauto |].
  destruct (IH i ltac:(lia)) as [c' E]. rewrite E. cbn [obind]. eauto.
Qed.

Lemma store_none (c : list R) (i : nat) (v : R) :
  (List.length c <= i)%nat -> store c i v = None.
Proof.
  revert i. induction c as [| x c IH]; intros i Hi; cbn [List.length] in Hi;
    [destruct i; reflexivity |].
  destruct i as [| i]; [lia |]. cbn [store]. rewrite IH by lia. reflexivity.
Qed.

Lemma store_at (c c' : list R) (i j : nat) (v : R) :
  store c i v = Some c' ->
  at_ c' j = if (j =? i)%nat then v else at_ c j.
Proof.
  unfold at_. revert c' i j.
  induction c as [| x c IH]; intros c' i j E; [discriminate |].
  destruct i as [| i]; cbn [store] in E.
  - injection E as <-. destruct j; reflexivity.
  - destruct (store c i v) as [c'' |] eqn:E'; [| discriminate].
    cbn [obind] in E. injection E as <-.
    destruct j as [| j]; [reflexivity |]. cbn [nth Nat.eqb].
    eapply IH. exact E'.
Qed.

(** What the three tables in [eps] have in common: the empty array is
    written out of range; any other array keeps its length, its element
    0 and its elements from index 9 on. *)
Local Abbreviation table_writes f :=
  (forall (c : list R) (eps : R),
     (c = [] -> f c eps = None) /\
     (c <> [] ->
      exists c',
        f c eps = Some c' /\
        List.length c' = List.length c /\
        at_ c' 0 = at_ c 0 /\
        (forall i, (9 <= i)%nat -> at_ c' i = at_ c i))).

Ltac table_writes_tac f :=
  intros c eps; split; [intros ->; reflexivity |];
  intros Hne;
  destruct c as [| c0 [| c1 [| c2 [| c3 [| c4 [| c5 [| c6 [| c7 [| c8 rest]]]]]]]]];
  [ exfalso; apply Hne; reflexivity
  | unfold f; run_switch .. 
  | unfold f;
    cbn [List.length];
    set (z := (Z.of_nat _ - 1)%Z);
    assert (Hz : (8 <= z)%Z) by (unfold z; lia);
    clearbody z; take_default z Hz ];
  (eexists; split; [reflexivity |]; split; [reflexivity |];
   split; [reflexivity |];
   intros i Hi; unfold at_;
   do 9 (destruct i as [| i]; [lia |]); cbn [nth];
   try reflexivity; destruct i; reflexivity).

(** X21. What [evaluate_coeffs_C1], [evaluate_coeffs_C1p] and
    [evaluate_coeffs_C2] write: on the empty array the [switch] takes the
    [default] case and the first assignment is out of range; on any other
    array every assignment is in range, the length is kept, element 0 is
    left as it was, and so is every element from index 9 on. *)
Theorem evaluate_coeffs_C1_C1p_C2_writes :
  table_writes evaluate_coeffs_C1 /\
  table_writes evaluate_coeffs_C1p /\
  table_writes evaluate_coeffs_C2.
Proof.
  split; [| split].
  - table_writes_tac evaluate_coeffs_C1.
  - table_writes_tac evaluate_coeffs_C1p.
  - table_writes_tac evaluate_coeffs_C2.
Qed.

Lemma clenshaw_loop_ext (n : nat) (ar : R) (c c' : list R)
    (index : nat) (k0 k1 : R) :
  (2 * n < index)%nat ->
  (forall i, (1 <= i)%nat -> at_ c i = at_ c' i) ->
  clenshaw_loop n ar c index k0 k1 = clenshaw_loop n ar c' index k0 k1.
Proof.
  intros Hi Hext. revert index k0 k1 Hi.
  induction n as [| n IH]; intros index k0 k1 Hi; [reflexivity |].
  cbn [clenshaw_loop]. cbv zeta.
  rewrite (Hext (pred index)) by lia.
  rewrite (Hext (pred (pred index))) by lia.
  apply IH. lia.
Qed.

Lemma sin_cos_series_ext (sinx cosx : R) (c c' : list R) :
  List.length c = List.length c' ->
  (forall i, (1 <= i)%nat -> at_ c i = at_ c' i) ->
  sin_cos_series sinx cosx c = sin_cos_series sinx cosx c'.
Proof.
  intros Hlen Hext. unfold sin_cos_series. rewrite <- Hlen.
  set (n := (List.length c - 1)%nat).
  cbv zeta.
  destruct (Nat.odd n) eqn:Hodd.
  - assert (Hn : (1 <= n)%nat) by (destruct n; [discriminate | lia]).
    rewrite (Hext (pred (0 + (n + 1)))) by lia.
    rewrite (clenshaw_loop_ext (n / 2) _ c c'); [reflexivity | | exact Hext].
    pose proof (Nat.Div0.mul_div_le n 2).
    assert (2 * (n / 2) <> n)%nat.
    { intros E. rewrite <- E in Hodd. rewrite Nat.odd_mul in Hodd.
      discriminate. }
    lia.
  - rewrite (clenshaw_loop_ext (n / 2) _ c c'); [reflexivity | | exact Hext].
    pose proof (Nat.Div0.mul_div_le n 2). lia.
Qed.

(** X22. [sin_cos_series] never reads element 0 of the coefficient array:
    for every [sinx], [cosx] and every array, the result does not depend
    on that element. *)
Theorem sin_cos_series_ignores_element_0 (sinx cosx c0 c0' : R)
    (coeffs : list R) :
  sin_cos_series sinx cosx (c0 :: coeffs)
  = sin_cos_series sinx cosx (c0' :: coeffs).
Proof.
  apply sin_cos_series_ext; [reflexivity |].
  intros [| i] Hi; [lia | reflexivity].
Qed.

(** Up to nine elements, the sum over a table does not depend on what
    the array held before the table was written. *)
Local Abbreviation table_initialised f :=
  (forall (c c0 : list R) (eps sinx cosx : R),
     (1 <= List.length c <= 9)%nat -> List.length c0 = List.length c ->
     exists r r0,
       f c eps = Some r /\ f c0 eps = Some r0 /\
       sin_cos_series sinx cosx r = sin_cos_series sinx cosx r0).

(** With ten elements it does: element 9 is read and was never written. *)
Local Abbreviation table_reads_unassigned f :=
  (exists (c c0 r r0 : list R) (eps x : R),
     List.length c = 10%nat /\ List.length c0 = 10%nat /\
     f c eps = Some r /\ f c0 eps = Some r0 /\
     sin_cos_series (sin x) (cos x) r <> sin_cos_series (sin x) (cos x) r0).

Ltac table_initialised_tac f :=
  intros c c0 eps sinx cosx Hlen Hlen0;
  destruct c as [| c0' [| c1 [| c2 [| c3 [| c4 [| c5 [| c6 [| c7 [| c8 [| c9 rest]]]]]]]]]];
  cbn [List.length] in Hlen, Hlen0; try lia;
  destruct c0 as [| d0 [| d1 [| d2 [| d3 [| d4 [| d5 [| d6 [| d7 [| d8 [| d9 rest]]]]]]]]]];
  cbn [List.length] in Hlen0; try lia;
  unfold f; run_switch;
  (eexists; eexists; split; [reflexivity |]; split; [reflexivity |];
   apply sin_cos_series_ext; [reflexivity |];
   intros [| i] Hi; [lia | reflexivity]).

Ltac table_reads_unassigned_tac f :=
  exists [0; 0; 0; 0; 0; 0; 0; 0; 0; 1], [0; 0; 0; 0; 0; 0; 0; 0; 0; 0];
  eexists; eexists; exists 0, (PI / 4);
  split; [reflexivity |]; split; [reflexivity |];
  unfold f; run_switch;
  split; [reflexivity |]; split; [reflexivity |];
  unfold sin_cos_series; cbn [List.length Nat.sub Nat.add];
  change (Nat.odd 9) with true; change (9 / 2)%nat with 4%nat;
  cbv beta iota zeta;
  cbn [clenshaw_loop pred at_ nth];
  rewrite sin_PI4, cos_PI4; unfold sqr;
  pose proof sqrt2_neq_0 as Hs2;
  pose proof (sqrt_sqrt 2 ltac:(lra)) as Hss;
  intros E;
  match type of E with
  | ?l = ?r =>
      assert (El : l = 1) by
        (transitivity (2 / (sqrt 2 * sqrt 2)); [field; exact Hs2 |];
         rewrite Hss; field);
      assert (Er : r = 0) by (field; exact Hs2)
  end;
  lra.

(** X23. For arrays of 1 to 9 elements (series orders 0 to 8) the sum
    [sin_cos_series] computes over a table written by
    [evaluate_coeffs_C1], [_C1p] or [_C2] does not depend on what the
    array held before; with 10 elements it does: element 9 is read and
    was never written. *)
Theorem coeffs_tables_initialised_up_to_order_8 :
  (table_initialised evaluate_coeffs_C1 /\
   table_initialised evaluate_coeffs_C1p /\
   table_initialised evaluate_coeffs_C2) /\
  (table_reads_unassigned evaluate_coeffs_C1 /\
   table_reads_unassigned evaluate_coeffs_C1p /\
   table_reads_unassigned evaluate_coeffs_C2).
Proof.
  split; (split; [| split]).
  - table_initialised_tac evaluate_coeffs_C1.
  - table_initialised_tac evaluate_coeffs_C1p.
  - table_initialised_tac evaluate_coeffs_C2.
  - table_reads_unassigned_tac evaluate_coeffs_C1.
  - table_reads_unassigned_tac evaluate_coeffs_C1p.
  - table_reads_unassigned_tac evaluate_coeffs_C2.
Qed.

(** Raising the order by one changes each coefficient by one term, the
    power [eps ^ (k + 1)] with a constant factor: every table extends
    the one before it. *)
Local Abbreviation table_nested f :=
  (forall (k l : nat) (c c' : list R),
     (1 <= l <= k)%nat -> (k <= 7)%nat ->
     List.length c = S k -> List.length c' = S (S k) ->
     exists a,
       forall eps,
         exists r r',
           f c eps = Some r /\ f c' eps = Some r' /\
           at_ r' l - at_ r l = a * eps ^ (S k)).

Ltac table_nested_tac f :=
  intros k l c c' Hl Hk Hlen Hlen';
  do 8 (try (destruct k as [| k])); try lia;
  do 8 (try (destruct l as [| l])); try lia;
  (destruct c as [| c0 [| c1 [| c2 [| c3 [| c4 [| c5 [| c6 [| c7 [| c8 rest]]]]]]]]];
   cbn [List.length] in Hlen; try lia);
  (destruct c' as [| d0 [| d1 [| d2 [| d3 [| d4 [| d5 [| d6 [| d7 [| d8 [| d9 rest']]]]]]]]]];
   cbn [List.length] in Hlen'; try lia);
  clear Hl Hk Hlen Hlen';
  match goal with
  | |- exists a, forall eps, exists r r',
         f ?c eps = _ /\ f ?c' eps = _ /\ at_ r' ?l - at_ r ?l = _ =>
      exists (match f c' 1 with Some r' => at_ r' l | None => 0 end
              - match f c 1 with Some r => at_ r l | None => 0 end)
  end;
  intros eps; unfold f; run_switch;
  (eexists; eexists; split; [reflexivity |]; split; [reflexivity |]);
  cbv beta iota; cbn [at_ nth]; unfold sqr; field.

(** X24. The tables of [evaluate_coeffs_C1], [_C1p] and [_C2] extend one
    another: going from order [k] to order [k + 1] (for [k] from 1 to 7)
    changes the coefficient [c[l]], for every [l] from 1 to [k], by a
    constant multiple of [eps^(k+1)] and by nothing else. *)
Theorem evaluate_coeffs_C1_C1p_C2_nested :
  table_nested evaluate_coeffs_C1 /\
  table_nested evaluate_coeffs_C1p /\
  table_nested evaluate_coeffs_C2.
Proof.
  split; [| split].
  - table_nested_tac evaluate_coeffs_C1.
  - table_nested_tac evaluate_coeffs_C1p.
  - table_nested_tac evaluate_coeffs_C2.
Qed.

(** X25. The cases of [evaluate_A1] and of [evaluate_A2] are truncations
    of one series each: order [n] keeps the first [n / 2] terms of
    [eps^2/4 + eps^4/64 + eps^6/256 + 25 eps^8/16384] (for [n <= 9]),
    and of [-3 eps^2/4 - 7 eps^4/64 - 11 eps^6/256 - 375 eps^8/16384]
    (for every [n]: from order 10 on [evaluate_A2] stays at order 8). *)
Theorem evaluate_A1_A2_truncate_one_series (SeriesOrder : nat) (eps : R) :
  ((SeriesOrder <= 9)%nat ->
   evaluate_A1 SeriesOrder eps
   = Some ((power_sum (firstn (SeriesOrder / 2)
                         [1 / 4; 1 / 64; 1 / 256; 25 / 16384])
              (sqr eps) 0 + eps) / (1 - eps))) /\
  evaluate_A2 SeriesOrder eps
  = Some ((power_sum (firstn (SeriesOrder / 2)
                        [- 3 / 4; - 7 / 64; - 11 / 256; - 375 / 16384])
             (sqr eps) 0 - eps) / (1 + eps)).
Proof.
  split.
  - intros Hn. unfold evaluate_A1.
    assert (Hh : (SeriesOrder / 2 < 5)%nat).
    { apply Nat.Div0.div_lt_upper_bound. lia. }
    set (h := (SeriesOrder / 2)%nat) in *. clearbody h.
    destruct h as [| [| [| [| [| h]]]]]; try lia;
      cbn [obind firstn power_sum]; unfold sqr;
      f_equal; f_equal; f_equal; cbn [pow]; field.
  - unfold evaluate_A2.
    destruct (SeriesOrder / 2)%nat as [| [| [| [| h]]]];
      cbn [obind firstn power_sum]; unfold sqr;
      f_equal; f_equal; f_equal; cbn [pow]; try field.
    destruct h; cbn [firstn power_sum pow]; field.
Qed.

(** X26. [evaluate_coeffs_A3] writes within the array for every size,
    the empty one included, and keeps the length; up to 8 elements every
    element is assigned, so that the result does not depend on what the
    array held; from index 8 on nothing is ever assigned. *)
Theorem evaluate_coeffs_A3_writes (c : list R) (n : R) :
  exists c',
    evaluate_coeffs_A3 c n = Some c' /\
    List.length c' = List.length c /\
    (forall i, (8 <= i)%nat -> at_ c' i = at_ c i) /\
    ((List.length c <= 8)%nat ->
     forall c0, List.length c0 = List.length c ->
                evaluate_coeffs_A3 c0 n = Some c').
Proof.
  destruct c as [| c0 [| c1 [| c2 [| c3 [| c4 [| c5 [| c6 [| c7 rest]]]]]]]].
  1-8: unfold evaluate_coeffs_A3; run_switch;
    (eexists; split; [reflexivity |]; split; [reflexivity |]; split;
     [ intros i Hi; unfold at_;
       do 8 (destruct i as [| i]; [lia |]); cbn [nth]; destruct i; reflexivity
     | intros _ d Hd;
       destruct d as [| d0 [| d1 [| d2 [| d3 [| d4 [| d5 [| d6 [| d7 rest]]]]]]]];
       cbn [List.length] in Hd; try lia;
       run_switch; reflexivity ]).
  unfold evaluate_coeffs_A3 at 1. cbn [List.length].
  set (z := Z.of_nat _).
  assert (Hz : (8 <= z)%Z) by (unfold z; lia).
  clearbody z. take_default z Hz.
  all: eexists; split; [reflexivity |]; split; [reflexivity |]; split;
    [ intros i Hi; unfold at_;
      do 8 (destruct i as [| i]; [lia |]); reflexivity
    | intros Hlen d Hd; cbn [List.length] in Hlen, Hd;
      destruct rest; cbn [List.length] in Hlen, Hd; [| lia];
      destruct d as [| d0 [| d1 [| d2 [| d3 [| d4 [| d5 [| d6 [| d7 [| d8 rest]]]]]]]]];
      cbn [List.length] in Hd; try lia;
      unfold evaluate_coeffs_A3; run_switch; reflexivity ].
Qed.

(** X27. The tables of [evaluate_coeffs_A3] extend one another: going
    from size [k] to size [k + 1] (for [k] from 1 to 7) changes the
    coefficient [c[j]], for [j < k], by a constant multiple of
    [n^(k-j)] and by nothing else. *)
Theorem evaluate_coeffs_A3_nested (k j : nat) (c c' : list R) :
  (j < k)%nat -> (1 <= k <= 7)%nat ->
  List.length c = k -> List.length c' = S k ->
  exists a,
    forall n,
      exists r r',
        evaluate_coeffs_A3 c n = Some r /\
        evaluate_coeffs_A3 c' n = Some r' /\
        at_ r' j - at_ r j = a * n ^ (k - j).
Proof.
  intros Hj Hk Hlen Hlen'.
  do 8 (try (destruct k as [| k])); try lia;
  do 8 (try (destruct j as [| j])); try lia;
  (destruct c as [| c0 [| c1 [| c2 [| c3 [| c4 [| c5 [| c6 [| c7 rest]]]]]]]];
   cbn [List.length] in Hlen; try lia);
  (destruct c' as [| d0 [| d1 [| d2 [| d3 [| d4 [| d5 [| d6 [| d7 [| d8 rest']]]]]]]]];
   cbn [List.length] in Hlen'; try lia);
  clear Hj Hk Hlen Hlen';
  match goal with
  | |- exists a, forall n, exists r r',
         _ ?c n = _ /\ _ ?c' n = _ /\ at_ r' ?l - at_ r ?l = _ =>
      exists (match evaluate_coeffs_A3 c' 1 with
              | Some r' => at_ r' l | None => 0 end
              - match evaluate_coeffs_A3 c 1 with
                | Some r => at_ r l | None => 0 end)
  end;
  intros n; unfold evaluate_coeffs_A3; run_switch;
  (eexists; eexists; split; [reflexivity |]; split; [reflexivity |]);
  cbv beta iota; cbn [at_ nth Nat.sub]; field.
Qed.

Lemma triangle_closed (n : nat) : triangle n = (n * (n + 1) / 2)%nat.
Proof.
  induction n as [| n IH]; [reflexivity |].
  cbn [triangle]. rewrite IH.
  replace (S n * (S n + 1))%nat with (n * (n + 1) + S n * 2)%nat by lia.
  rewrite Nat.div_add by lia. lia.
Qed.

Lemma triangle_size (SeriesOrder : nat) :
  triangle (SeriesOrder - 1) = (SeriesOrder * (SeriesOrder - 1) / 2)%nat.
Proof.
  rewrite triangle_closed. destruct SeriesOrder as [| n]; [reflexivity |].
  replace (S n - 1)%nat with n by lia.
  f_equal. lia.
Qed.

Lemma triangle_mono (a b : nat) : (a <= b)%nat -> (triangle a <= triangle b)%nat.
Proof.
  induction 1 as [| b Hab IH]; [lia |]. cbn [triangle]. lia.
Qed.

Lemma slice_some (c : list R) (offset m : nat) :
  (offset + m <= List.length c)%nat ->
  slice c offset m = Some (firstn m (skipn offset c)).
Proof.
  intros H. unfold slice.
  destruct (Nat.leb_spec (offset + m) (List.length c)); [reflexivity | lia].
Qed.

Lemma slice_none (c : list R) (offset m : nat) :
  (List.length c < offset + m)%nat -> slice c offset m = None.
Proof.
  intros H. unfold slice.
  destruct (Nat.leb_spec (offset + m) (List.length c)); [lia | reflexivity].
Qed.

Section C3Loop.
Variable horner_evaluate : R -> list R -> R.

Lemma evaluate_coeffs_C3_loop_spec (remaining : nat) :
  forall (i : nat) (mult : R) (offset : nat) (coeffs1 coeffs2 : list R)
         (eps : R),
    List.length coeffs1 = (i + remaining)%nat ->
    (offset + triangle remaining <= List.length coeffs2)%nat ->
    exists r,
      evaluate_coeffs_C3_loop horner_evaluate remaining i mult offset
        coeffs1 coeffs2 eps
      = Some (r, mult * eps ^ remaining, (offset + triangle remaining)%nat) /\
      List.length r = List.length coeffs1 /\
      (forall j, (j < i)%nat -> at_ r j = at_ coeffs1 j) /\
      (forall j, (i <= j < i + remaining)%nat ->
         at_ r j
         = mult * eps ^ (j - i + 1)
           * horner_evaluate eps
               (firstn (i + remaining - j)
                  (skipn (offset + triangle remaining
                          - triangle (i + remaining - j)) coeffs2))).
Proof.
  induction remaining as [| r' IH];
    intros i mult offset coeffs1 coeffs2 eps Hlen Hc2.
  - exists coeffs1. cbn [evaluate_coeffs_C3_loop triangle pow].
    rewrite Rmult_1_r, Nat.add_0_r.
    repeat split; intros; try reflexivity; lia.
  - cbn [evaluate_coeffs_C3_loop]. cbv zeta.
    cbn [triangle] in Hc2.
    replace (List.length coeffs1 - i)%nat with (S r') by lia.
    rewrite slice_some by lia. cbn [obind].
    destruct (store_some coeffs1 i
                (mult * eps
                 * horner_evaluate eps (firstn (S r') (skipn offset coeffs2)))
                ltac:(lia)) as [c1 Ec1].
    rewrite Ec1. cbn [obind].
    pose proof (store_length _ _ _ _ Ec1) as Hlen1.
    destruct (IH (S i) (mult * eps) (offset + S r')%nat c1 coeffs2 eps
                ltac:(lia) ltac:(lia)) as (r & E & Hlr & Hlow & Hrow).
    exists r. rewrite E. split; [| split; [| split]].
    + f_equal. f_equal; [f_equal |].
      * cbn [pow]. ring.
      * cbn [triangle]. lia.
    + lia.
    + intros j Hj. rewrite Hlow by lia.
      rewrite (store_at _ _ _ j _ Ec1).
      destruct (Nat.eqb_spec j i); [lia | reflexivity].
    + intros j Hj.
      destruct (Nat.eq_dec j i) as [-> | Hne].
      * rewrite Hlow by lia. rewrite (store_at _ _ _ i _ Ec1).
        rewrite Nat.eqb_refl.
        replace (i - i + 1)%nat with 1%nat by lia.
        replace (i + S r' - i)%nat with (S r') by lia.
        replace (offset + triangle (S r') - triangle (S r'))%nat with offset
          by lia.
        cbn [pow]. rewrite Rmult_1_r. reflexivity.
      * rewrite Hrow by lia.
        replace (j - S i + 1)%nat with (j - i)%nat by lia.
        replace (j - i + 1)%nat with (S (j - i)) by lia.
        replace (S i + r' - j)%nat with (i + S r' - j)%nat by lia.
        replace (offset + S r' + triangle r')%nat
          with (offset + triangle (S r'))%nat by (cbn [triangle]; lia).
        cbn [pow]. ring.
Qed.

Lemma evaluate_coeffs_C3_loop_short (remaining : nat) :
  forall (i : nat) (mult : R) (offset : nat) (coeffs1 coeffs2 : list R)
         (eps : R),
    List.length coeffs1 = (i + remaining)%nat ->
    (offset <= List.length coeffs2)%nat ->
    (List.length coeffs2 < offset + triangle remaining)%nat ->
    evaluate_coeffs_C3_loop horner_evaluate remaining i mult offset
      coeffs1 coeffs2 eps = None.
Proof.
  induction remaining as [| r' IH];
    intros i mult offset coeffs1 coeffs2 eps Hlen Hoff Hc2.
  - cbn [triangle] in Hc2. lia.
  - cbn [evaluate_coeffs_C3_loop]. cbv zeta. cbn [triangle] in Hc2.
    replace (List.length coeffs1 - i)%nat with (S r') by lia.
    destruct (Nat.le_gt_cases (offset + S r') (List.length coeffs2))
      as [Hin | Hout].
    + rewrite slice_some by exact Hin. cbn [obind].
      destruct (store coeffs1 i _) as [c1 |] eqn:Ec1; [| reflexivity].
      cbn [obind].
      pose proof (store_length _ _ _ _ Ec1) as Hlen1.
      apply IH; lia.
    + rewrite slice_none by exact Hout. reflexivity.
Qed.

(** X28. The loop of [evaluate_coeffs_C3] ends with [offset] equal to
    [size * (size - 1) / 2], the post-condition its comment states, as
    soon as [coeffs2] has that many elements; then [coeffs1] keeps its
    length and its element 0, and element [i] is [eps^i] times the
    Horner value of row [i] of [coeffs2]; with fewer elements in
    [coeffs2] a range runs past its end. *)
Theorem evaluate_coeffs_C3_postcondition (coeffs1 coeffs2 : list R)
    (eps : R) :
  let size := List.length coeffs1 in
  let coeffs_C3_size := (size * (size - 1) / 2)%nat in
  ((coeffs_C3_size <= List.length coeffs2)%nat ->
   exists r,
     evaluate_coeffs_C3 horner_evaluate coeffs1 coeffs2 eps
     = Some (r, coeffs_C3_size) /\
     List.length r = size /\
     at_ r 0 = at_ coeffs1 0 /\
     (forall i, (1 <= i < size)%nat ->
        at_ r i
        = eps ^ i
          * horner_evaluate eps
              (firstn (size - i)
                 (skipn (coeffs_C3_size - triangle (size - i)) coeffs2)))) /\
  ((List.length coeffs2 < coeffs_C3_size)%nat ->
   evaluate_coeffs_C3 horner_evaluate coeffs1 coeffs2 eps = None).
Proof.
  cbv zeta. rewrite <- triangle_size.
  unfold evaluate_coeffs_C3.
  destruct coeffs1 as [| c0 coeffs1].
  - cbn [List.length Nat.sub triangle evaluate_coeffs_C3_loop obind].
    split; [| lia].
    intros _. exists []. repeat split. intros; lia.
  - set (c1 := c0 :: coeffs1).
    assert (Hlen : List.length c1 = (1 + (List.length c1 - 1))%nat)
      by (unfold c1; cbn [List.length]; lia).
    split.
    + intros Hc2.
      destruct (evaluate_coeffs_C3_loop_spec (List.length c1 - 1) 1 1 0
                  c1 coeffs2 eps Hlen ltac:(lia))
        as (r & E & Hlr & Hlow & Hrow).
      exists r. rewrite E. cbn [obind].
      split; [reflexivity |]. split; [exact Hlr |].
      split; [apply Hlow; lia |].
      intros i Hi. rewrite Hrow by lia.
      replace (i - 1 + 1)%nat with i by lia.
      replace (1 + (List.length c1 - 1) - i)%nat
        with (List.length c1 - i)%nat by lia.
      rewrite Rmult_1_l. reflexivity.
    + intros Hc2.
      rewrite (evaluate_coeffs_C3_loop_short (List.length c1 - 1) 1 1 0
                 c1 coeffs2 eps Hlen ltac:(lia) ltac:(lia)).
      reflexivity.
Qed.

End C3Loop.

(** Turn a list of known length into its elements. *)
Ltac split_list c H :=
  cbn [List.length] in H;
  destruct c as [| ?x c];
  [ try (exfalso; cbn [List.length] in H; lia)
  | cbn [List.length] in H; try (exfalso; lia); try split_list c H ].

Ltac closed_size H :=
  match type of H with
  | _ = ?e => let v := eval vm_compute in e in change e with v in H
  end.

Ltac run_C3x :=
  unfold evaluate_coeffs_C3x;
  match goal with
  | |- context [negb ?b] =>
      let v := eval vm_compute in (negb b) in change (negb b) with v
  end;
  cbv beta iota zeta; cbn [store obind].

(** X29. [evaluate_coeffs_C3x] asserts that the array has
    [SeriesOrder * (SeriesOrder - 1) / 2] elements; when it has, then up
    to order 8 every element is assigned (the result does not depend on
    what the array held), while from order 9 on only the first 28 are:
    every element from index 28 on is left as it was. *)
Theorem evaluate_coeffs_C3x_fills_up_to_order_8 (SeriesOrder : nat)
    (c : list R) (n : R) :
  (List.length c <> (SeriesOrder * (SeriesOrder - 1) / 2)%nat ->
   evaluate_coeffs_C3x SeriesOrder c n = None) /\
  (List.length c = (SeriesOrder * (SeriesOrder - 1) / 2)%nat ->
   (SeriesOrder <= 8)%nat ->
   exists r,
     evaluate_coeffs_C3x SeriesOrder c n = Some r /\
     List.length r = List.length c /\
     forall c0, List.length c0 = List.length c ->
                evaluate_coeffs_C3x SeriesOrder c0 n = Some r) /\
  (List.length c = (SeriesOrder * (SeriesOrder - 1) / 2)%nat ->
   (9 <= SeriesOrder)%nat ->
   exists r,
     evaluate_coeffs_C3x SeriesOrder c n = Some r /\
     forall i, (28 <= i)%nat -> at_ r i = at_ c i).
Proof.
  split; [| split].
  - intros Hne. unfold evaluate_coeffs_C3x.
    destruct (Nat.eqb_spec (List.length c)
                (SeriesOrder * (SeriesOrder - 1) / 2)); [contradiction |].
    reflexivity.
  - intros Hlen Hord.
    do 9 (try (destruct SeriesOrder as [| SeriesOrder])); try lia;
      closed_size Hlen; split_list c Hlen;
      run_C3x;
      (eexists; split; [reflexivity |]; split; [reflexivity |];
       intros c0 Hc0; cbn [List.length] in Hc0; split_list c0 Hc0;
       run_C3x; reflexivity).
  - intros Hlen Hord. unfold evaluate_coeffs_C3x.
    rewrite Hlen, Nat.eqb_refl. cbn [negb].
    rewrite <- triangle_size in Hlen.
    pose proof (triangle_mono 8 (SeriesOrder - 1) ltac:(lia)) as Hmono.
    change (triangle 8) with 36%nat in Hmono.
    rewrite <- Hlen in Hmono. clear Hlen.
    do 9 (destruct SeriesOrder as [| SeriesOrder]; [lia |]).
    do 28 (destruct c as [| ?x c]; [cbn [List.length] in Hmono; lia |]).
    cbv beta iota zeta. cbn [store obind].
    eexists. split; [reflexivity |].
    intros i Hi. unfold at_.
    do 28 (destruct i as [| i]; [lia |]). reflexivity.
Qed.

(** X30. The triangular tables of [evaluate_coeffs_C3x] extend one
    another: for orders 2 to 7, row [l] of the table of order
    [SeriesOrder + 1] starts with row [l] of the table of order
    [SeriesOrder], element by element; the next order only appends one
    element to each row and one row. *)
Theorem evaluate_coeffs_C3x_rows_nested (SeriesOrder : nat)
    (c c' : list R) (n : R) :
  (2 <= SeriesOrder <= 7)%nat ->
  List.length c = (SeriesOrder * (SeriesOrder - 1) / 2)%nat ->
  List.length c' = (S SeriesOrder * (S SeriesOrder - 1) / 2)%nat ->
  exists r r',
    evaluate_coeffs_C3x SeriesOrder c n = Some r /\
    evaluate_coeffs_C3x (S SeriesOrder) c' n = Some r' /\
    forall l j,
      (1 <= l)%nat -> (l + j < SeriesOrder)%nat ->
      at_ r' (triangle SeriesOrder - triangle (S SeriesOrder - l) + j)
      = at_ r (triangle (SeriesOrder - 1) - triangle (SeriesOrder - l) + j).
Proof.
  intros Hord Hlen Hlen'.
  do 8 (try (destruct SeriesOrder as [| SeriesOrder])); try lia;
    closed_size Hlen; closed_size Hlen';
    split_list c Hlen; split_list c' Hlen';
    run_C3x; run_C3x;
    (eexists; eexists; split; [reflexivity |]; split; [reflexivity |]);
    intros l j Hl Hj;
    do 7 (try (destruct l as [| l])); try lia;
    do 7 (try (destruct j as [| j])); try lia;
    reflexivity.
Qed.

End SeriesMore.

(** ** The further properties on concrete inputs *)

Lemma cass_s_fwd_after_inv_witness :
  Cass.s_fwd (mk_parameters 1 0 0 0 (fun _ => 0))
    (fst (Cass.s_inv (mk_parameters 1 0 0 0 (fun _ => 0)) (1 / 2) (1 / 4)))
    (snd (Cass.s_inv (mk_parameters 1 0 0 0 (fun _ => 0)) (1 / 2) (1 / 4)))
  = (1 / 2, 1 / 4).
Proof.
  apply cass_s_fwd_after_inv; cbn [phi0]; pose proof PI2_1; lra.
Defined.

Lemma cass_e_central_meridian_witness :
  Cass.e_inv (MA := Samples.unit_sphere_arc)
    (mk_parameters 1 (1 / 4) 0 0 (fun _ => 0))
    (Cass.mk_par_cass 0 [1; 0; 0; 0; 0])
    (fst (Cass.e_fwd (MA := Samples.unit_sphere_arc)
            (mk_parameters 1 (1 / 4) 0 0 (fun _ => 0))
            (Cass.mk_par_cass 0 [1; 0; 0; 0; 0]) 0 (1 / 2)))
    (snd (Cass.e_fwd (MA := Samples.unit_sphere_arc)
            (mk_parameters 1 (1 / 4) 0 0 (fun _ => 0))
            (Cass.mk_par_cass 0 [1; 0; 0; 0; 0]) 0 (1 / 2)))
  = (0, 1 / 2).
Proof.
  refine (proj2 (cass_e_central_meridian (MA := Samples.unit_sphere_arc)
                   (mk_parameters 1 (1 / 4) 0 0 (fun _ => 0))
                   (Cass.mk_par_cass 0 [1; 0; 0; 0; 0]) (1 / 2) _ _ _)).
  - cbn [es]. lra.
  - apply Rgt_not_eq. apply cos_gt_0; pose proof PI2_1; lra.
  - reflexivity.
Defined.

(** The constant block of the cone tangent at latitude [1/2] on the
    unit sphere. *)
Lemma setup_eqdc_tangent_sample :
  Eqdc.setup_eqdc (MA := Samples.unit_sphere_arc)
    (Samples.conic_par 0 0 (1 / 2) (1 / 2))
  = Ok (Eqdc.mk_par_eqdc (1 / 2) (1 / 2) (sin (1 / 2))
          (1 / 2 + cos (1 / 2) / sin (1 / 2) - 0)
          (1 / 2 + cos (1 / 2) / sin (1 / 2))
          [1; 0; 0; 0; 0] false).
Proof.
  unfold Eqdc.setup_eqdc. cbn.
  rewrite Rltb_false
    by (unfold fabs, Eqdc.EPS10; rewrite Rabs_pos_eq by lra; lra).
  rewrite Rgeb_false
    by (unfold fabs, Eqdc.EPS10;
        replace (1 / 2 - 1 / 2) with 0 by field; rewrite Rabs_R0; lra).
  rewrite Rgtb_false by lra.
  reflexivity.
Qed.

Lemma sin_half_neq_0 : sin (1 / 2) <> 0.
Proof. apply Rgt_not_eq. apply sin_gt_0; pose proof PI2_1; lra. Qed.

Lemma eqdc_central_meridian_witness :
  Eqdc.fwd (MA := Samples.unit_sphere_arc)
    (Eqdc.mk_par_eqdc (1 / 2) (1 / 2) (sin (1 / 2))
       (1 / 2 + cos (1 / 2) / sin (1 / 2) - 0)
       (1 / 2 + cos (1 / 2) / sin (1 / 2))
       [1; 0; 0; 0; 0] false) 0 1
  = (0, 1 - 0).
Proof.
  exact (eqdc_central_meridian (MA := Samples.unit_sphere_arc)
           (Samples.conic_par 0 0 (1 / 2) (1 / 2)) _ 1
           setup_eqdc_tangent_sample).
Defined.

Lemma eqdc_standard_parallels_true_witness :
  Eqdc.n (Eqdc.mk_par_eqdc (1 / 2) (1 / 2) (sin (1 / 2))
            (1 / 2 + cos (1 / 2) / sin (1 / 2) - 0)
            (1 / 2 + cos (1 / 2) / sin (1 / 2))
            [1; 0; 0; 0; 0] false)
  * (Eqdc.c (Eqdc.mk_par_eqdc (1 / 2) (1 / 2) (sin (1 / 2))
               (1 / 2 + cos (1 / 2) / sin (1 / 2) - 0)
               (1 / 2 + cos (1 / 2) / sin (1 / 2))
               [1; 0; 0; 0; 0] false)
     - EqdcTerms.arc (MA := Samples.unit_sphere_arc)
         (Eqdc.mk_par_eqdc (1 / 2) (1 / 2) (sin (1 / 2))
            (1 / 2 + cos (1 / 2) / sin (1 / 2) - 0)
            (1 / 2 + cos (1 / 2) / sin (1 / 2))
            [1; 0; 0; 0; 0] false) (1 / 2))
  = EqdcTerms.parallel_radius (MA := Samples.unit_sphere_arc)
      (Samples.conic_par 0 0 (1 / 2) (1 / 2))
      (Eqdc.mk_par_eqdc (1 / 2) (1 / 2) (sin (1 / 2))
         (1 / 2 + cos (1 / 2) / sin (1 / 2) - 0)
         (1 / 2 + cos (1 / 2) / sin (1 / 2))
         [1; 0; 0; 0; 0] false) (1 / 2).
Proof.
  exact (proj1 (eqdc_standard_parallels_true (MA := Samples.unit_sphere_arc)
                  (Samples.conic_par 0 0 (1 / 2) (1 / 2)) _
                  setup_eqdc_tangent_sample sin_half_neq_0)).
Defined.

Lemma eqdc_fwd_after_inv_witness :
  Eqdc.fwd (MA := Samples.unit_sphere_arc)
    (Eqdc.mk_par_eqdc (1 / 2) (1 / 2) (sin (1 / 2)) 2 2 [1; 0; 0; 0; 0] false)
    (fst (Eqdc.inv (MA := Samples.unit_sphere_arc)
            (Samples.conic_par 0 0 (1 / 2) (1 / 2))
            (Eqdc.mk_par_eqdc (1 / 2) (1 / 2) (sin (1 / 2)) 2 2
               [1; 0; 0; 0; 0] false) 1 0))
    (snd (Eqdc.inv (MA := Samples.unit_sphere_arc)
            (Samples.conic_par 0 0 (1 / 2) (1 / 2))
            (Eqdc.mk_par_eqdc (1 / 2) (1 / 2) (sin (1 / 2)) 2 2
               [1; 0; 0; 0; 0] false) 1 0))
  = (1, 0).
Proof.
  apply (eqdc_fwd_after_inv (MA := Samples.unit_sphere_arc)).
  - exact sin_half_neq_0.
  - apply Rgt_not_eq. apply hypot_pos. left. lra.
  - cbn [Eqdc.ellips]. discriminate.
Defined.

(** The faces [setup_qsc] picks for a centre at the north pole and for
    a centre at the origin of the sphere. *)
Lemma setup_qsc_top_sample :
  Qsc.face (Qsc.setup_qsc (mk_parameters 1 0 (PI / 2) 0 (fun _ => 0))
              (Qsc.mk_par_qsc Qsc.FACE_FRONT 0 0 0 0)) = Qsc.FACE_TOP.
Proof.
  pose proof PI_RGT_0 as Hpi.
  unfold Qsc.setup_qsc. cbn [phi0 lam0 es].
  rewrite Rgeb_true by (unfold half_pi, FORTPI; lra).
  rewrite Rneb_false by reflexivity. reflexivity.
Qed.

Lemma setup_qsc_front_sample :
  Qsc.face (Qsc.setup_qsc (mk_parameters 1 0 0 0 (fun _ => 0))
              (Qsc.mk_par_qsc Qsc.FACE_BACK 0 0 0 0)) = Qsc.FACE_FRONT.
Proof.
  pose proof PI_RGT_0 as Hpi.
  unfold Qsc.setup_qsc. cbn [phi0 lam0 es].
  rewrite Rgeb_false by (unfold half_pi, FORTPI; lra).
  rewrite Rleb_false by (unfold half_pi, FORTPI; lra).
  rewrite Rleb_true by (unfold fabs, FORTPI; rewrite Rabs_R0; lra).
  rewrite Rneb_false by reflexivity. reflexivity.
Qed.

Lemma qsc_polar_round_trip_witness :
  exists xy_x xy_y,
    QscFwd.fwd (mk_parameters 1 0 (PI / 2) 0 (fun _ => 0))
      (Qsc.setup_qsc (mk_parameters 1 0 (PI / 2) 0 (fun _ => 0))
         (Qsc.mk_par_qsc Qsc.FACE_FRONT 0 0 0 0)) 0 0
    = Some (xy_x, xy_y) /\
    Qsc.inv (mk_parameters 1 0 (PI / 2) 0 (fun _ => 0))
      (Qsc.setup_qsc (mk_parameters 1 0 (PI / 2) 0 (fun _ => 0))
         (Qsc.mk_par_qsc Qsc.FACE_FRONT 0 0 0 0)) xy_x xy_y
    = Some (0, 0).
Proof.
  apply (qsc_polar_round_trip (mk_parameters 1 0 (PI / 2) 0 (fun _ => 0))
           (Qsc.mk_par_qsc Qsc.FACE_FRONT 0 0 0 0) 0 0).
  - cbn [es]. intros H. exfalso. apply H. reflexivity.
  - left. split; [exact setup_qsc_top_sample |].
    pose proof PI_RGT_0. split; lra.
Defined.

Lemma qsc_equatorial_round_trip_witness :
  exists xy_x xy_y,
    QscFwd.fwd (mk_parameters 1 0 0 0 (fun _ => 0))
      (Qsc.setup_qsc (mk_parameters 1 0 0 0 (fun _ => 0))
         (Qsc.mk_par_qsc Qsc.FACE_BACK 0 0 0 0)) 1 0
    = Some (xy_x, xy_y) /\
    Qsc.inv (mk_parameters 1 0 0 0 (fun _ => 0))
      (Qsc.setup_qsc (mk_parameters 1 0 0 0 (fun _ => 0))
         (Qsc.mk_par_qsc Qsc.FACE_BACK 0 0 0 0)) xy_x xy_y
    = Some (1, 0).
Proof.
  pose proof PI2_1 as Hpi.
  apply (qsc_equatorial_round_trip (mk_parameters 1 0 0 0 (fun _ => 0))
           (Qsc.mk_par_qsc Qsc.FACE_BACK 0 0 0 0) 1 0).
  - cbn [es]. intros H. exfalso. apply H. reflexivity.
  - rewrite setup_qsc_front_sample. discriminate.
  - rewrite setup_qsc_front_sample. discriminate.
  - lra.
  - lra.
  - unfold QscFwd.fwd_geocentric_lat. cbn [es].
    rewrite Rneb_false by reflexivity.
    rewrite cos_0, Rmult_1_l, acos_cos by lra.
    unfold Qsc.EPS10. lra.
Defined.

Lemma qsc_equatorial_faces_coincide_witness :
  QscFwd.fwd (mk_parameters 1 0 0 0 (fun _ => 0))
    (Qsc.mk_par_qsc Qsc.FACE_FRONT 0 0 0 0) 1 1
  = QscFwd.fwd (mk_parameters 1 0 0 0 (fun _ => 0))
      (Qsc.mk_par_qsc Qsc.FACE_RIGHT 0 0 0 0) 1 1.
Proof.
  apply qsc_equatorial_faces_coincide; cbn [Qsc.face Qsc.one_minus_f_squared];
    try discriminate; reflexivity.
Defined.

Lemma qsc_fwd_near_centre_collapses_witness :
  exists xy_x,
    0 <= xy_x /\
    QscFwd.fwd (mk_parameters 1 0 0 0 (fun _ => 0))
      (Qsc.setup_qsc (mk_parameters 1 0 0 0 (fun _ => 0))
         (Qsc.mk_par_qsc Qsc.FACE_BACK 0 0 0 0)) 0 0
    = Some (xy_x, 0) /\
    Qsc.inv (mk_parameters 1 0 0 0 (fun _ => 0))
      (Qsc.setup_qsc (mk_parameters 1 0 0 0 (fun _ => 0))
         (Qsc.mk_par_qsc Qsc.FACE_BACK 0 0 0 0)) xy_x 0
    = Some (acos (cos (QscFwd.fwd_geocentric_lat
                         (mk_parameters 1 0 0 0 (fun _ => 0))
                         (Qsc.setup_qsc (mk_parameters 1 0 0 0 (fun _ => 0))
                            (Qsc.mk_par_qsc Qsc.FACE_BACK 0 0 0 0)) 0)
                    * cos 0), 0).
Proof.
  apply (qsc_fwd_near_centre_collapses (mk_parameters 1 0 0 0 (fun _ => 0))
           (Qsc.mk_par_qsc Qsc.FACE_BACK 0 0 0 0) 0 0).
  - cbn [es]. intros H. exfalso. apply H. reflexivity.
  - rewrite setup_qsc_front_sample. discriminate.
  - rewrite setup_qsc_front_sample. discriminate.
  - unfold QscFwd.fwd_geocentric_lat. cbn [es].
    rewrite Rneb_false by reflexivity.
    rewrite cos_0, Rmult_1_l, acos_1.
    unfold Qsc.EPS10. lra.
Defined.

Lemma qsc_fwd_never_nan_witness :
  exists xy_x xy_y,
    QscFwd.fwd (mk_parameters 1 (1 / 4) 0 0 (fun _ => 0))
      (Qsc.mk_par_qsc Qsc.FACE_TOP 1 1 1 1) 1 1
    = Some (xy_x, xy_y).
Proof.
  apply qsc_fwd_never_nan. intros _. pose proof PI2_1. lra.
Defined.


Lemma qsc_polar_edges_witness :
  Qsc.inv (mk_parameters 1 0 0 0 (fun _ => 0))
    (Qsc.mk_par_qsc Qsc.FACE_TOP 0 0 0 0) 0 0
  = Some (PI / 2, PI / 2).
Proof.
  exact (proj1 (proj2 (proj1 (qsc_polar_edges
                                (mk_parameters 1 0 0 0 (fun _ => 0))
                                (Qsc.mk_par_qsc Qsc.FACE_TOP 0 0 0 0)
                                eq_refl) eq_refl))).
Defined.

Lemma evaluate_coeffs_A3_nested_witness :
  exists a,
    forall n,
      exists r r',
        SeriesCoeffs.evaluate_coeffs_A3 [0; 0] n = Some r /\
        SeriesCoeffs.evaluate_coeffs_A3 [0; 0; 0] n = Some r' /\
        SeriesExpansion.at_ r' 1 - SeriesExpansion.at_ r 1 = a * n ^ (2 - 1).
Proof.
  apply (evaluate_coeffs_A3_nested 2 1 [0; 0] [0; 0; 0]);
    [lia | lia | reflexivity | reflexivity].
Defined.

Lemma evaluate_coeffs_C3x_rows_nested_witness :
  exists r r',
    SeriesCoeffs.evaluate_coeffs_C3x 2 [0] 1 = Some r /\
    SeriesCoeffs.evaluate_coeffs_C3x 3 [0; 0; 0] 1 = Some r' /\
    forall l j,
      (1 <= l)%nat -> (l + j < 2)%nat ->
      SeriesExpansion.at_ r'
        (SeriesCoeffs.triangle 2 - SeriesCoeffs.triangle (3 - l) + j)
      = SeriesExpansion.at_ r
          (SeriesCoeffs.triangle (2 - 1) - SeriesCoeffs.triangle (2 - l) + j).
Proof.
  apply (evaluate_coeffs_C3x_rows_nested 2 [0] [0; 0; 0] 1);
    [lia | reflexivity | reflexivity].
Defined.
